(** * Overwrite: merging priors into the SoS

    A shallow embedding of [overwrite.py] (class [Overwrite], the merge
    engine) and [store.py] (class [PriorStore], the exchange-file writer),
    with the properties of the specification stated over it.

    Conventions of the model.
    - Identifiers ([i8]) and index arrays ([i4]) are lists of [Z].
    - Positions inside an array are [nat].
    - Floating values are exact rationals, the values of double
      precision; arrays carry no missing values.
    - An indexing that numpy or the container library rejects is [None]
      (or an error value in the effectful part).
    - A file opened to append is created when it is missing, in a
      directory that exists; a file opened to read must be there.
    - A variable has a declared type, and a write converts to it: a
      float loses its fraction in an integer type, an integer array
      wraps, a Python integer that does not fit raises.  What the library
      leaves undefined (a float beyond the range of an integer type) and
      the types outside the model end the run with [Unmodelled].
    - An index array selects along one axis and two of them select the
      grid of their product, in a write (the container library) and not
      in a read of an array in memory (numpy), which pairs them.  The
      container library turns an index array of one element, or of two
      and more in steps of one positive width, into a slice. *)

From Stdlib Require Import ZArith QArith Qabs Qround String Ascii List Lia.
From stdpp Require Import base option list sorting gmap strings.

Local Open Scope Z_scope.
Local Open Scope nat_scope.
Local Open Scope list_scope.

(** ** numpy on one-dimensional integer arrays *)

Module Np.

(** [a[i]] for a position known to be in range; the default is never
    observed by the functions below on positions they produce. *)
Definition key_at (a : list Z) (i : nat) : Z := default 0%Z (a !! i).

(** Order used by [argsort]: by key, ties by position.  numpy's default
    sort kind promises nothing on ties; sorting positions by this total
    order is the stable result, and on pairwise-distinct keys every
    sorting algorithm returns it. *)
Definition key_le (a : list Z) (i j : nat) : Prop :=
  (key_at a i < key_at a j)%Z ∨ (key_at a i = key_at a j ∧ i ≤ j).

#[global] Instance key_le_dec a i j : Decision (key_le a i j).
Proof. unfold key_le. apply _. Defined.

(** [np.argsort(a)] *)
Definition argsort (a : list Z) : list nat :=
  merge_sort (key_le a) (seq 0 (length a)).

(** The loop of [np.searchsorted(..., side='left')] for one key:
    [kf p] is the p-th smallest element, [lo, hi) the open interval. *)
Fixpoint bisect_left (kf : nat → Z) (v : Z) (fuel lo hi : nat) : nat :=
  match fuel with
  | O => lo
  | S fuel' =>
      if lo <? hi then
        let mid := lo + (hi - lo) / 2 in
        if (kf mid <? v)%Z
        then bisect_left kf v fuel' (S mid) hi
        else bisect_left kf v fuel' lo mid
      else lo
  end.

(** [a[sorter[p]]] *)
Definition sorted_key (a : list Z) (sorter : list nat) (p : nat) : Z :=
  key_at a (default 0 (sorter !! p)).

(** [np.searchsorted(a, vs, sorter=sorter)] *)
Definition searchsorted (a vs : list Z) (sorter : list nat) : list nat :=
  map (λ v, bisect_left (sorted_key a sorter) v (length a) 0 (length a)) vs.

(** [l[idx]] with an array of non-negative positions: numpy raises
    [IndexError] when a position is out of bounds. *)
Definition take {A} (l : list A) (idx : list nat) : option (list A) :=
  mapM (l !!.) idx.

(** [sorter = np.argsort(ids); sorter[np.searchsorted(ids, keys, sorter=sorter)]] *)
Definition resolve_offsets (ids keys : list Z) : option (list nat) :=
  let sorter := argsort ids in
  take sorter (searchsorted ids keys sorter).

End Np.

(** ** Python strings

    Strings are byte strings; [upper] and [lower] recase the ASCII letters
    and leave every other byte as it is. *)

Module Py.

Local Open Scope string_scope.

(** [s.split(sep)] for a one-character separator: never the empty list. *)
Fixpoint split (sep : ascii) (s : string) : list string :=
  match s with
  | EmptyString => [EmptyString]
  | String c s' =>
      if Ascii.eqb c sep then EmptyString :: split sep s'
      else match split sep s' with
           | [] => [String c EmptyString]
           | w :: ws => String c w :: ws
           end
  end.

(** [sep.join(l)] *)
Fixpoint join (sep : string) (l : list string) : string :=
  match l with
  | [] => EmptyString
  | [x] => x
  | x :: l' => x +:+ sep +:+ join sep l'
  end.

(** [l[0]] of a list that [split] returned. *)
Definition first (l : list string) : string := hd EmptyString l.

(** [l[1:]] *)
Definition rest (l : list string) : list string := tl l.

Definition upper_ascii (c : ascii) : ascii :=
  let n := nat_of_ascii c in
  if ((97 <=? n) && (n <=? 122))%nat then ascii_of_nat (n - 32) else c.

Definition lower_ascii (c : ascii) : ascii :=
  let n := nat_of_ascii c in
  if ((65 <=? n) && (n <=? 90))%nat then ascii_of_nat (n + 32) else c.

Fixpoint map_chars (f : ascii → ascii) (s : string) : string :=
  match s with
  | EmptyString => EmptyString
  | String c s' => String (f c) (map_chars f s')
  end.

(** [s.upper()] *)
Definition upper : string → string := map_chars upper_ascii.

(** [s.lower()] *)
Definition lower : string → string := map_chars lower_ascii.

(** [s.replace(a, b)] for one-character [a] and [b]. *)
Definition replace (a b : ascii) : string → string :=
  map_chars (λ c, if Ascii.eqb c a then b else c).

(** [c in s] *)
Fixpoint contains (c : ascii) (s : string) : bool :=
  match s with
  | EmptyString => false
  | String c' s' => Ascii.eqb c' c || contains c s'
  end.

End Py.

(** ** Arrays of values

    Identifier and index arrays are integer vectors.  Prior values and
    time labels are arrays of one or two dimensions whose elements are
    modelled as exact rationals: the rounding of the floating types is
    not modelled, the conversion to an integer type is.  No element is
    masked and none is NaN. *)

Inductive ndarray : Type :=
  | IntVec (l : list Z)
  | Vec (l : list Q)
  | Mat (rows : list (list Q)).

Module NpArr.

(** Defaults of [np.allclose]: [rtol=1e-05], [atol=1e-08]. *)
Definition rtol : Q := 1 # 100000.
Definition atol : Q := 1 # 100000000.

(** [|a - b| <= atol + rtol * |b|] *)
Definition isclose (a b : Q) : bool :=
  Qle_bool (Qabs (a - b)) (atol + rtol * Qabs b).

(** Two arrays broadcast against each other along one axis. *)
Definition broadcast2 {A B} (a : list A) (b : list B) : option (list (A * B)) :=
  if decide (length a = length b) then Some (zip a b)
  else match a, b with
       | [x], _ => Some (zip (replicate (length b) x) b)
       | _, [y] => Some (zip a (replicate (length a) y))
       | _, _ => None
       end.

Definition allclose1 (a b : list Q) : option bool :=
  ps ← broadcast2 a b;
  Some (forallb (λ p, isclose p.1 p.2) ps).

Definition allclose2 (a b : list (list Q)) : option bool :=
  rows ← broadcast2 a b;
  bs ← mapM (λ p, allclose1 p.1 p.2) rows;
  Some (forallb id bs).

(** A numeric array seen with two axes: a vector is one row, an integer
    is the rational it denotes. *)
Definition as_rows (a : ndarray) : option (list (list Q)) :=
  match a with
  | Vec l => Some [l]
  | Mat rows => Some rows
  | IntVec l => Some [inject_Z <$> l]
  end.

(** [np.allclose(a, b)]; [None] when the shapes do not broadcast. *)
Definition allclose (a b : ndarray) : option bool :=
  match a, b with
  | Vec x, Vec y => allclose1 x y
  | _, _ => ra ← as_rows a; rb ← as_rows b; allclose2 ra rb
  end.

(** Conversion of one float to [int]: rounding toward zero. *)
Definition Qtrunc (q : Q) : Z := Z.quot (Qnum q) (Zpos (Qden q)).

(** [a[0]] of a two-dimensional array. *)
Definition first_row (a : ndarray) : option (list Q) :=
  match a with
  | Mat (r :: _) => Some r
  | _ => None
  end.

(** [a.astype(int)[0]] of a two-dimensional array. *)
Definition first_row_int (a : ndarray) : option (list Z) :=
  map Qtrunc <$> first_row a.

(** [a[rows, cols]] with two index arrays: numpy pairs them up. *)
Definition getitem_pairs (a : ndarray) (rows cols : list nat) : option (list Q) :=
  match a with
  | Mat m =>
      ps ← broadcast2 rows cols;
      mapM (λ p : nat * nat, r ← m !! p.1; r !! p.2) ps
  | _ => None
  end.

End NpArr.

(** ** The container library

    What the merge engine and the writer use of the netCDF library
    (netCDF4-python over a netCDF-C library from 4.6.2 on).

    - A variable has one of the numeric types below.  What is assigned
      to it is converted to that type: a float to an integer type by
      rounding toward zero, an integer to a narrower integer type by
      wrapping when it comes from an array, with [OverflowError] when it
      comes from a Python list.
    - An index array selects along its own axis, independently of the
      other axes; a negative index counts from the end.  The library
      turns an index array of one element, or of two and more elements
      with a constant positive step, into a slice; its rules for the
      shape of the data differ between slices and other index arrays.
    - Dimensions do not grow in a selection: an index past the end is an
      error. *)

Module Nc.

Import NpArr.

Fixpoint assoc {A} (k : string) (l : list (string * A)) : option A :=
  match l with
  | [] => None
  | (k', v) :: l' => if String.eqb k' k then Some v else assoc k l'
  end.

(** Replace the entry under [k], or add it at the end. *)
Fixpoint assoc_set {A} (k : string) (v : A) (l : list (string * A)) : list (string * A) :=
  match l with
  | [] => [(k, v)]
  | (k', v') :: l' =>
      if String.eqb k' k then (k, v) :: l' else (k', v') :: assoc_set k v l'
  end.

(** *** Types and conversions *)

(** The double precision floating type, which holds every value of the
    model as it is, or an integer type with its least and greatest
    value. *)
Inductive Kind : Type :=
  | KFloat
  | KInt (lo hi : Z).

Local Open Scope string_scope.

(** The type specifiers of the model.  Any other specifier (single
    precision, whose values are rounded on a write; a type of characters;
    an alias of numpy) is outside it. *)
Definition kinds : list (string * Kind) :=
  [("f8", KFloat);
   ("i1", KInt (-128) 127); ("i2", KInt (-32768) 32767);
   ("i4", KInt (-2147483648) 2147483647);
   ("i8", KInt (-9223372036854775808) 9223372036854775807);
   ("u1", KInt 0 255); ("u2", KInt 0 65535); ("u4", KInt 0 4294967295);
   ("u8", KInt 0 18446744073709551615)].

Definition kind_of (dtype : string) : option Kind := assoc dtype kinds.

Local Close Scope string_scope.

(** Why an operation of the library raised. *)
Inductive Fault : Type :=
  | BadIndex    (* IndexError *)
  | BadShape    (* ValueError *)
  | TooLarge    (* OverflowError *)
  | BadValue.   (* a value or an array outside the model *)

Inductive Res (A : Type) : Type :=
  | Got (a : A)
  | Fail (f : Fault).
Arguments Got {A} a.
Arguments Fail {A} f.

#[global] Instance Res_ret : MRet Res := λ A a, Got a.
#[global] Instance Res_fmap : FMap Res := λ A B f m,
  match m with
  | Got a => Got (f a)
  | Fail e => Fail e
  end.
#[global] Instance Res_bind : MBind Res := λ A B f m,
  match m with
  | Got a => f a
  | Fail e => Fail e
  end.

Definition need {A} (f : Fault) (o : option A) : Res A :=
  match o with
  | Some a => Got a
  | None => Fail f
  end.

Definition fits (lo hi z : Z) : bool := bool_decide (lo ≤ z ≤ hi)%Z.

(** The value of [z] in two's complement over the range [lo .. hi]. *)
Definition wrap (lo hi z : Z) : Z := (lo + (z - lo) `mod` (hi - lo + 1))%Z.

(** One element converted to the type [k], as [astype] does.  [int]
    says that the element comes from an integer array, which wraps.  A
    float beyond the range of an integer type has no defined result. *)
Definition convert (k : Kind) (int : bool) (q : Q) : option Q :=
  match k with
  | KFloat => Some q
  | KInt lo hi =>
      let z := Qtrunc q in
      if fits lo hi z then Some (inject_Z z)
      else if int then Some (inject_Z (wrap lo hi z))
      else None
  end.

Definition is_int (a : ndarray) : bool :=
  match a with
  | IntVec _ => true
  | _ => false
  end.

(** The elements of an array of one dimension. *)
Definition cells (a : ndarray) : option (list Q) :=
  match a with
  | IntVec l => Some (inject_Z <$> l)
  | Vec l => Some l
  | Mat _ => None
  end.

(** An array of one dimension with elements of the type [k]. *)
Definition pack (k : Kind) (l : list Q) : ndarray :=
  match k with
  | KFloat => Vec l
  | KInt _ _ => IntVec (Qtrunc <$> l)
  end.

(** *** Shapes *)

(** The shape of an array of two dimensions; [None] when the rows differ
    in length. *)
Definition shape2 {A} (m : list (list A)) : option (nat * nat) :=
  let c := length (hd [] m) in
  if forallb (λ row, length row =? c) m then Some (length m, c) else None.

(** [l.reshape(n, k)] *)
Definition reshape {A} (n k : nat) (l : list A) : list (list A) :=
  (λ i, take k (drop (i * k) l)) <$> seq 0 n.

(** One axis broadcast to the length [n]. *)
Definition stretch {A} (n : nat) (l : list A) : list A :=
  match l with
  | [x] => replicate n x
  | _ => l
  end.

(** Data of one dimension made to the shape [(n, k)] of a selection:
    reshaped when they have its size, else broadcast. *)
Definition conform1 {A} (n k : nat) (l : list A) : option (list (list A)) :=
  if decide (length l = k) then Some (replicate n l)
  else if decide (length l = n * k) then Some (reshape n k l)
  else match l with
       | [x] => Some (replicate n (replicate k x))
       | _ => None
       end.

(** Data of the shape [(r, c)] made to the shape [(n, k)]. *)
Definition conform2 {A} (n k : nat) (m : list (list A)) (r c : nat)
  : option (list (list A)) :=
  if decide (r = n ∧ c = k) then Some m
  else if decide (r * c = n * k) then Some (reshape n k (concat m))
  else if decide ((r = n ∨ r = 1) ∧ (c = k ∨ c = 1))
       then Some (stretch k <$> stretch n m)
  else None.

(** An index array that the library turns into a slice. *)
Definition sliceable (idx : list nat) : bool :=
  match idx with
  | [] => false
  | [_] => true
  | i :: j :: _ =>
      (i <? j) && bool_decide (idx = (λ p, i + p * (j - i)) <$> seq 0 (length idx))
  end.

(** *** Variables, groups, files *)

Record NcVariable : Type := {
  dtype : string;
  dimensions : list string;
  data : ndarray
}.

Record Group : Type := {
  gattrs : gmap string string;
  dims : list (string * option nat);
  variables : gmap string NcVariable
}.

(** A file: global attributes and groups in creation order, a nested
    group under its path ([model/grdc]). *)
Record Dataset : Type := {
  attrs : gmap string string;
  groups : list (string * Group)
}.

Definition empty_group : Group :=
  {| gattrs := ∅; dims := []; variables := ∅ |}.

Definition empty_dataset : Dataset := {| attrs := ∅; groups := [] |}.

(** *** Assignment to a selection *)

(** A position given as a signed integer: negative ones count from the
    end, anything else out of [0, n) is an [IndexError]. *)
Definition norm_index (n : nat) (i : Z) : option nat :=
  if decide (0 ≤ i < Z.of_nat n)%Z then Some (Z.to_nat i)
  else if decide (- Z.of_nat n ≤ i < 0)%Z then Some (Z.to_nat (i + Z.of_nat n))
  else None.

(** Element-by-element store, in the order of the index array: a later
    occurrence of a position wins; the store ends with the shorter of
    the two lists. *)
Fixpoint put_elems {A} (v : list A) (idx : list nat) (d : list A) : list A :=
  match idx, d with
  | i :: idx', x :: d' => put_elems (<[i:=x]> v) idx' d'
  | _, _ => v
  end.

(** The rows [idx] of a matrix receive, in the columns [cols], the rows
    of [d] in order. *)
Fixpoint put_grid {A} (m : list (list A)) (idx cols : list nat) (d : list (list A))
  : list (list A) :=
  match idx, d with
  | i :: idx', row :: d' =>
      put_grid (alter (λ old, put_elems old cols row) i m) idx' cols d'
  | _, _ => m
  end.

(** What an assignment did. *)
Inductive Put : Type :=
  | Done (a : ndarray)               (* it returned; the variable holds [a] *)
  | Part (f : Fault) (a : ndarray)   (* it raised after a first part was written *)
  | Refused (f : Fault).             (* it raised before anything was written *)

(** Data for [n] positions along the one axis of a variable: an array of
    two dimensions is reshaped when it has [n] elements. *)
Definition flat (n : nat) (a : ndarray) : option (list Q) :=
  match a with
  | Mat m =>
      match shape2 m with
      | Some (r, c) => if decide (r * c = n) then Some (concat m) else None
      | None => None
      end
  | _ => cells a
  end.

(** [var[rows] = data] on a variable of one dimension.  With a slice the
    data must have the size of the selection.  Otherwise the elements
    are stored one by one: data beyond the selection are left out, and
    data that end before it raise when they are used up. *)
Definition setitem_vec (k : Kind) (var : ndarray) (old : list Q) (rows : list Z)
    (data : ndarray) : Put :=
  match mapM (norm_index (length old)) rows with
  | None => Refused BadIndex
  | Some idx =>
      let n := length idx in
      match flat n data with
      | None => Refused BadShape
      | Some l =>
          if decide (n = 0) then Done var
          else if sliceable idx && negb (length l =? n) then Refused BadIndex
          else
            match mapM (convert k (is_int data)) (take n l) with
            | None => Refused BadValue
            | Some l' =>
                let a := pack k (put_elems old idx l') in
                if n <=? length l then Done a else Part BadIndex a
            end
      end
  end.

(** The data of [var[rows] = data] for a variable with rows of length
    [K], made to the shape of the selection. *)
Definition row_data (n K : nat) (idx : list nat) (data : ndarray)
  : Res (list (list Q)) :=
  match data with
  | Mat m =>
      '(r, c) ← need BadValue (shape2 m);
      if decide (n = 0)
      then (if decide (r * c = 0 ∨ (r = 1 ∧ c = 1)) then Got [] else Fail BadShape)
      else need BadShape (conform2 n K m r c)
  | _ =>
      if sliceable idx
      then l ← need BadValue (cells data); need BadShape (conform1 n K l)
      else Fail BadIndex
  end.

(** [var[rows] = data] on a variable of two dimensions: the selected
    rows are replaced. *)
Definition setitem_rows (k : Kind) (old : list (list Q)) (rows : list Z)
    (data : ndarray) : Put :=
  match shape2 old with
  | None => Refused BadValue
  | Some (N, K) =>
      match mapM (norm_index N) rows with
      | None => Refused BadIndex
      | Some idx =>
          match row_data (length idx) K idx data with
          | Fail f => Refused f
          | Got d =>
              match mapM (mapM (convert k (is_int data))) d with
              | None => Refused BadValue
              | Some d' => Done (Mat (put_elems old idx d'))
              end
          end
      end
  end.

(** [var[rows] = data]: the index array selects along the leading axis. *)
Definition setitem (v : NcVariable) (rows : list Z) (a : ndarray) : Put :=
  match kind_of (dtype v) with
  | None => Refused BadValue
  | Some k =>
      match data v with
      | Mat old => setitem_rows k old rows a
      | var =>
          match cells var with
          | Some old => setitem_vec k var old rows a
          | None => Refused BadValue
          end
      end
  end.

(** [var[rows, cols] = data] with data of one dimension.  The selection
    is the grid rows x cols.  With one of the two index arrays turned
    into a slice and the other not, the library fails on the shape of
    the data ([IndexError]); otherwise the data are made to the shape of
    the grid. *)
Definition setitem2 (v : NcVariable) (rows : list Z) (cols : list nat) (a : list Q)
  : Put :=
  match kind_of (dtype v), data v with
  | None, _ => Refused BadValue
  | Some k, Mat old =>
      match shape2 old with
      | None => Refused BadValue
      | Some (N, K) =>
          match mapM (norm_index N) rows with
          | None => Refused BadIndex
          | Some idx =>
              if negb (forallb (λ c, c <? K) cols) then Refused BadIndex
              else if xorb (sliceable idx) (sliceable cols) then Refused BadIndex
              else
                match conform1 (length idx) (length cols) a with
                | None => Refused BadShape
                | Some d =>
                    match mapM (mapM (convert k false)) d with
                    | None => Refused BadValue
                    | Some d' => Done (Mat (put_grid old idx cols d'))
                    end
                end
          end
      end
  | Some _, _ => Refused BadIndex
  end.

(** [var[rows]] *)
Definition getitem (var : ndarray) (rows : list nat) : option ndarray :=
  match var with
  | IntVec l => IntVec <$> mapM (l !!.) rows
  | Vec v => Vec <$> mapM (v !!.) rows
  | Mat m => Mat <$> mapM (m !!.) rows
  end.

(** *** Assignment of a Python list to a whole variable *)

(** [numpy.array(a, dtype)] on a list or a list of lists: an integer
    that the type cannot hold is an [OverflowError], rows of different
    lengths are a [ValueError]. *)
Definition from_list (k : Kind) (a : ndarray) : Res ndarray :=
  match a with
  | IntVec l => Vec <$> need TooLarge (mapM (convert k false) (inject_Z <$> l))
  | Vec l => Vec <$> need BadValue (mapM (convert k false) l)
  | Mat m =>
      _ ← need BadShape (shape2 m);
      Mat <$> need BadValue (mapM (mapM (convert k false)) m)
  end.

(** The converted data made to the shape of the variable, over fixed
    dimensions ([Some n]) and an unlimited last one ([None]), which
    takes the length of the data.  Over fixed dimensions the data must
    broadcast against the variable before they are reshaped or
    broadcast to it. *)
Definition fit (shape : list (option nat)) (a : ndarray) : Res ndarray :=
  match shape, a with
  | [Some n], Vec l =>
      if decide (length l = n) then Got (Vec l)
      else Fail (if decide (length l = 1 ∨ n = 1) then BadIndex else BadShape)
  | [Some n], Mat m =>
      '(r, c) ← need BadShape (shape2 m);
      if decide ((c = n ∨ c = 1 ∨ n = 1) ∧ r * c = n) then Got (Vec (concat m))
      else Fail BadShape
  | [Some n; Some k], Vec l =>
      if decide (length l = k ∨ length l = 1 ∨ k = 1)
      then Mat <$> need BadShape (conform1 n k l)
      else Fail BadShape
  | [Some n; Some k], Mat m =>
      '(r, c) ← need BadShape (shape2 m);
      if decide ((r = n ∨ r = 1 ∨ n = 1) ∧ (c = k ∨ c = 1 ∨ k = 1))
      then Mat <$> need BadShape (conform2 n k m r c)
      else Fail BadShape
  | [Some n; None], Vec l => Fail BadIndex
  | [Some n; None], Mat m =>
      '(r, c) ← need BadShape (shape2 m);
      Mat <$> need BadShape (conform2 n c m r c)
  | _, _ => Fail BadValue
  end.

(** The array in the representation of its type. *)
Definition typed (k : Kind) (a : ndarray) : ndarray :=
  match a with
  | Vec l => pack k l
  | _ => a
  end.

(** [var[:] = a] for a Python list [a], on a variable of the type
    [dtype] over dimensions of the sizes [shape]. *)
Definition fill (dtype : string) (shape : list (option nat)) (a : ndarray)
  : Res ndarray :=
  k ← need BadValue (kind_of dtype);
  a1 ← from_list k a;
  a2 ← fit shape a1;
  mret (typed k a2).

End Nc.

(** ** Files, output and exceptions

    The state threaded through both programs: the files by path, and the
    trace of what the run did to the outside (files opened and closed,
    lines printed).  A write to an open file is seen by later reads of
    the same run at once.  An exception that nothing catches ends the run
    with the state reached. *)

Module Eff.

Inductive Error : Type :=
  | NameError (name : string)
  | AttributeError (name : string)
  | KeyError (key : string)
  | FileNotFoundError (path : string)
  | NotFound (name : string)      (* no such group or variable in a file *)
  | NameInUse (name : string)     (* a dimension or variable defined twice *)
  | IndexError
  | ValueError
  | OverflowError
  | Unmodelled.                   (* an array or a type outside the model *)

Inductive Mode : Type := ModeR | ModeA | ModeW.

Inductive Event : Type :=
  | EvOpen (path : string) (mode : Mode)
  | EvClose (path : string)
  | EvPrint (line : string).

Record World : Type := {
  files : gmap string Nc.Dataset;
  trace : list Event
}.

Inductive Result (A : Type) : Type :=
  | Ok (a : A) (w : World)
  | Raise (e : Error) (w : World).
Arguments Ok {A} a w.
Arguments Raise {A} e w.

Definition M (A : Type) : Type := World → Result A.

#[global] Instance M_ret : MRet M := λ A a w, Ok a w.
#[global] Instance M_bind : MBind M := λ A B f m w,
  match m w with
  | Ok a w' => f a w'
  | Raise e w' => Raise e w'
  end.

Definition raise {A} (e : Error) : M A := λ w, Raise e w.

Definition lift {A} (e : Error) (o : option A) : M A :=
  match o with
  | Some a => mret a
  | None => raise e
  end.

Definition emit (ev : Event) : M unit :=
  λ w, Ok () {| files := files w; trace := trace w ++ [ev] |}.

Definition read_file (path : string) : M Nc.Dataset :=
  λ w, match files w !! path with
       | Some ds => Ok ds w
       | None => Raise (FileNotFoundError path) w
       end.

Definition write_file (path : string) (ds : Nc.Dataset) : M unit :=
  λ w, Ok () {| files := <[path:=ds]> (files w); trace := trace w |}.

(** A file that is not there is created empty. *)
Definition create_missing (path : string) : M unit :=
  λ w, match files w !! path with
       | Some _ => Ok () w
       | None => write_file path Nc.empty_dataset w
       end.

(** [Dataset(path, mode)]: ['w'] creates or truncates; ['r'] needs the
    file; ['a'] opens the file and creates it when it is not there (its
    directory is taken to exist). *)
Definition Dataset_open (path : string) (mode : Mode) : M unit :=
  match mode with
  | ModeW => write_file path Nc.empty_dataset ;; emit (EvOpen path ModeW)
  | ModeA => create_missing path ;; emit (EvOpen path ModeA)
  | ModeR => _ ← read_file path; emit (EvOpen path ModeR)
  end.

(** [ds.close()] *)
Definition Dataset_close (path : string) : M unit := emit (EvClose path).

Definition print (line : string) : M unit := emit (EvPrint line).

(** [g[name][:]] *)
Definition group_var (g : Nc.Group) (name : string) : M ndarray :=
  v ← lift (NotFound name) (Nc.variables g !! name);
  mret (Nc.data v).

(** [ds[gname]] in the open file [path] *)
Definition file_group (path gname : string) : M Nc.Group :=
  ds ← read_file path;
  lift (NotFound gname) (Nc.assoc gname (Nc.groups ds)).

(** [ds[gname][vname][:]] *)
Definition file_var (path gname vname : string) : M ndarray :=
  g ← file_group path gname;
  group_var g vname.

(** The values of [ds[gname][vname]] replaced by [a]. *)
Definition file_var_store (path gname vname : string) (a : ndarray) : M unit :=
  ds ← read_file path;
  g ← lift (NotFound gname) (Nc.assoc gname (Nc.groups ds));
  v ← lift (NotFound vname) (Nc.variables g !! vname);
  let v' := {| Nc.dtype := Nc.dtype v; Nc.dimensions := Nc.dimensions v;
               Nc.data := a |} in
  let g' := {| Nc.gattrs := Nc.gattrs g; Nc.dims := Nc.dims g;
               Nc.variables := <[vname:=v']> (Nc.variables g) |} in
  write_file path {| Nc.attrs := Nc.attrs ds;
                     Nc.groups := Nc.assoc_set gname g' (Nc.groups ds) |}.

(** [ds[gname][vname]], the variable with its type *)
Definition file_variable (path gname vname : string) : M Nc.NcVariable :=
  g ← file_group path gname;
  lift (NotFound vname) (Nc.variables g !! vname).

(** The exception of a failure of the library. *)
Definition fault (f : Nc.Fault) : Error :=
  match f with
  | Nc.BadIndex => IndexError
  | Nc.BadShape => ValueError
  | Nc.TooLarge => OverflowError
  | Nc.BadValue => Unmodelled
  end.

Definition result {A} (r : Nc.Res A) : M A :=
  match r with
  | Nc.Got a => mret a
  | Nc.Fail f => raise (fault f)
  end.

(** An assignment to [ds[gname][vname]] carried out on the file. *)
Definition put (path gname vname : string) (p : Nc.Put) : M unit :=
  match p with
  | Nc.Done a => file_var_store path gname vname a
  | Nc.Part f a => file_var_store path gname vname a ;; raise (fault f)
  | Nc.Refused f => raise (fault f)
  end.

(** An identifier or index array. *)
Definition ints (a : ndarray) : M (list Z) :=
  match a with
  | IntVec l => mret l
  | _ => raise Unmodelled
  end.

End Eff.

(** ** overwrite.py *)

Module Overwrite.

Import Eff.
Local Open Scope string_scope.

Record t : Type := {
  priors_file : string;
  sos_file : string
}.

Definition determine_group (source : string) : string :=
  if (source =? "wbm") || (source =? "grades") then "model"
  else if source =? "grdc" then "model/grdc"
  else if source =? "gbreach" then "gbpriors/reach"
  else if source =? "gbnode" then "gbpriors/node"
  else "model/usgs".

Definition locate_sos_file (priors_file : string) : M string :=
  Dataset_open priors_file ModeR ;;
  ds ← read_file priors_file;
  sos_file ← lift (AttributeError "sos_file") (Nc.attrs ds !! "sos_file");
  Dataset_close priors_file ;;
  mret sos_file.

(** [Overwrite(priors_file)] *)
Definition init (priors_file : string) : M t :=
  sos_file ← locate_sos_file priors_file;
  mret {| priors_file := priors_file; sos_file := sos_file |}.

Definition retrieve_ids (source : string) (priors_ds : Nc.Group) (sos_ds : string)
  : M (ndarray * ndarray) :=
  if source =? "usgs" then
    prior_ids ← group_var priors_ds "reach_id";
    sos_ids ← file_var sos_ds "model/usgs" "usgs_reach_id";
    mret (prior_ids, sos_ids)
  else if source =? "grdc" then
    prior_ids ← group_var priors_ds "reach_id";
    sos_ids ← file_var sos_ds "model/grdc" "grdc_reach_id";
    mret (prior_ids, sos_ids)
  else
    prior_ids ← group_var priors_ds "reach_id";
    sos_ids ← file_var sos_ds "reaches" "reach_id";
    mret (prior_ids, sos_ids).

(** [in priors_ds[key].variables.keys()] *)
Definition has_var (g : Nc.Group) (name : string) : bool :=
  bool_decide (is_Some (Nc.variables g !! name)).

(** Lines 104-108: the two identifier arrays of the cross-check. *)
Definition test_ids (source : string) (g : Nc.Group) (sos_ds : string)
  : M (ndarray * ndarray) :=
  if has_var g "reach_id" then retrieve_ids source g sos_ds
  else
    prior_ids ← group_var g "node_id";
    sos_ids ← file_var sos_ds "nodes" "node_id";
    mret (prior_ids, sos_ids).

(** [sorter = np.argsort(ids); sorter[np.searchsorted(ids, keys, sorter=sorter)]] *)
Definition offsets (ids keys : list Z) : M (list nat) :=
  lift IndexError (Np.resolve_offsets ids keys).

(** Lines 113-122: the write and the read-back comparison. *)
Definition write_and_check (g : Nc.Group) (sos_ds group prior : string)
    (prior_indexes : list Z) (data : ndarray) (test_indexes : list nat) : M bool :=
  if has_var g "value_t" then
    value_t ← group_var g "value_t";
    prior_t ← lift Unmodelled (NpArr.first_row_int value_t);
    sos_tv ← file_var sos_ds group (prior +:+ "t");
    sos_t ← lift Unmodelled (NpArr.first_row_int sos_tv);
    index_t ← offsets sos_t prior_t;
    data0 ← lift Unmodelled (NpArr.first_row data);
    var ← file_variable sos_ds group prior;
    put sos_ds group prior (Nc.setitem2 var prior_indexes index_t data0) ;;
    stored ← file_var sos_ds group prior;
    back ← lift IndexError (NpArr.getitem_pairs stored test_indexes index_t);
    lift ValueError (NpArr.allclose1 data0 back)
  else
    var ← file_variable sos_ds group prior;
    put sos_ds group prior (Nc.setitem var prior_indexes data) ;;
    stored ← file_var sos_ds group prior;
    back ← lift IndexError (Nc.getitem stored test_indexes);
    lift ValueError (NpArr.allclose data back).

(** Lines 124-130: the status line. *)
Definition report (success : bool) (source prior run_type : string) : M unit :=
  if success then
    let source :=
      if (source =? "gbreach") || (source =? "gbnode") then "gbpriors" else source in
    print (Py.upper source +:+ ": '" +:+ prior
           +:+ "' has been overwritten in the SoS (" +:+ run_type +:+ ").")
  else
    let source :=
      if (source =? "gbreach") || (source =? "gbnode") then "gbpriors" else source in
    print ("FAILURE: " +:+ Py.upper source +:+ ": '" +:+ prior
           +:+ "' has NOT been overwritten in the SoS (" +:+ run_type +:+ ").").

(** [sos_dir / run_type / self.sos_file] *)
Definition sos_path (sos_dir run_type sos_file : string) : string :=
  sos_dir +:+ "/" +:+ run_type +:+ "/" +:+ sos_file.

(** [key.split('_')[0]] and ['_'.join(key.split('_')[1:])] *)
Definition parse_key (key : string) : string * string :=
  (Py.first (Py.split "_" key), Py.join "_" (Py.rest (Py.split "_" key))).

(** The body of the loop of [overwrite], lines 91-132, for the group
    [g] found under [key]; the value is [success]. *)
Definition overwrite_group (self : t) (sos_dir : string) (key : string) (g : Nc.Group)
  : M bool :=
  let source := (parse_key key).1 in
  let prior := (parse_key key).2 in
  run_type ← lift (AttributeError "run_type") (Nc.gattrs g !! "run_type");
  prior_indexes ← group_var g "indexes" ≫= ints;
  data ← group_var g "prior_values";
  let group := determine_group source in
  let sos_ds := sos_path sos_dir run_type (sos_file self) in
  Dataset_open sos_ds ModeA ;;
  '(prior_ids, sos_ids) ← test_ids source g sos_ds;
  sos_ids ← ints sos_ids;
  prior_ids ← ints prior_ids;
  test_indexes ← offsets sos_ids prior_ids;
  success ← write_and_check g sos_ds group prior prior_indexes data test_indexes;
  report success source prior run_type ;;
  Dataset_close sos_ds ;;
  mret success.

Fixpoint for_groups (body : string → Nc.Group → M bool) (l : list (string * Nc.Group))
  : M unit :=
  match l with
  | [] => mret ()
  | (key, g) :: l' => body key g ;; for_groups body l'
  end.

Definition overwrite (self : t) (sos_dir : string) : M unit :=
  Dataset_open (priors_file self) ModeR ;;
  priors_ds ← read_file (priors_file self);
  for_groups (overwrite_group self sos_dir) (Nc.groups priors_ds) ;;
  Dataset_close (priors_file self).

End Overwrite.

(** ** store.py *)

Module PriorStore.

Import Eff.
Local Open Scope string_scope.

Definition NODE_LIST : list string :=
  ["river_type"; "logA0_hat"; "logn_hat"; "b_hat"; "logWb_hat"; "logDb_hat";
   "logr_hat"; "logA0_sd"; "logn_sd"; "b_sd"; "logWb_sd"; "logDb_sd";
   "logr_sd"; "sigma_man"; "sigma_amhg"].
Definition MONTHS_LIST : list string := ["monthly_q"].
Definition DAYS_LIST : list string := ["grdc_q"; "usgs_q"].
Definition PROB_LIST : list string := ["flow_duration_q"].

(** [x in l] on a list of strings *)
Definition elem (x : string) (l : list string) : bool := existsb (String.eqb x) l.

(** The dictionary of one prior, as [json.load] returns it: a key that is
    absent is [None]. *)
Record PriorData : Type := {
  run_type : option string;
  reach_ids : option (list Z);
  node_ids : option (list Z);
  indexes : option (list Z);
  values : option ndarray;
  data_type : option string;
  value_t : option ndarray
}.

Record t : Type := {
  author : string;
  email : string;
  priors_dict : option (list (string * list (string * PriorData)));
  sos_file : string;
  output_dir : string
}.

(** [PriorStore(author, email, sos_file, output_dir)] *)
Definition init (author email sos_file output_dir : string) : t :=
  {| author := author; email := email; priors_dict := None;
     sos_file := sos_file; output_dir := output_dir |}.

(** [load_priors], on the content of the JSON file. *)
Definition load_priors (self : t) (json : list (string * list (string * PriorData))) : t :=
  {| author := author self; email := email self; priors_dict := Some json;
     sos_file := sos_file self; output_dir := output_dir self |}.

(** A group of an open file, by file path and group name. *)
Definition handle : Type := string * string.

Definition with_group (h : handle) (f : Nc.Group → M Nc.Group) : M unit :=
  ds ← read_file h.1;
  g ← lift (NotFound h.2) (Nc.assoc h.2 (Nc.groups ds));
  g' ← f g;
  write_file h.1 {| Nc.attrs := Nc.attrs ds;
                    Nc.groups := Nc.assoc_set h.2 g' (Nc.groups ds) |}.

(** [ds.name = value] on the file *)
Definition set_attr (path name value : string) : M unit :=
  ds ← read_file path;
  write_file path {| Nc.attrs := <[name:=value]> (Nc.attrs ds);
                     Nc.groups := Nc.groups ds |}.

(** [ds.createGroup(name)]: an existing group is returned as it is. *)
Definition createGroup (path name : string) : M handle :=
  ds ← read_file path;
  match Nc.assoc name (Nc.groups ds) with
  | Some _ => mret (path, name)
  | None =>
      write_file path {| Nc.attrs := Nc.attrs ds;
                         Nc.groups := Nc.groups ds ++ [(name, Nc.empty_group)] |} ;;
      mret (path, name)
  end.

(** [g.name = value] on a group *)
Definition set_gattr (h : handle) (name value : string) : M unit :=
  with_group h (λ g, mret {| Nc.gattrs := <[name:=value]> (Nc.gattrs g);
                             Nc.dims := Nc.dims g;
                             Nc.variables := Nc.variables g |}).

(** [g.createDimension(name, size)]; [None] is an unlimited size. *)
Definition createDimension (h : handle) (name : string) (size : option nat) : M unit :=
  with_group h (λ g,
    match Nc.assoc name (Nc.dims g) with
    | Some _ => raise (NameInUse name)
    | None => mret {| Nc.gattrs := Nc.gattrs g;
                      Nc.dims := Nc.dims g ++ [(name, size)];
                      Nc.variables := Nc.variables g |}
    end).

(** [g.createVariable(name, dtype, dimensions)]: the type is one of the
    model and the dimensions must exist; the new variable holds no value
    yet. *)
Definition createVariable (h : handle) (name dtype : string) (dimensions : list string)
  : M unit :=
  with_group h (λ g,
    match Nc.variables g !! name with
    | Some _ => raise (NameInUse name)
    | None =>
        match list_find (λ d, Nc.assoc d (Nc.dims g) = None) dimensions with
        | Some (_, d) => raise (NotFound d)
        | None =>
            _ ← lift Unmodelled (Nc.kind_of dtype);
            mret {| Nc.gattrs := Nc.gattrs g; Nc.dims := Nc.dims g;
                    Nc.variables :=
                      <[name := {| Nc.dtype := dtype; Nc.dimensions := dimensions;
                                   Nc.data := Vec [] |}]> (Nc.variables g) |}
        end
    end).

(** The sizes of the dimensions of a variable of the group [g]. *)
Definition shape_in (g : Nc.Group) (dimensions : list string)
  : option (list (option nat)) :=
  mapM (λ d, Nc.assoc d (Nc.dims g)) dimensions.

(** [v[:] = a] on the variable [name] for a Python list [a]: the list is
    converted to the type of the variable and made to its shape. *)
Definition assign (h : handle) (name : string) (a : ndarray) : M unit :=
  with_group h (λ g,
    v ← lift (NotFound name) (Nc.variables g !! name);
    shape ← lift Unmodelled (shape_in g (Nc.dimensions v));
    a' ← result (Nc.fill (Nc.dtype v) shape a);
    mret {| Nc.gattrs := Nc.gattrs g; Nc.dims := Nc.dims g;
            Nc.variables :=
              <[name := {| Nc.dtype := Nc.dtype v; Nc.dimensions := Nc.dimensions v;
                           Nc.data := a' |}]> (Nc.variables g) |}).

(** [if n:] on an optional count *)
Definition truthy (n : option nat) : bool :=
  match n with
  | Some (S _) => true
  | _ => false
  end.

Fixpoint for_each {A} (l : list A) (body : A → M unit) : M unit :=
  match l with
  | [] => mret ()
  | x :: l' => body x ;; for_each l' body
  end.

(** The [createDimension] calls of [create_dimensions], in order. *)
Definition dimension_calls (source : string) (num_reaches num_nodes : option nat)
  : list (string * option nat) :=
  (if truthy num_reaches then [("num_reaches", num_reaches)] else [])
  ++ (if truthy num_nodes then [("num_nodes", num_nodes)] else [])
  ++ (if (source =? "wbm") || (source =? "grades") || (source =? "grdc")
         || (source =? "usgs")
      then [("num_months", Some 12); ("probability", Some 20)] else [])
  ++ (if source =? "grdc" then [("num_days", None)] else [])
  ++ (if source =? "usgs" then [("num_days", None); ("nchars", Some 16)] else []).

Definition create_dimensions (source : string) (ds : handle)
    (num_reaches num_nodes : option nat) : M unit :=
  for_each (dimension_calls source num_reaches num_nodes)
    (λ d, createDimension ds d.1 d.2).

(** The five branches of [create_variables]. *)
Inductive Shape : Type :=
  | NodeScalar | ReachProbability | ReachMonthly | ReachDaily | ReachScalar.

(** The conditions of the [if]/[elif] chain, lines 166-209. *)
Definition category (source prior : string) : Shape :=
  if (source =? "gbnode") && elem prior NODE_LIST then NodeScalar
  else if elem prior PROB_LIST then ReachProbability
  else if elem prior MONTHS_LIST then ReachMonthly
  else if elem prior DAYS_LIST then ReachDaily
  else ReachScalar.

(** The identifier and index variables that every reach branch writes. *)
Definition reach_variables (data : PriorData) (ds : handle) : M unit :=
  createVariable ds "reach_id" "i8" ["num_reaches"] ;;
  ids ← lift (KeyError "reach_ids") (reach_ids data);
  assign ds "reach_id" (IntVec ids) ;;
  createVariable ds "indexes" "i4" ["num_reaches"] ;;
  idx ← lift (KeyError "indexes") (indexes data);
  assign ds "indexes" (IntVec idx).

(** The variable [prior_values] over the given dimensions. *)
Definition prior_values (data : PriorData) (ds : handle) (dimensions : list string)
  : M unit :=
  ty ← lift (KeyError "data_type") (data_type data);
  createVariable ds "prior_values" ty dimensions ;;
  vs ← lift (KeyError "values") (values data);
  assign ds "prior_values" vs.

Definition create_variables (source prior : string) (data : PriorData) (ds : handle)
  : M unit :=
  match category source prior with
  | NodeScalar =>
      createVariable ds "node_id" "i8" ["num_nodes"] ;;
      ids ← lift (KeyError "node_ids") (node_ids data);
      assign ds "node_id" (IntVec ids) ;;
      createVariable ds "indexes" "i4" ["num_nodes"] ;;
      idx ← lift (KeyError "indexes") (indexes data);
      assign ds "indexes" (IntVec idx) ;;
      prior_values data ds ["num_nodes"]
  | ReachProbability =>
      reach_variables data ds ;;
      prior_values data ds ["num_reaches"; "probability"]
  | ReachMonthly =>
      reach_variables data ds ;;
      prior_values data ds ["num_reaches"; "num_months"]
  | ReachDaily =>
      reach_variables data ds ;;
      prior_values data ds ["num_reaches"; "num_days"] ;;
      createVariable ds "value_t" "f8" ["num_reaches"; "num_days"] ;;
      vt ← lift (KeyError "value_t") (value_t data);
      assign ds "value_t" vt
  | ReachScalar =>
      reach_variables data ds ;;
      prior_values data ds ["num_reaches"]
  end.

(** The name of the group of one prior, line 100. *)
Definition group_name (source prior : string) : string :=
  source +:+ "_" +:+ prior.

(** Lines 100-112: the group of one prior. *)
Definition create_prior (path source prior : string) (data : PriorData) : M unit :=
  g ← createGroup path (group_name source prior);
  rt ← lift (KeyError "run_type") (run_type data);
  set_gattr g "run_type" rt ;;
  match reach_ids data with
  | Some ids => create_dimensions source g (Some (length ids)) None
  | None =>
      ids ← lift (KeyError "node_ids") (node_ids data);
      create_dimensions source g None (Some (length ids))
  end ;;
  create_variables source prior data g.

(** [create_netcdf]: [globals] is the namespace of module-level names
    the function body can see, [now] the formatted clock reading. *)
Definition create_netcdf (globals : gmap string string) (now : string) (self : t)
  : M unit :=
  author ← lift (NameError "author") (globals !! "author");
  let file_name :=
    output_dir self +:+ "/" +:+ Py.lower (Py.replace " " "_" author) +:+ "_"
      +:+ Py.first (Py.split "_" (sos_file self)) +:+ ".nc" in
  Dataset_open file_name ModeW ;;
  set_attr file_name "author" (PriorStore.author self) ;;
  set_attr file_name "contact" (email self) ;;
  set_attr file_name "sos_file" (sos_file self) ;;
  set_attr file_name "production_date" now ;;
  dict ← lift (AttributeError "keys") (priors_dict self);
  for_each dict (λ entry,
    (* line 96: an empty dictionary is skipped; it has no item to loop on *)
    for_each entry.2 (λ p, create_prior file_name entry.1 p.1 p.2)) ;;
  Dataset_close file_name.

End PriorStore.

(** ** Vocabulary of the properties *)

Module Run.

Import Eff.

(** The state a run ends in, normally or by an exception. *)
Definition world_of {A} (r : Result A) : World :=
  match r with
  | Ok _ w => w
  | Raise _ w => w
  end.

(** A computation that only looks at the state. *)
Definition reads {A} (m : M A) : Prop := ∀ w, world_of (m w) = w.

(** A computation that opens, closes and prints nothing. *)
Definition silent {A} (m : M A) : Prop := ∀ w, trace (world_of (m w)) = trace w.

(** A computation that may add events and never removes one. *)
Definition grows {A} (m : M A) : Prop :=
  ∀ w, trace w `prefix_of` trace (world_of (m w)).

(** The columns [cols] of [row] hold the values [d], in order. *)
Definition holds_row (cols : list nat) (d row : list Q) : Prop :=
  ∀ j c x, cols !! j = Some c → d !! j = Some x → row !! c = Some x.

(** The read-back in the words of the specification (P2, P3): the cell
    [(rows[i], cols[j])] of a two-axis variable for every [i] and [j]. *)
Definition read_back (a : ndarray) (rows cols : list nat) : option ndarray :=
  match a with
  | Mat m => Mat <$> mapM (λ i, row ← m !! i; mapM (row !!.) cols) rows
  | _ => None
  end.

(** The group [g] with the variable [name] replaced by [v]. *)
Definition with_variable (g : Nc.Group) (name : string) (v : Nc.NcVariable) : Nc.Group :=
  {| Nc.gattrs := Nc.gattrs g; Nc.dims := Nc.dims g;
     Nc.variables := <[name:=v]> (Nc.variables g) |}.

(** The status line in the words of the specification:
    [<SOURCE>: '<prior>' has been overwritten in the SoS (<run_type>).]
    or its [FAILURE: ] variant, [gbreach] and [gbnode] under [gbpriors]. *)
Definition status_label (source : string) : string :=
  if (String.eqb source "gbreach" || String.eqb source "gbnode")%bool
  then "gbpriors"%string else source.

Definition status_line (success : bool) (source prior run_type : string) : string :=
  ((if success then "" else "FAILURE: ")
   +:+ Py.upper (status_label source) +:+ ": '" +:+ prior +:+ "' has "
   +:+ (if success then "" else "NOT ") +:+ "been overwritten in the SoS ("
   +:+ run_type +:+ ").")%string.

End Run.

(** ** Worked inputs

    A small store with three reaches and three nodes, and exchange groups
    for it. *)

Module Example.

Import Eff.
Local Open Scope string_scope.
Local Open Scope Q_scope.

Definition var (a : ndarray) : Nc.NcVariable :=
  {| Nc.dtype := if Nc.is_int a then "i8" else "f8"; Nc.dimensions := [];
     Nc.data := a |}.

Definition group (run_type : option string) (vs : list (string * ndarray)) : Nc.Group :=
  {| Nc.gattrs := match run_type with
                  | Some r => {[ "run_type" := r ]}
                  | None => ∅
                  end;
     Nc.dims := [];
     Nc.variables := list_to_map (prod_map id var <$> vs) |}.

(** The store: reach identifiers [30, 10, 20], a scalar prior [flow], the
    daily prior [grdc_q] with its time labels [2001, 2003, 2002]. *)
Definition sos : Nc.Dataset :=
  {| Nc.attrs := ∅;
     Nc.groups :=
       [("reaches", group None [("reach_id", IntVec [30; 10; 20]%Z)]);
        ("nodes", group None [("node_id", IntVec [301; 101; 201]%Z)]);
        ("model", group None [("flow", Vec [0; 0; 0])]);
        ("model/grdc",
         group None
           [("grdc_reach_id", IntVec [30; 10; 20]%Z);
            ("grdc_q", Mat [[0; 0; 0]; [0; 0; 0]; [0; 0; 0]]);
            ("grdc_qt", Mat [[2001; 2003; 2002]; [2001; 2003; 2002];
                             [2001; 2003; 2002]])]);
        ("gbpriors/node", group None [("logn_hat", Vec [0; 0; 0])])] |}.

(** Scalar prior for reaches 20 and 30, with the right offsets. *)
Definition flow : Nc.Group :=
  group (Some "constrained")
    [("reach_id", IntVec [20; 30]%Z); ("indexes", IntVec [2; 0]%Z);
     ("prior_values", Vec [5.5; 7.7])].

(** The same prior with a wrong precomputed offset for reach 20. *)
Definition flow_wrong : Nc.Group :=
  group (Some "constrained")
    [("reach_id", IntVec [20; 30]%Z); ("indexes", IntVec [1; 0]%Z);
     ("prior_values", Vec [5.5; 7.7])].

(** Daily prior for reaches 20 and 30 on the days 2002 and 2001: the
    payload has one row per reach. *)
Definition daily : Nc.Group :=
  group (Some "constrained")
    [("reach_id", IntVec [20; 30]%Z); ("indexes", IntVec [2; 0]%Z);
     ("prior_values", Mat [[1; 2]; [3; 4]]);
     ("value_t", Mat [[2002; 2001]; [2002; 2001]])].

(** Node prior for the nodes 201 and 301. *)
Definition node : Nc.Group :=
  group (Some "constrained")
    [("node_id", IntVec [201; 301]%Z); ("indexes", IntVec [2; 0]%Z);
     ("prior_values", Vec [0.25; 0.75])].

Definition self : Overwrite.t :=
  {| Overwrite.priors_file := "priors.nc"; Overwrite.sos_file := "sos.nc" |}.

Definition sos_ds : string := "data/constrained/sos.nc".

Definition world : World :=
  {| files := {[ sos_ds := sos ]}; trace := [] |}.

(** The state after a pass over one group. *)
Definition after (key : string) (g : Nc.Group) (w : World) : World :=
  Run.world_of (Overwrite.overwrite_group self "data" key g w).

(** The values of a variable of the store in a state. *)
Definition stored (w : World) (gname vname : string) : option ndarray :=
  ds ← files w !! sos_ds;
  g ← Nc.assoc gname (Nc.groups ds);
  v ← Nc.variables g !! vname;
  Some (Nc.data v).

End Example.

(** ** Observations of a run *)

Module Obs.

Import Eff.

(** The events of one completed pass over a group: the store at [e.1] is
    opened, the line [e.2] is printed, the store is closed. *)
Definition pass_events (e : string * string) : list Event :=
  [EvOpen e.1 ModeA; EvPrint e.2; EvClose e.1].

(** The store and the line that a completed pass over the group [kg.2],
    found under the name [kg.1], may leave: the store of the group's run
    type, and the success or the failure line of its source and prior. *)
Definition reported (sos_dir sos_file : string) (kg : string * Nc.Group)
    (e : string * string) : Prop :=
  ∃ success run_type,
    Nc.gattrs kg.2 !! "run_type"%string = Some run_type
    ∧ e = (Overwrite.sos_path sos_dir run_type sos_file,
           Run.status_line success (Overwrite.parse_key kg.1).1
             (Overwrite.parse_key kg.1).2 run_type).

(** The variable [vname] of the group [gname] of the file [path]. *)
Definition lookup_var (w : World) (path gname vname : string) : option Nc.NcVariable :=
  ds ← files w !! path;
  g ← Nc.assoc gname (Nc.groups ds);
  Nc.variables g !! vname.

(** What a variable was declared with: its type and its dimensions. *)
Definition declared (v : Nc.NcVariable) : string * list string :=
  (Nc.dtype v, Nc.dimensions v).

(** Two groups under the same name with the same attributes, dimensions
    and variables, up to the values the variables hold. *)
Definition same_group (kg kg' : string * Nc.Group) : Prop :=
  kg'.1 = kg.1
  ∧ Nc.gattrs kg'.2 = Nc.gattrs kg.2
  ∧ Nc.dims kg'.2 = Nc.dims kg.2
  ∧ ∀ vname, declared <$> Nc.variables kg'.2 !! vname
             = declared <$> Nc.variables kg.2 !! vname.

(** The state [w'] has every file of [w], with the same attributes and
    the same groups in the same order, up to the values of variables; a
    file of [w'] that [w] does not have is empty. *)
Definition same_layout (w w' : World) : Prop :=
  ∀ path,
    match files w !! path, files w' !! path with
    | None, None => True
    | Some ds, Some ds' =>
        Nc.attrs ds' = Nc.attrs ds
        ∧ Forall2 same_group (Nc.groups ds) (Nc.groups ds')
    | None, Some ds' => ds' = Nc.empty_dataset
    | Some _, None => False
    end.

(** The files of [w'] that [w] does not have are at paths of [P]. *)
Definition new_files (P : string → Prop) (w w' : World) : Prop :=
  ∀ path, files w !! path = None → is_Some (files w' !! path) → P path.

(** The paths at which a run over [sos_dir] looks for the store. *)
Definition store_path (sos_dir sos_file path : string) : Prop :=
  ∃ run_type, path = Overwrite.sos_path sos_dir run_type sos_file.

(** Two states that agree on every variable but the one named. *)
Definition same_but (target : string * string * string) (w w' : World) : Prop :=
  ∀ path gname vname,
    (path, gname, vname) ≠ target →
    lookup_var w' path gname vname = lookup_var w path gname vname.

(** The identifier array of a record: its [reach_id] when it has one,
    else its [node_id]. *)
Definition record_ids (g : Nc.Group) : option ndarray :=
  match Nc.variables g !! "reach_id"%string with
  | Some v => Some (Nc.data v)
  | None => Nc.data <$> Nc.variables g !! "node_id"%string
  end.

(** The group behind a handle. *)
Definition group_at (w : World) (h : PriorStore.handle) : option Nc.Group :=
  ds ← files w !! h.1;
  Nc.assoc h.2 (Nc.groups ds).

(** The global attributes of the file at [path]. *)
Definition attrs_at (w : World) (path : string) : option (gmap string string) :=
  Nc.attrs <$> files w !! path.

(** The group [g] with the attribute [name] set to [value]. *)
Definition with_gattr (g : Nc.Group) (name value : string) : Nc.Group :=
  {| Nc.gattrs := <[name:=value]> (Nc.gattrs g); Nc.dims := Nc.dims g;
     Nc.variables := Nc.variables g |}.

(** The group [g] with the dimensions [ds] added after its own. *)
Definition with_dims (g : Nc.Group) (ds : list (string * option nat)) : Nc.Group :=
  {| Nc.gattrs := Nc.gattrs g; Nc.dims := Nc.dims g ++ ds;
     Nc.variables := Nc.variables g |}.

(** The leading dimension over which a branch of [create_variables]
    declares its variables, the name of its identifier variable, the
    identifiers it stores there, and the further dimensions of
    [prior_values]. *)
Definition lead_dimension (c : PriorStore.Shape) : string :=
  match c with
  | PriorStore.NodeScalar => "num_nodes"
  | _ => "num_reaches"
  end.

Definition id_variable (c : PriorStore.Shape) : string :=
  match c with
  | PriorStore.NodeScalar => "node_id"
  | _ => "reach_id"
  end.

Definition id_values (c : PriorStore.Shape) (data : PriorStore.PriorData)
  : option (list Z) :=
  match c with
  | PriorStore.NodeScalar => PriorStore.node_ids data
  | _ => PriorStore.reach_ids data
  end.

Definition second_dimensions (c : PriorStore.Shape) : list string :=
  match c with
  | PriorStore.ReachProbability => ["probability"%string]
  | PriorStore.ReachMonthly => ["num_months"%string]
  | PriorStore.ReachDaily => ["num_days"%string]
  | _ => []
  end.

(** The sizes of those further dimensions as [create_dimensions] makes
    them; the number of days is unlimited. *)
Definition second_sizes (c : PriorStore.Shape) : list (option nat) :=
  match c with
  | PriorStore.ReachProbability => [Some 20]
  | PriorStore.ReachMonthly => [Some 12]
  | PriorStore.ReachDaily => [None]
  | _ => []
  end.

(** Data that have the shape of a variable as they are: a list of floats
    of the length of its dimension, or rows of one length, as many as
    the leading dimension and as long as the second one when that is
    fixed. *)
Definition has_shape (shape : list (option nat)) (a : ndarray) : Prop :=
  match shape, a with
  | [Some n], Vec l => length l = n
  | [Some n; Some k], Mat m => Nc.shape2 m = Some (n, k)
  | [Some n; None], Mat m => ∃ c, Nc.shape2 m = Some (n, c)
  | _, _ => False
  end.

(** The number of columns of a list of rows. *)
Definition columns (a : ndarray) : nat :=
  match a with
  | Mat m => length (hd [] m)
  | Vec l => length l
  | IntVec l => length l
  end.

(** The group [g] with the variables that [create_variables] adds in
    the branch [c]: the identifiers, the indexes and the values as
    stored, and the time labels [vt] as stored in the daily branch. *)
Definition written_group (c : PriorStore.Shape) (ids idx : list Z) (ty : string)
    (vals : ndarray) (vt : option ndarray) (g : Nc.Group) : Nc.Group :=
  let lead := lead_dimension c in
  let base :=
    Run.with_variable
      (Run.with_variable
         (Run.with_variable g (id_variable c)
            {| Nc.dtype := "i8"; Nc.dimensions := [lead]; Nc.data := IntVec ids |})
         "indexes"
         {| Nc.dtype := "i4"; Nc.dimensions := [lead]; Nc.data := IntVec idx |})
      "prior_values"
      {| Nc.dtype := ty; Nc.dimensions := lead :: second_dimensions c;
         Nc.data := vals |} in
  match c, vt with
  | PriorStore.ReachDaily, Some t =>
      Run.with_variable base "value_t"
        {| Nc.dtype := "f8"; Nc.dimensions := ["num_reaches"; "num_days"]%string;
           Nc.data := t |}
  | _, _ => base
  end.

(** The two counts that [create_netcdf] passes to [create_dimensions],
    lines 106-109: [None] when the dictionary has neither list. *)
Definition leading_counts (data : PriorStore.PriorData)
  : option (option nat * option nat) :=
  match PriorStore.reach_ids data with
  | Some ids => Some (Some (length ids), None)
  | None =>
      match PriorStore.node_ids data with
      | Some ids => Some (None, Some (length ids))
      | None => None
      end
  end.

(** The dictionary entries that [create_prior] can write into a group of
    its own: every key it reads is there; the identifier list of the
    branch is not empty, and in the node branch no reach list is given;
    the second dimension of the branch is one that [create_dimensions]
    creates for the source. *)
Definition accepted (source prior : string) (data : PriorStore.PriorData) : Prop :=
  let c := PriorStore.category source prior in
  is_Some (PriorStore.run_type data)
  ∧ is_Some (PriorStore.indexes data)
  ∧ is_Some (PriorStore.data_type data)
  ∧ is_Some (PriorStore.values data)
  ∧ (∃ ids, id_values c data = Some ids ∧ ids ≠ [])
  ∧ (c = PriorStore.NodeScalar → PriorStore.reach_ids data = None)
  ∧ (c = PriorStore.ReachProbability ∨ c = PriorStore.ReachMonthly →
     source ∈ ["wbm"; "grades"; "grdc"; "usgs"]%string)
  ∧ (c = PriorStore.ReachDaily →
     source ∈ ["grdc"; "usgs"]%string ∧ is_Some (PriorStore.value_t data)).

(** The global attributes of the file [path] are the same in both states. *)
Definition same_attrs (path : string) (w w' : World) : Prop :=
  attrs_at w' path = attrs_at w path.

(** The path of the file that [create_netcdf] writes, line 86, for the
    value [a] of the name [author]. *)
Definition exchange_path (a : string) (self : PriorStore.t) : string :=
  PriorStore.output_dir self +:+ "/" +:+ Py.lower (Py.replace " " "_" a) +:+ "_"
    +:+ Py.first (Py.split "_" (PriorStore.sos_file self)) +:+ ".nc".

(** A computation that relates the state it starts from to the state it
    ends in, whether it returns or raises. *)
Definition keeps {A} (R : World → World → Prop) (m : M A) : Prop :=
  ∀ w, R w (Run.world_of (m w)).

End Obs.

(** ** More worked inputs *)

Module Worked.

Import Eff.
Local Open Scope string_scope.
Local Open Scope Q_scope.

(** An exchange file with two groups for the store of [Example]: a
    scalar prior with a wrong precomputed offset, then a node prior. *)
Definition exchange : Nc.Dataset :=
  {| Nc.attrs := {[ "sos_file" := "sos.nc" ]};
     Nc.groups := [("wbm_flow", Example.flow_wrong);
                   ("gbnode_logn_hat", Example.node)] |}.

Definition world : World :=
  {| files := {[ "priors.nc" := exchange; Example.sos_ds := Example.sos ]};
     trace := [] |}.

(** An exchange file whose second group names a run type that has no
    store under the directory: the store is created empty when the pass
    opens it, and the pass raises on its first read. *)
Definition exchange_lost : Nc.Dataset :=
  {| Nc.attrs := {[ "sos_file" := "sos.nc" ]};
     Nc.groups :=
       [("wbm_flow", Example.flow);
        ("grdc_grdc_q",
         Example.group (Some "unconstrained")
           [("reach_id", IntVec [20; 30]%Z); ("indexes", IntVec [2; 0]%Z);
            ("prior_values", Mat [[1; 2]; [3; 4]]);
            ("value_t", Mat [[2002; 2001]; [2002; 2001]])]);
        ("gbnode_logn_hat", Example.node)] |}.

Definition world_lost : World :=
  {| files := {[ "priors.nc" := exchange_lost; Example.sos_ds := Example.sos ]};
     trace := [] |}.

(** A dictionary entry for a scalar prior of the reaches 20 and 30, one
    for a daily prior of the same reaches, and one without identifiers. *)
Definition scalar_data : PriorStore.PriorData :=
  {| PriorStore.run_type := Some "constrained";
     PriorStore.reach_ids := Some [20; 30]%Z;
     PriorStore.node_ids := None;
     PriorStore.indexes := Some [2; 0]%Z;
     PriorStore.values := Some (Vec [5.5; 7.7]);
     PriorStore.data_type := Some "f8";
     PriorStore.value_t := None |}.

Definition daily_data : PriorStore.PriorData :=
  {| PriorStore.run_type := Some "constrained";
     PriorStore.reach_ids := Some [20; 30]%Z;
     PriorStore.node_ids := None;
     PriorStore.indexes := Some [2; 0]%Z;
     PriorStore.values := Some (Mat [[1; 2]; [3; 4]]);
     PriorStore.data_type := Some "f8";
     PriorStore.value_t := Some (Mat [[2002; 2001]; [2002; 2001]]) |}.

Definition empty_data : PriorStore.PriorData :=
  {| PriorStore.run_type := Some "constrained";
     PriorStore.reach_ids := Some [];
     PriorStore.node_ids := None;
     PriorStore.indexes := Some [];
     PriorStore.values := Some (Vec []);
     PriorStore.data_type := Some "f8";
     PriorStore.value_t := None |}.

(** A state with one new, empty exchange file. *)
Definition blank : World :=
  {| files := {[ "out/ann_na.nc" := Nc.empty_dataset ]}; trace := [] |}.

(** The state after one prior has been written to that file. *)
Definition wrote (source prior : string) (data : PriorStore.PriorData) (w : World)
  : World :=
  Run.world_of (PriorStore.create_prior "out/ann_na.nc" source prior data w).

(** A store with one scalar prior and one daily prior loaded. *)
Definition ann : PriorStore.t :=
  PriorStore.load_priors
    (PriorStore.init "Ann Lee" "ann@example.org" "na_sos.nc" "out")
    [("wbm", [("flow", scalar_data)]); ("grdc", [("grdc_q", daily_data)])].

(** The state a run of [overwrite] over the directory [data] ends in. *)
Definition final (w : World) : World :=
  Run.world_of (Overwrite.overwrite Example.self "data" w).

End Worked.

(** * Properties *)

(** ** Offset resolution *)

Section OffsetResolution.

Import Np.

#[local] Instance key_le_total a : Total (key_le a).
Proof. intros i j. unfold key_le. lia. Qed.

#[local] Instance key_le_trans a : Transitive (key_le a).
Proof. intros i j k. unfold key_le. lia. Qed.

Lemma argsort_perm a : argsort a ≡ₚ seq 0 (length a).
Proof. apply merge_sort_Permutation. Qed.

Lemma argsort_length a : length (argsort a) = length a.
Proof. by rewrite argsort_perm, length_seq. Qed.

Lemma argsort_lt a p o : argsort a !! p = Some o → o < length a.
Proof.
  intros H. apply list_elem_of_lookup_2 in H.
  rewrite argsort_perm in H. apply elem_of_seq in H. lia.
Qed.

Lemma argsort_surj a j : j < length a → ∃ q, argsort a !! q = Some j.
Proof.
  intros H. apply list_elem_of_lookup_1.
  rewrite argsort_perm. apply elem_of_seq. lia.
Qed.

Lemma argsort_sorted a : StronglySorted (key_le a) (argsort a).
Proof. apply (StronglySorted_merge_sort _). Qed.

Lemma StronglySorted_lookup_le {A} (R : relation A) l p q x y :
  StronglySorted R l → p < q → l !! p = Some x → l !! q = Some y → R x y.
Proof.
  intros Hs. revert p q. induction Hs as [|z l Hs IH Hall]; intros p q Hpq Hp Hq.
  - done.
  - destruct q as [|q]; [lia|]. destruct p as [|p]; simpl in *.
    + simplify_eq. rewrite Forall_forall in Hall. apply Hall.
      by eapply list_elem_of_lookup_2.
    + eapply IH; [|done..]. lia.
Qed.

(** The keys read through the sorter are in non-decreasing order. *)
Lemma sorted_key_mono a p q :
  p ≤ q → q < length a →
  (sorted_key a (argsort a) p ≤ sorted_key a (argsort a) q)%Z.
Proof.
  intros Hpq Hq. destruct (decide (p = q)) as [->|Hne]; [lia|].
  unfold sorted_key.
  destruct (lookup_lt_is_Some_2 (argsort a) p) as [x Hx];
    [rewrite argsort_length; lia|].
  destruct (lookup_lt_is_Some_2 (argsort a) q) as [y Hy];
    [rewrite argsort_length; lia|].
  rewrite Hx, Hy. simpl.
  assert (key_le a x y) as Hle.
  { eapply StronglySorted_lookup_le; [apply argsort_sorted| |done..]. lia. }
  unfold key_le in Hle. lia.
Qed.

(** The bisection returns the leftmost insertion point of [v] in a
    non-decreasing key sequence, whenever the fuel covers the interval. *)
Lemma bisect_left_spec (kf : nat → Z) (v : Z) (m : nat) :
  (∀ p q, p ≤ q → q < m → (kf p ≤ kf q)%Z) →
  ∀ fuel lo hi,
    lo ≤ hi → hi ≤ m → hi - lo ≤ fuel →
    (∀ p, p < lo → (kf p < v)%Z) →
    (∀ p, hi ≤ p → p < m → (v ≤ kf p)%Z) →
    let r := bisect_left kf v fuel lo hi in
    r ≤ m ∧ (∀ p, p < r → (kf p < v)%Z) ∧ (∀ p, r ≤ p → p < m → (v ≤ kf p)%Z).
Proof.
  intros Hmono fuel.
  induction fuel as [|fuel IH]; intros lo hi Hlh Hhm Hfuel Hlo Hhi;
    cbn [bisect_left].
  - assert (lo = hi) as -> by lia. eauto.
  - destruct (Nat.ltb_spec lo hi) as [Hlt|Hge].
    + assert ((hi - lo) / 2 < hi - lo) as Hmid
        by (apply Nat.Div0.div_lt_upper_bound; lia).
      cbv zeta. set (mid := lo + (hi - lo) / 2) in *.
      destruct (Z.ltb_spec (kf mid) v) as [Hk|Hk].
      * apply IH; try lia; [|done].
        intros p Hp. specialize (Hmono p mid). lia.
      * apply IH; try lia; [done|].
        intros p Hp Hpm. specialize (Hmono mid p). lia.
    + assert (lo = hi) as -> by lia. eauto.
Qed.

(** One key that occurs in [a] is found: the position returned by the
    search is in range and the sorter sends it to an occurrence. *)
Lemma searchsorted_hit (a : list Z) (v : Z) :
  v ∈ a →
  let r := bisect_left (sorted_key a (argsort a)) v (length a) 0 (length a) in
  ∃ o, argsort a !! r = Some o ∧ a !! o = Some v.
Proof.
  intros Hin r.
  destruct (bisect_left_spec (sorted_key a (argsort a)) v (length a)
              (sorted_key_mono a) (length a) 0 (length a))
    as (Hrm & Hbelow & Habove); try lia.
  fold r in Hrm, Hbelow, Habove.
  apply list_elem_of_lookup_1 in Hin as [j Hj].
  pose proof (lookup_lt_Some _ _ _ Hj) as Hjlt.
  destruct (argsort_surj a j Hjlt) as [q Hq].
  pose proof (lookup_lt_Some _ _ _ Hq) as Hqlt. rewrite argsort_length in Hqlt.
  assert (sorted_key a (argsort a) q = v) as Hkq.
  { unfold sorted_key, key_at. by rewrite Hq; simpl; rewrite Hj. }
  assert (r ≤ q) as Hrq.
  { destruct (decide (r ≤ q)); [done|]. specialize (Hbelow q). lia. }
  destruct (lookup_lt_is_Some_2 (argsort a) r) as [o Ho];
    [rewrite argsort_length; lia|].
  exists o. split; [done|].
  pose proof (argsort_lt _ _ _ Ho) as Holt.
  destruct (lookup_lt_is_Some_2 a o Holt) as [w Hw].
  assert (sorted_key a (argsort a) r = w) as Hkr.
  { unfold sorted_key, key_at. by rewrite Ho; simpl; rewrite Hw. }
  pose proof (Habove r (Nat.le_refl _) ltac:(lia)) as H1.
  pose proof (sorted_key_mono a r q Hrq Hqlt) as H2.
  rewrite Hw. f_equal. lia.
Qed.

Lemma resolve_offsets_hits (store_ids source_ids : list Z) :
  (∀ x, x ∈ source_ids → x ∈ store_ids) →
  ∃ offsets, resolve_offsets store_ids source_ids = Some offsets
    ∧ Forall2 (λ v o, store_ids !! o = Some v) source_ids offsets.
Proof.
  unfold resolve_offsets, take, searchsorted.
  induction source_ids as [|v vs IH]; intros Hin.
  - exists []. split; [done|constructor].
  - destruct IH as (offs & Hoffs & Hall); [intros x Hx; apply Hin; by right|].
    destruct (searchsorted_hit store_ids v) as (o & Ho & Hv); [apply Hin; by left|].
    exists (o :: offs). split; [|by constructor].
    simpl. rewrite Ho. simpl. by rewrite Hoffs.
Qed.

End OffsetResolution.

(** ** Reasoning about runs *)

Section Runs.

Import Eff Run.

Lemma bind_Ok {A B} (m : M A) (f : A → M B) w b w' :
  (m ≫= f) w = Ok b w' ↔ ∃ a w1, m w = Ok a w1 ∧ f a w1 = Ok b w'.
Proof.
  unfold mbind, M_bind. destruct (m w) as [a w1|e w1]; split.
  - eauto.
  - by intros (a' & w2 & [= -> ->] & ?).
  - done.
  - by intros (a' & w2 & ? & ?).
Qed.

Lemma mret_Ok {A} (a b : A) w w' : mret (M := M) a w = Ok b w' ↔ a = b ∧ w = w'.
Proof. unfold mret, M_ret. split; [by intros [= -> ->]|by intros [-> ->]]. Qed.

Lemma lift_Ok {A} e (o : option A) w a w' :
  lift e o w = Ok a w' ↔ o = Some a ∧ w = w'.
Proof.
  destruct o as [x|]; simpl.
  - rewrite mret_Ok. split; [by intros [-> ->]|by intros [[= ->] ->]].
  - unfold raise. split; [done|by intros [? _]].
Qed.

Lemma reads_Ok {A} (m : M A) w a w' : reads m → m w = Ok a w' → w' = w.
Proof. intros Hm H. specialize (Hm w). by rewrite H in Hm. Qed.

Lemma reads_mret {A} (a : A) : reads (mret a).
Proof. done. Qed.

Lemma reads_raise {A} e : reads (raise (A := A) e).
Proof. done. Qed.

Lemma reads_lift {A} e (o : option A) : reads (lift e o).
Proof. by destruct o. Qed.

Lemma reads_bind {A B} (m : M A) (f : A → M B) :
  reads m → (∀ a, reads (f a)) → reads (m ≫= f).
Proof.
  intros Hm Hf w. unfold mbind, M_bind. specialize (Hm w).
  destruct (m w) as [a w1|e w1]; simpl in *; subst; [apply Hf|done].
Qed.

Lemma reads_read_file path : reads (read_file path).
Proof. intros w. unfold read_file. by destruct (files w !! path). Qed.

Lemma reads_ints a : reads (ints a).
Proof. by destruct a. Qed.

Lemma silent_bind {A B} (m : M A) (f : A → M B) :
  silent m → (∀ a, silent (f a)) → silent (m ≫= f).
Proof.
  intros Hm Hf w. unfold mbind, M_bind. specialize (Hm w).
  destruct (m w) as [a w1|e w1]; simpl in *; [|done].
  by rewrite Hf.
Qed.

Lemma reads_silent {A} (m : M A) : reads m → silent m.
Proof. intros Hm w. by rewrite Hm. Qed.

Lemma silent_write_file path ds : silent (write_file path ds).
Proof. done. Qed.

Lemma grows_bind {A B} (m : M A) (f : A → M B) :
  grows m → (∀ a, grows (f a)) → grows (m ≫= f).
Proof.
  intros Hm Hf w. unfold mbind, M_bind. specialize (Hm w).
  destruct (m w) as [a w1|e w1]; simpl in *; [|done].
  etrans; [done|apply Hf].
Qed.

Lemma silent_grows {A} (m : M A) : silent m → grows m.
Proof. intros Hm w. by rewrite Hm. Qed.

Lemma grows_emit ev : grows (emit ev).
Proof. intros w. simpl. by apply prefix_app_r. Qed.

End Runs.

Import Run.

Create HintDb runs.
#[local] Hint Resolve reads_mret reads_raise reads_lift reads_read_file reads_ints : runs.
#[local] Hint Resolve silent_write_file grows_emit : runs.

(** Solves [reads], [silent] and [grows] goals of computations built from
    the primitives, going through each bind. *)
Ltac run_solver :=
  repeat first
    [ progress intros
    | apply reads_bind | apply silent_bind | apply grows_bind
    | solve [eauto with runs]
    | match goal with
      | |- reads (match ?x with _ => _ end) => destruct x
      | |- silent (match ?x with _ => _ end) => destruct x
      | |- grows (match ?x with _ => _ end) => destruct x
      | |- reads (if ?x then _ else _) => destruct x
      | |- silent (if ?x then _ else _) => destruct x
      | |- grows (if ?x then _ else _) => destruct x
      | |- silent _ => apply reads_silent
      | |- grows _ => apply silent_grows
      end ].

Section RunsOverwrite.

Import Eff Run Overwrite.

Lemma reads_group_var g name : reads (group_var g name).
Proof. unfold group_var. run_solver. Qed.

Lemma reads_file_group path gname : reads (file_group path gname).
Proof. unfold file_group. run_solver. Qed.

Lemma reads_file_var path gname vname : reads (file_var path gname vname).
Proof.
  unfold file_var. apply reads_bind; [apply reads_file_group|].
  intros; apply reads_group_var.
Qed.

Lemma reads_retrieve_ids source g sos_ds : reads (retrieve_ids source g sos_ds).
Proof.
  unfold retrieve_ids.
  repeat case_match;
    (apply reads_bind; [apply reads_group_var|]; intros;
     apply reads_bind; [apply reads_file_var|]; intros; apply reads_mret).
Qed.

Lemma reads_test_ids source g sos_ds : reads (test_ids source g sos_ds).
Proof.
  unfold test_ids. case_match; [apply reads_retrieve_ids|].
  apply reads_bind; [apply reads_group_var|]; intros.
  apply reads_bind; [apply reads_file_var|]; intros. apply reads_mret.
Qed.

Lemma reads_offsets ids keys : reads (offsets ids keys).
Proof. apply reads_lift. Qed.

Lemma silent_file_var_store path gname vname a :
  silent (file_var_store path gname vname a).
Proof. unfold file_var_store. run_solver. Qed.

Lemma reads_file_variable path gname vname : reads (file_variable path gname vname).
Proof.
  unfold file_variable. apply reads_bind; [apply reads_file_group|].
  intros; apply reads_lift.
Qed.

Lemma reads_result {A} (r : Nc.Res A) : reads (result r).
Proof. destruct r; [apply reads_mret|apply reads_raise]. Qed.

#[local] Hint Resolve reads_group_var reads_file_var reads_offsets
  silent_file_var_store reads_file_variable reads_result : runs.

Lemma silent_put path gname vname p : silent (put path gname vname p).
Proof. unfold put. destruct p; run_solver. Qed.

#[local] Hint Resolve silent_put : runs.

Lemma silent_create_missing path : silent (create_missing path).
Proof. intros w. unfold create_missing. by destruct (files w !! path). Qed.

#[local] Hint Resolve silent_create_missing : runs.

Lemma silent_write_and_check g sos_ds group prior prior_indexes data test_indexes :
  silent (write_and_check g sos_ds group prior prior_indexes data test_indexes).
Proof. unfold write_and_check. run_solver. Qed.

(** Opening for appending never raises: it leaves the files as they are,
    or adds the file, empty. *)
Lemma Dataset_open_A_Ok path w :
  Dataset_open path ModeA w
  = Ok () {| files := match files w !! path with
                      | Some _ => files w
                      | None => <[path:=Nc.empty_dataset]> (files w)
                      end;
             trace := trace w ++ [EvOpen path ModeA] |}.
Proof.
  unfold Dataset_open, create_missing, mbind, M_bind, write_file, emit.
  by destruct (files w !! path).
Qed.

(** No variable can be read from a file that was just created. *)
Lemma file_group_created path gname w tr a w' :
  files w !! path = None →
  file_group path gname
    {| files := <[path:=Nc.empty_dataset]> (files w); trace := tr |} = Ok a w' →
  False.
Proof.
  intros Hnone. unfold file_group, read_file, mbind, M_bind. cbn [files].
  by rewrite lookup_insert_eq.
Qed.

Lemma put_Ok path gname vname p u w w' :
  put path gname vname p w = Ok u w' ↔
  ∃ a, p = Nc.Done a ∧ file_var_store path gname vname a w = Ok u w'.
Proof.
  destruct p as [a|f a|f]; simpl; split.
  - intros H. by exists a.
  - by intros (a' & [= <-] & H).
  - intros H. apply bind_Ok in H as (? & ? & _ & H). done.
  - by intros (a' & ? & _).
  - done.
  - by intros (a' & ? & _).
Qed.

Lemma report_status_line success source prior run_type :
  report success source prior run_type
  = print (status_line success source prior run_type).
Proof. by destruct success. Qed.

Lemma ints_Ok a l w w' : ints a w = Ok l w' ↔ a = IntVec l ∧ w = w'.
Proof.
  destruct a; simpl; unfold raise; rewrite ?mret_Ok;
    split; try done; try (by intros [? _]).
  - by intros [-> ->].
  - by intros [[= ->] ->].
Qed.

Lemma assoc_assoc_set {A} k (v : A) l : Nc.assoc k (Nc.assoc_set k v l) = Some v.
Proof.
  induction l as [|[k' v'] l IH]; simpl.
  - by rewrite String.eqb_refl.
  - destruct (String.eqb_spec k' k) as [->|Hne]; simpl.
    + by rewrite String.eqb_refl.
    + by destruct (String.eqb_spec k' k).
Qed.

(** A read that follows a store of the same variable returns the array
    that was stored. *)
Lemma file_var_store_read path gname vname a u w w' :
  file_var_store path gname vname a w = Ok u w' →
  file_var path gname vname w' = Ok a w'.
Proof.
  unfold file_var_store. intros H.
  apply bind_Ok in H as (ds & w0 & Hds & H).
  pose proof (reads_Ok _ _ _ _ (reads_read_file _) Hds) as ->.
  apply bind_Ok in H as (g & w0 & Hg & H). apply lift_Ok in Hg as [Hg <-].
  apply bind_Ok in H as (v & w0 & Hv & H). apply lift_Ok in Hv as [Hv <-].
  unfold write_file in H. injection H as _ <-.
  unfold file_var, file_group, group_var, read_file, mbind, M_bind. simpl.
  rewrite lookup_insert_eq. simpl. rewrite assoc_assoc_set. simpl.
  by rewrite lookup_insert_eq.
Qed.

(** What the write and its check did: [stored] is the array the variable
    holds in the end, which is the array the assignment produced. *)
Lemma write_and_check_Ok g sos_ds group prior prior_indexes data test_indexes
    w success w2 :
  write_and_check g sos_ds group prior prior_indexes data test_indexes w
    = Ok success w2 →
  ∃ var stored,
    file_variable sos_ds group prior w = Ok var w
    ∧ file_var sos_ds group prior w2 = Ok stored w2
    ∧ if has_var g "value_t" then
        ∃ value_t sos_tv prior_t sos_t index_t data0 back,
          group_var g "value_t" w = Ok value_t w
          ∧ NpArr.first_row_int value_t = Some prior_t
          ∧ file_var sos_ds group (prior +:+ "t") w = Ok sos_tv w
          ∧ NpArr.first_row_int sos_tv = Some sos_t
          ∧ Np.resolve_offsets sos_t prior_t = Some index_t
          ∧ NpArr.first_row data = Some data0
          ∧ Nc.setitem2 var prior_indexes index_t data0 = Nc.Done stored
          ∧ NpArr.getitem_pairs stored test_indexes index_t = Some back
          ∧ NpArr.allclose1 data0 back = Some success
      else
        ∃ back,
          Nc.setitem var prior_indexes data = Nc.Done stored
          ∧ Nc.getitem stored test_indexes = Some back
          ∧ NpArr.allclose data back = Some success.
Proof.
  unfold write_and_check. intros H.
  destruct (has_var g "value_t").
  - apply bind_Ok in H as (value_t & w0 & Hvt & H).
    pose proof (reads_Ok _ _ _ _ (reads_group_var _ _) Hvt) as ->.
    apply bind_Ok in H as (prior_t & w0 & Hpt & H). apply lift_Ok in Hpt as [Hpt <-].
    apply bind_Ok in H as (sos_tv & w0 & Hstv & H).
    pose proof (reads_Ok _ _ _ _ (reads_file_var _ _ _) Hstv) as ->.
    apply bind_Ok in H as (sos_t & w0 & Hst & H). apply lift_Ok in Hst as [Hst <-].
    apply bind_Ok in H as (index_t & w0 & Hit & H). apply lift_Ok in Hit as [Hit <-].
    apply bind_Ok in H as (data0 & w0 & Hd0 & H). apply lift_Ok in Hd0 as [Hd0 <-].
    apply bind_Ok in H as (var & w0 & Hvar & H).
    pose proof (reads_Ok _ _ _ _ (reads_file_variable _ _ _) Hvar) as ->.
    apply bind_Ok in H as (u & w1 & Hput & H).
    apply put_Ok in Hput as (var' & Hset & Hstore).
    apply bind_Ok in H as (stored & w0 & Hread & H).
    pose proof (reads_Ok _ _ _ _ (reads_file_var _ _ _) Hread) as ->.
    apply bind_Ok in H as (back & w0 & Hback & H). apply lift_Ok in Hback as [Hback <-].
    apply lift_Ok in H as [Hclose <-].
    pose proof (file_var_store_read _ _ _ _ _ _ _ Hstore) as Hsame.
    rewrite Hread in Hsame. injection Hsame as ->.
    exists var, var'. repeat split; try done.
    exists value_t, sos_tv, prior_t, sos_t, index_t, data0, back. done.
  - apply bind_Ok in H as (var & w0 & Hvar & H).
    pose proof (reads_Ok _ _ _ _ (reads_file_variable _ _ _) Hvar) as ->.
    apply bind_Ok in H as (u & w1 & Hput & H).
    apply put_Ok in Hput as (var' & Hset & Hstore).
    apply bind_Ok in H as (stored & w0 & Hread & H).
    pose proof (reads_Ok _ _ _ _ (reads_file_var _ _ _) Hread) as ->.
    apply bind_Ok in H as (back & w0 & Hback & H). apply lift_Ok in Hback as [Hback <-].
    apply lift_Ok in H as [Hclose <-].
    pose proof (file_var_store_read _ _ _ _ _ _ _ Hstore) as Hsame.
    rewrite Hread in Hsame. injection Hsame as ->.
    exists var, var'. repeat split; try done.
    exists back. done.
Qed.

(** Every branch of the identifier lookup reads the store. *)
Lemma test_ids_created source g path w tr r w' :
  files w !! path = None →
  test_ids source g path
    {| files := <[path:=Nc.empty_dataset]> (files w); trace := tr |} = Ok r w' →
  False.
Proof.
  intros Hnone H.
  assert (∀ gname vname a w1 w2,
            w1 = {| files := <[path:=Nc.empty_dataset]> (files w); trace := tr |} →
            file_var path gname vname w1 = Ok a w2 → False) as Hno.
  { intros gname vname a w1 w2 -> Hv. unfold file_var in Hv.
    apply bind_Ok in Hv as (g' & w0 & Hg' & _).
    by eapply file_group_created. }
  unfold test_ids, retrieve_ids in H.
  repeat case_match;
    apply bind_Ok in H as (pa & w1 & Hpa & H);
    pose proof (reads_Ok _ _ _ _ (reads_group_var _ _) Hpa) as ->;
    apply bind_Ok in H as (sa & w2 & Hsa & _);
    by eapply Hno.
Qed.

(** A pass that gets past the identifier lookup found its store. *)
Lemma test_ids_opened source g path w tr r w' :
  test_ids source g path
    {| files := match files w !! path with
                | Some _ => files w
                | None => <[path:=Nc.empty_dataset]> (files w)
                end;
       trace := tr |} = Ok r w' →
  is_Some (files w !! path).
Proof.
  destruct (files w !! path) eqn:Hf; [by eexists|].
  intros H. exfalso. by eapply test_ids_created.
Qed.

(** What a completed pass over one group did, step by step. *)
Lemma overwrite_group_Ok self sos_dir key g w success w' :
  overwrite_group self sos_dir key g w = Ok success w' →
  ∃ run_type prior_indexes data prior_ids sos_ids test_indexes w2,
    let source := (parse_key key).1 in
    let prior := (parse_key key).2 in
    let sos_ds := sos_path sos_dir run_type (sos_file self) in
    let w1 := {| files := files w; trace := trace w ++ [EvOpen sos_ds ModeA] |} in
    Nc.gattrs g !! "run_type"%string = Some run_type
    ∧ group_var g "indexes" w = Ok (IntVec prior_indexes) w
    ∧ group_var g "prior_values" w = Ok data w
    ∧ is_Some (files w !! sos_ds)
    ∧ test_ids source g sos_ds w1 = Ok (IntVec prior_ids, IntVec sos_ids) w1
    ∧ Np.resolve_offsets sos_ids prior_ids = Some test_indexes
    ∧ write_and_check g sos_ds (determine_group source) prior
        prior_indexes data test_indexes w1 = Ok success w2
    ∧ w' = {| files := files w2;
              trace := trace w ++ [EvOpen sos_ds ModeA;
                                   EvPrint (status_line success source prior run_type);
                                   EvClose sos_ds] |}.
Proof.
  unfold overwrite_group. intros H.
  apply bind_Ok in H as (run_type & w0 & Hrt & H).
  apply lift_Ok in Hrt as [Hrt <-].
  apply bind_Ok in H as (prior_indexes & w0 & Hpi & H).
  apply bind_Ok in Hpi as (pa & w0' & Hpa & Hpi).
  pose proof (reads_Ok _ _ _ _ (reads_group_var _ _) Hpa) as ->.
  apply ints_Ok in Hpi as [-> <-].
  apply bind_Ok in H as (data & w0 & Hdata & H).
  pose proof (reads_Ok _ _ _ _ (reads_group_var _ _) Hdata) as ->.
  apply bind_Ok in H as (u & w1 & Hopen & H).
  rewrite Dataset_open_A_Ok in Hopen. injection Hopen as _ <-.
  apply bind_Ok in H as ([pa sa] & w0 & Hids & H).
  pose proof (reads_Ok _ _ _ _ (reads_test_ids _ _ _) Hids) as ->.
  pose proof (test_ids_opened _ _ _ _ _ _ _ Hids) as Hfile.
  destruct Hfile as [ds0 Hds0]. rewrite Hds0 in Hids, H.
  assert (is_Some (files w !! sos_path sos_dir run_type (sos_file self))) as Hfile
    by by eexists.
  apply bind_Ok in H as (sos_ids & w0 & Hs & H). apply ints_Ok in Hs as [-> <-].
  apply bind_Ok in H as (prior_ids & w0 & Hp & H). apply ints_Ok in Hp as [-> <-].
  apply bind_Ok in H as (test_indexes & w0 & Ho & H).
  apply lift_Ok in Ho as [Ho <-].
  apply bind_Ok in H as (ok & w2 & Hwc & H).
  apply bind_Ok in H as (u1 & w3 & Hrep & H).
  apply bind_Ok in H as (u2 & w4 & Hclose & H).
  apply mret_Ok in H as [-> ->].
  rewrite report_status_line in Hrep.
  unfold print, emit in Hrep. injection Hrep as _ <-.
  unfold Dataset_close, emit in Hclose. injection Hclose as _ <-.
  match type of Hwc with ?m ?w1 = _ =>
    pose proof (silent_write_and_check _ _ _ _ _ _ _ w1 : trace (world_of (m w1)) = _)
      as Hsil
  end.
  rewrite Hwc in Hsil. simpl in Hsil.
  exists run_type, prior_indexes, data, prior_ids, sos_ids, test_indexes, w2.
  repeat split; try done.
  simpl. rewrite Hsil. by rewrite <- !app_assoc.
Qed.


Lemma grows_Dataset_open path mode : grows (Dataset_open path mode).
Proof. unfold Dataset_open. destruct mode; run_solver. Qed.

Lemma grows_report success source prior run_type :
  grows (report success source prior run_type).
Proof. rewrite report_status_line. apply grows_emit. Qed.

Lemma grows_overwrite_group self sos_dir key g :
  grows (overwrite_group self sos_dir key g).
Proof.
  unfold overwrite_group.
  apply grows_bind; [run_solver|]; intros run_type.
  apply grows_bind; [run_solver|]; intros prior_indexes.
  apply grows_bind; [run_solver|]; intros data.
  apply grows_bind; [apply grows_Dataset_open|]; intros _.
  apply grows_bind; [apply silent_grows, reads_silent, reads_test_ids|].
  intros [prior_ids sos_ids].
  apply grows_bind; [run_solver|]; intros sos_ids'.
  apply grows_bind; [run_solver|]; intros prior_ids'.
  apply grows_bind; [run_solver|]; intros test_indexes.
  apply grows_bind; [apply silent_grows, silent_write_and_check|]; intros success.
  apply grows_bind; [apply grows_report|]; intros _.
  apply grows_bind; [apply grows_emit|]; intros _.
  run_solver.
Qed.

Lemma grows_for_groups body l :
  (∀ key g, grows (body key g)) → grows (for_groups body l).
Proof.
  intros Hbody. induction l as [|[key g] l IH]; simpl.
  - run_solver.
  - apply grows_bind; [apply Hbody|]. intros _. apply IH.
Qed.

(** The loop over a list of groups is the loop over its first part
    followed, when that part completes, by the loop over the rest. *)
Lemma for_groups_app body l1 l2 w w1 :
  for_groups body l1 w = Ok () w1 →
  for_groups body (l1 ++ l2) w = for_groups body l2 w1.
Proof.
  revert w. induction l1 as [|[key g] l1 IH]; simpl; intros w H.
  - apply mret_Ok in H as [_ ->]. done.
  - apply bind_Ok in H as (b & w0 & Hb & H).
    unfold mbind, M_bind in *. rewrite Hb. by apply IH.
Qed.



End RunsOverwrite.

(** ** Group names *)

Section GroupNames.

Import Py.
Local Open Scope string_scope.

Lemma split_nonempty sep s : split sep s ≠ [].
Proof. destruct s as [|c s]; simpl; [done|]. by repeat case_match. Qed.

(** A prefix without the separator is the first field. *)
Lemma split_app sep s p :
  contains sep s = false →
  split sep (s +:+ String sep p) = s :: split sep p.
Proof.
  induction s as [|c s IH]; simpl; intros H.
  - by rewrite Ascii.eqb_refl.
  - apply orb_false_iff in H as [Hc Hs]. rewrite Hc, (IH Hs). done.
Qed.

Lemma join_split sep s : join (String sep "") (split sep s) = s.
Proof.
  induction s as [|c s IH]; simpl; [done|].
  destruct (Ascii.eqb_spec c sep) as [->|Hne].
  - pose proof (split_nonempty sep s).
    destruct (split sep s) as [|w ws] eqn:E; [done|].
    change (join (String sep "") ("" :: w :: ws))
      with (String sep (join (String sep "") (w :: ws))).
    by rewrite IH.
  - pose proof (split_nonempty sep s).
    destruct (split sep s) as [|w ws] eqn:E; [done|].
    destruct ws as [|w' ws]; simpl in *; by rewrite <- IH.
Qed.

(** The first field never holds the separator. *)
Lemma first_split_clean sep s : contains sep (first (split sep s)) = false.
Proof.
  induction s as [|c s IH]; simpl; [done|].
  destruct (Ascii.eqb_spec c sep) as [->|Hne]; [done|].
  pose proof (split_nonempty sep s).
  destruct (split sep s) as [|w ws] eqn:E; [done|].
  simpl in *. rewrite IH. by destruct (Ascii.eqb_spec c sep).
Qed.

End GroupNames.

(** ** The two-axis write *)

Section TwoAxisWrite.

Import Nc Run.

Lemma put_elems_length {A} (v : list A) idx d : length (put_elems v idx d) = length v.
Proof.
  revert v d. induction idx as [|i idx IH]; intros v [|x d]; simpl; try done.
  by rewrite IH, length_insert.
Qed.

(** A position that is not written keeps its value. *)
Lemma put_elems_other {A} (v : list A) idx d c :
  c ∉ idx → put_elems v idx d !! c = v !! c.
Proof.
  revert v d. induction idx as [|i idx IH]; intros v [|x d] Hc; simpl; try done.
  apply not_elem_of_cons in Hc as [Hne Hc].
  rewrite IH by done. by apply list_lookup_insert_ne.
Qed.

(** With distinct positions in range, the j-th position holds the j-th
    value afterwards. *)
Lemma put_elems_lookup {A} (v : list A) idx d j c x :
  NoDup idx → Forall (λ c, c < length v) idx →
  idx !! j = Some c → d !! j = Some x →
  put_elems v idx d !! c = Some x.
Proof.
  revert v d j. induction idx as [|i idx IH]; intros v d j Hnd Hin Hc Hx; [done|].
  destruct d as [|y d]; [by destruct j|].
  apply NoDup_cons in Hnd as [Hi Hnd]. apply Forall_cons in Hin as [Hlt Hin].
  simpl. destruct j as [|j]; simpl in *.
  - simplify_eq. rewrite put_elems_other by done.
    by apply list_lookup_insert_eq.
  - eapply IH; [done| |done..].
    eapply Forall_impl; [done|]. intros ?. by rewrite length_insert.
Qed.

Lemma mapM_norm_index_lt n rows idx :
  mapM (norm_index n) rows = Some idx → Forall (λ c, c < n) idx.
Proof.
  intros Hidx%mapM_Some. apply Forall_forall. intros c Hc.
  apply list_elem_of_lookup_1 in Hc as [j Hj].
  destruct (Forall2_lookup_r _ _ _ _ _ Hidx Hj) as (r & _ & Hr).
  unfold norm_index in Hr. repeat case_decide; simplify_eq; lia.
Qed.

Lemma shape2_rows {A} (m : list (list A)) N K :
  shape2 m = Some (N, K) → length m = N ∧ Forall (λ row, length row = K) m.
Proof.
  unfold shape2. destruct (forallb _ m) eqn:Hall; [|done]. intros [= <- <-].
  split; [done|]. apply Forall_forall. intros row Hrow%list_elem_of_In.
  rewrite forallb_forall in Hall. by apply Nat.eqb_eq, Hall.
Qed.

Lemma mapM_replicate {A B} (f : A → option B) n x l :
  mapM f (replicate n x) = Some l → 0 < n →
  ∃ y, f x = Some y ∧ l = replicate n y.
Proof.
  intros H Hn. destruct (f x) as [y|] eqn:Hfx.
  - exists y. split; [done|].
    assert (mapM f (replicate n x) = Some (replicate n y)) as H'; [|congruence].
    by apply mapM_Some, Forall2_replicate.
  - destruct n as [|n]; [lia|]. simpl in H. by rewrite Hfx in H.
Qed.

(** A row that is not selected keeps its values. *)
Lemma put_grid_other {A} (m : list (list A)) idx cols d i :
  i ∉ idx → put_grid m idx cols d !! i = m !! i.
Proof.
  revert m d. induction idx as [|k idx IH]; intros m [|row d] Hi; simpl; try done.
  apply not_elem_of_cons in Hi as [Hne Hi].
  rewrite IH by done. by apply list_lookup_alter_ne.
Qed.

(** Every selected row ends with the values [d] in the selected
    columns, when each of them is given [d]. *)
Lemma put_grid_holds K (m : list (list Q)) idx cols d i :
  NoDup cols → Forall (λ c, c < K) cols →
  Forall (λ row, length row = K) m → Forall (λ j, j < length m) idx →
  i ∈ idx →
  ∃ row, put_grid m idx cols (replicate (length idx) d) !! i = Some row
         ∧ holds_row cols d row.
Proof.
  intros Hnd Hcols. revert m.
  induction idx as [|k idx IH]; intros m Hrows Hidx Hi; [by apply elem_of_nil in Hi|].
  apply Forall_cons in Hidx as [Hk Hidx]. simpl.
  destruct (decide (i ∈ idx)) as [Hin|Hnin].
  - apply IH; [|by rewrite length_alter|done].
    apply Forall_lookup. intros j row Hj.
    destruct (decide (k = j)) as [->|Hne].
    + rewrite list_lookup_alter_eq in Hj.
      destruct (m !! j) as [old|] eqn:Hold; [|done]. injection Hj as <-.
      rewrite put_elems_length. exact (Forall_lookup_1 _ _ _ _ Hrows Hold).
    + rewrite list_lookup_alter_ne in Hj by done.
      exact (Forall_lookup_1 _ _ _ _ Hrows Hj).
  - apply elem_of_cons in Hi as [->|Hi]; [|done].
    rewrite put_grid_other by done. rewrite list_lookup_alter_eq.
    destruct (lookup_lt_is_Some_2 m k Hk) as [old Hold]. rewrite Hold. simpl.
    eexists. split; [done|].
    intros j c x Hc Hx. eapply put_elems_lookup; [done| |done..].
    rewrite (Forall_lookup_1 _ _ _ _ Hrows Hold). done.
Qed.

(** What line 118 does when the data row has one value per time offset:
    each selected row of the variable, whichever record it belongs to,
    receives the one data row it is given, converted to the type of the
    variable; [write_and_check] takes that row to be the first payload
    row. *)
Lemma two_axis_write_every_row v k m rows cols data0 stored :
  kind_of (dtype v) = Some k → data v = Mat m →
  setitem2 v rows cols data0 = Done stored →
  NoDup cols → length data0 = length cols →
  ∃ m', stored = Mat m'
    ∧ ∀ r, r ∈ rows →
        ∃ i row d, norm_index (length m) r = Some i
                   ∧ mapM (convert k false) data0 = Some d
                   ∧ m' !! i = Some row ∧ holds_row cols d row.
Proof.
  unfold setitem2. intros Hk Hdata H Hnd Hlen. rewrite Hk, Hdata in H.
  destruct (shape2 m) as [[N K]|] eqn:Hshape; [|done].
  apply shape2_rows in Hshape as [<- Hrows].
  destruct (mapM (norm_index (length m)) rows) as [idx|] eqn:Hidx; [|done].
  destruct (forallb _ cols) eqn:Hcols; [|done]. simpl in H.
  destruct (xorb _ _); [done|].
  unfold conform1 in H. rewrite decide_True in H by done.
  destruct (mapM _ (replicate _ _)) as [d'|] eqn:Hd'; [|done].
  injection H as <-. eexists. split; [done|].
  intros r Hr. pose proof (mapM_norm_index_lt _ _ _ Hidx) as Hlt.
  apply mapM_Some in Hidx.
  apply list_elem_of_lookup_1 in Hr as [p Hp].
  destruct (Forall2_lookup_l _ _ _ _ _ Hidx Hp) as (i & Hi & Hnorm).
  apply mapM_replicate in Hd' as (d & Hd & ->);
    [|apply lookup_lt_Some in Hi; lia].
  destruct (put_grid_holds K m idx cols d i Hnd) as (row & Hrow & Hholds);
    [|done|done|by eapply list_elem_of_lookup_2|].
  { apply Forall_forall. intros c Hc%list_elem_of_In.
    rewrite forallb_forall in Hcols. by apply Nat.ltb_lt, Hcols. }
  by exists i, row, d.
Qed.

End TwoAxisWrite.

(** ** Writing and reading back at the same offsets *)

Section RoundTrip.

Import Nc NpArr.





Lemma Qtrunc_inject_Z z : Qtrunc (inject_Z z) = z.
Proof. unfold Qtrunc, inject_Z. simpl. apply Z.quot_1_r. Qed.

(** A floating type takes every value as it is. *)
Lemma convert_float int l : mapM (convert KFloat int) l = Some l.
Proof. apply mapM_Some. induction l; constructor; done. Qed.

(** An integer type takes the integral part of a float. *)
Lemma convert_int lo hi l l' :
  mapM (convert (KInt lo hi) false) l = Some l' →
  l' = (λ x, inject_Z (Qtrunc x)) <$> l.
Proof.
  intros H%mapM_Some. induction H as [|x y l l' Hxy _ IH]; [done|].
  simpl. f_equal; [|done].
  unfold convert in Hxy. by destruct (fits lo hi (Qtrunc x)); simplify_eq.
Qed.



End RoundTrip.

(** ** The exchange-file writer *)

Section Writer.

Import Eff PriorStore.
Local Open Scope string_scope.

Lemma elem_spec x l : elem x l = true ↔ x ∈ l.
Proof.
  unfold elem. induction l as [|y l IH]; simpl.
  - split; [done|]. by intros ?%elem_of_nil.
  - rewrite elem_of_cons, orb_true_iff, IH.
    destruct (String.eqb_spec x y); intuition congruence.
Qed.

Lemma elem_false x l : elem x l = false ↔ x ∉ l.
Proof. rewrite <- elem_spec. destruct (elem x l); intuition congruence. Qed.

#[local] Hint Resolve reads_result : runs.

Lemma silent_with_group h f : (∀ g, silent (f g)) → silent (with_group h f).
Proof. intros Hf. unfold with_group. run_solver. Qed.

Lemma silent_set_attr path name value : silent (set_attr path name value).
Proof. unfold set_attr. run_solver. Qed.

Lemma silent_createGroup path name : silent (createGroup path name).
Proof. unfold createGroup. run_solver. Qed.

Lemma silent_set_gattr h name value : silent (set_gattr h name value).
Proof. apply silent_with_group. run_solver. Qed.

Lemma silent_createDimension h name size : silent (createDimension h name size).
Proof. apply silent_with_group. run_solver. Qed.

Lemma silent_createVariable h name ty dimensions :
  silent (createVariable h name ty dimensions).
Proof. apply silent_with_group. run_solver. Qed.

Lemma silent_assign h name a : silent (assign h name a).
Proof. apply silent_with_group. run_solver. Qed.

Lemma silent_for_each {A} (l : list A) body :
  (∀ x, silent (body x)) → silent (for_each l body).
Proof.
  intros Hbody. induction l as [|x l IH]; simpl; [run_solver|].
  apply silent_bind; [apply Hbody|]. intros _. apply IH.
Qed.

#[local] Hint Resolve silent_set_attr silent_createGroup silent_set_gattr
  silent_createDimension silent_createVariable silent_assign : runs.

Lemma silent_create_dimensions source ds num_reaches num_nodes :
  silent (create_dimensions source ds num_reaches num_nodes).
Proof. apply silent_for_each. intros. apply silent_createDimension. Qed.

Lemma silent_prior_values data ds dimensions :
  silent (PriorStore.prior_values data ds dimensions).
Proof. unfold PriorStore.prior_values. run_solver. Qed.

Lemma silent_reach_variables data ds : silent (reach_variables data ds).
Proof. unfold reach_variables. run_solver. Qed.

#[local] Hint Resolve silent_create_dimensions silent_prior_values
  silent_reach_variables : runs.

Lemma silent_create_variables source prior data ds :
  silent (create_variables source prior data ds).
Proof. unfold create_variables. run_solver. Qed.

#[local] Hint Resolve silent_create_variables : runs.

Lemma silent_create_prior path source prior data :
  silent (create_prior path source prior data).
Proof. unfold create_prior. run_solver. Qed.

(** What [create_netcdf] does once the file is open adds events only. *)
Lemma grows_create_netcdf_body file_name now self :
  grows
    (set_attr file_name "author" (PriorStore.author self) ;;
     set_attr file_name "contact" (email self) ;;
     set_attr file_name "sos_file" (PriorStore.sos_file self) ;;
     set_attr file_name "production_date" now ;;
     dict ← lift (AttributeError "keys") (priors_dict self);
     for_each dict (λ entry,
       for_each entry.2 (λ p, create_prior file_name entry.1 p.1 p.2)) ;;
     Dataset_close file_name).
Proof.
  do 4 (apply grows_bind; [apply silent_grows, silent_set_attr|]; intros _).
  apply grows_bind; [apply silent_grows, reads_silent, reads_lift|]. intros dict.
  apply grows_bind; [|intros _; apply grows_emit].
  apply silent_grows, silent_for_each. intros entry.
  apply silent_for_each. intros p. apply silent_create_prior.
Qed.

End Writer.

(** ** The properties of the specification *)

(** C1. Offset resolution is correct.  For integer sequences [source_ids]
    and [store_ids] with [store_ids] at least as long, pairwise distinct
    and holding every element of [source_ids], the computed offsets
    [sorter[searchsorted(store_ids, source_ids, sorter=argsort(store_ids))]]
    exist (no index is out of bounds), are as many as the source
    identifiers, and [store_ids[offsets[i]] = source_ids[i]] for every
    [i], that offset being the only position of the identifier.  For
    [store_ids = [30, 10, 20]] and [source_ids = [20, 30]] the offsets are
    [[2, 0]]. *)
Theorem offset_resolution_correct :
  (∀ source_ids store_ids : list Z,
     length source_ids ≤ length store_ids →
     NoDup store_ids →
     (∀ x, x ∈ source_ids → x ∈ store_ids) →
     ∃ offsets,
       Np.resolve_offsets store_ids source_ids = Some offsets
       ∧ length offsets = length source_ids
       ∧ ∀ i v, source_ids !! i = Some v →
           ∃ o, offsets !! i = Some o ∧ store_ids !! o = Some v
                ∧ ∀ o', store_ids !! o' = Some v → o' = o)
  ∧ Np.resolve_offsets [30; 10; 20]%Z [20; 30]%Z = Some [2; 0].
Proof.
  split; [|reflexivity].
  intros source_ids store_ids _ Hnodup Hin.
  destruct (resolve_offsets_hits store_ids source_ids Hin) as (offsets & Hres & Hall).
  exists offsets. split; [done|]. split.
  - symmetry. by eapply Forall2_length.
  - intros i v Hi.
    destruct (Forall2_lookup_l _ _ _ _ _ Hall Hi) as (o & Ho & Hv).
    exists o. repeat split; [done..|].
    intros o' Ho'. by eapply NoDup_lookup.
Qed.

Lemma offset_resolution_witness :
  ∃ offsets,
    Np.resolve_offsets [7; -3; 12; 5]%Z [5; 7; -3]%Z = Some offsets
    ∧ length offsets = 3
    ∧ ∀ i v, [5; 7; -3]%Z !! i = Some v →
        ∃ o, offsets !! i = Some o ∧ [7; -3; 12; 5]%Z !! o = Some v
             ∧ ∀ o', [7; -3; 12; 5]%Z !! o' = Some v → o' = o.
Proof.
  apply (proj1 offset_resolution_correct [5; 7; -3]%Z [7; -3; 12; 5]%Z).
  - simpl. lia.
  - apply (bool_decide_unpack _). vm_compute. exact I.
  - intros x Hx.
    repeat (apply elem_of_cons in Hx as [->|Hx];
            [apply (bool_decide_unpack _); vm_compute; exact I|]).
    by apply elem_of_nil in Hx.
Defined.

(** C2, as the code behaves.  On the daily prior of the worked inputs
    (payload rows [[1, 2]] and [[3, 4]] for the store rows 2 and 0, time
    offsets [[2, 0]]) the pass reports success, and both store rows end
    with the first payload row: the cell (0, 2) holds 1 and the cell
    (0, 0) holds 2, where the second payload row has 3 and 4. *)
Theorem two_axis_write_repeats_first_row :
  Overwrite.overwrite_group Example.self "data" "grdc_grdc_q" Example.daily
    Example.world
  = Eff.Ok true (Example.after "grdc_grdc_q" Example.daily Example.world)
  ∧ Np.resolve_offsets [30; 10; 20]%Z [20; 30]%Z = Some [2; 0]
  ∧ Np.resolve_offsets [2001; 2003; 2002]%Z [2002; 2001]%Z = Some [2; 0]
  ∧ Example.stored (Example.after "grdc_grdc_q" Example.daily Example.world)
      "model/grdc" "grdc_q"
    = Some (Mat [[2; 0; 1]; [0; 0; 0]; [2; 0; 1]]%Q)
  ∧ Eff.trace (Example.after "grdc_grdc_q" Example.daily Example.world)
    = [Eff.EvOpen Example.sos_ds Eff.ModeA;
       Eff.EvPrint "GRDC: 'grdc_q' has been overwritten in the SoS (constrained).";
       Eff.EvClose Example.sos_ds].
Proof. repeat split; vm_compute; reflexivity. Qed.

(** C3, as the code behaves.  On the daily prior of the worked inputs the
    offsets recomputed from the identifiers are [[2, 0]], the time
    offsets are [[2, 0]] and the pass reports success.  Yet the values
    that the variable holds in the end, read back at these offsets (rows
    2 and 0, columns 2 and 0), are [[1, 2]] twice, which [allclose] tells
    from the payload [[1, 2]], [[3, 4]]: the check of line 119 compares
    the first payload row only, with the two cells (2, 2) and (0, 0)
    that numpy pairs up from the two offset arrays. *)
Theorem verification_misses_payload_rows :
  Overwrite.overwrite_group Example.self "data" "grdc_grdc_q" Example.daily
    Example.world
  = Eff.Ok true (Example.after "grdc_grdc_q" Example.daily Example.world)
  ∧ Overwrite.test_ids "grdc" Example.daily Example.sos_ds Example.world
    = Eff.Ok (IntVec [20; 30]%Z, IntVec [30; 10; 20]%Z) Example.world
  ∧ Np.resolve_offsets [30; 10; 20]%Z [20; 30]%Z = Some [2; 0]
  ∧ Np.resolve_offsets [2001; 2003; 2002]%Z [2002; 2001]%Z = Some [2; 0]
  ∧ Eff.group_var Example.daily "prior_values" Example.world
    = Eff.Ok (Mat [[1; 2]; [3; 4]]%Q) Example.world
  ∧ Example.stored (Example.after "grdc_grdc_q" Example.daily Example.world)
      "model/grdc" "grdc_q"
    = Some (Mat [[2; 0; 1]; [0; 0; 0]; [2; 0; 1]]%Q)
  ∧ read_back (Mat [[2; 0; 1]; [0; 0; 0]; [2; 0; 1]]%Q) [2; 0] [2; 0]
    = Some (Mat [[1; 2]; [1; 2]]%Q)
  ∧ NpArr.allclose (Mat [[1; 2]; [3; 4]]%Q) (Mat [[1; 2]; [1; 2]]%Q) = Some false
  ∧ NpArr.getitem_pairs (Mat [[2; 0; 1]; [0; 0; 0]; [2; 0; 1]]%Q) [2; 0] [2; 0]
    = Some [1; 2]%Q
  ∧ NpArr.allclose1 [1; 2]%Q [1; 2]%Q = Some true.
Proof. repeat split; vm_compute; reflexivity. Qed.

(** C4. Routing is total and is the fixed five-case table:
    [determine_group] is a function on all strings (it has no error
    result), it sends [wbm] and [grades] to [model], [grdc] to
    [model/grdc], [gbreach] to [gbpriors/reach], [gbnode] to
    [gbpriors/node] and every other string to [model/usgs]; its result is
    always one of these five paths. *)
Theorem routing_table (source : string) :
  Overwrite.determine_group source
  = (if decide (source = "wbm" ∨ source = "grades") then "model"
     else if decide (source = "grdc") then "model/grdc"
     else if decide (source = "gbreach") then "gbpriors/reach"
     else if decide (source = "gbnode") then "gbpriors/node"
     else "model/usgs")%string
  ∧ Overwrite.determine_group source
    ∈ ["model"; "model/grdc"; "gbpriors/reach"; "gbpriors/node"; "model/usgs"]%string.
Proof.
  unfold Overwrite.determine_group.
  destruct (String.eqb_spec source "wbm") as [->|H1];
    [split; [done|repeat constructor]|].
  destruct (String.eqb_spec source "grades") as [->|H2];
    [split; [done|repeat constructor]|].
  destruct (String.eqb_spec source "grdc") as [->|H3];
    [split; [done|repeat constructor]|].
  destruct (String.eqb_spec source "gbreach") as [->|H4];
    [split; [done|repeat constructor]|].
  destruct (String.eqb_spec source "gbnode") as [->|H5];
    [split; [done|repeat constructor]|].
  simpl. split; [|repeat constructor].
  repeat case_decide; intuition congruence.
Qed.

(** C5. Identifier-resolution source selection.  When the record has no
    variable [reach_id], both identifier sequences are read from node
    arrays: the record's [node_id] and the store's [nodes/node_id].
    Otherwise the record's [reach_id] is used and the store's array is
    [model/usgs/usgs_reach_id] for the source [usgs],
    [model/grdc/grdc_reach_id] for [grdc], and [reaches/reach_id] for
    every other source. *)
Theorem identifier_source_selection (source : string) (g : Nc.Group) (sos_ds : string) :
  (Nc.variables g !! "reach_id"%string = None →
   Overwrite.test_ids source g sos_ds
   = (prior_ids ← Eff.group_var g "node_id";
      sos_ids ← Eff.file_var sos_ds "nodes" "node_id";
      mret (prior_ids, sos_ids)))
  ∧ (is_Some (Nc.variables g !! "reach_id"%string) →
     Overwrite.test_ids source g sos_ds
     = (prior_ids ← Eff.group_var g "reach_id";
        sos_ids ← (if decide (source = "usgs"%string)
                   then Eff.file_var sos_ds "model/usgs" "usgs_reach_id"
                   else if decide (source = "grdc"%string)
                   then Eff.file_var sos_ds "model/grdc" "grdc_reach_id"
                   else Eff.file_var sos_ds "reaches" "reach_id");
        mret (prior_ids, sos_ids))).
Proof.
  unfold Overwrite.test_ids, Overwrite.has_var. split; intros H.
  - rewrite bool_decide_eq_false_2; [done|]. rewrite H. by intros [? ?].
  - rewrite bool_decide_eq_true_2 by done. unfold Overwrite.retrieve_ids.
    destruct (String.eqb_spec source "usgs") as [->|H1]; [done|].
    rewrite decide_False by done.
    destruct (String.eqb_spec source "grdc") as [->|H2]; [done|].
    by rewrite decide_False.
Qed.

Lemma identifier_source_selection_witness :
  Overwrite.test_ids "gbnode" Example.node Example.sos_ds Example.world
  = Eff.Ok (IntVec [201; 301]%Z, IntVec [301; 101; 201]%Z) Example.world
  ∧ Overwrite.test_ids "grdc" Example.daily Example.sos_ds Example.world
    = Eff.Ok (IntVec [20; 30]%Z, IntVec [30; 10; 20]%Z) Example.world.
Proof.
  split.
  - rewrite (proj1 (identifier_source_selection "gbnode" Example.node Example.sos_ds));
      [|vm_compute; reflexivity].
    vm_compute. reflexivity.
  - rewrite (proj2 (identifier_source_selection "grdc" Example.daily Example.sos_ds));
      [|eexists; vm_compute; reflexivity].
    vm_compute. reflexivity.
Defined.

(** C6. A verification failure is not fatal.  When the groups before have
    been processed and the pass over a group ends with a failed
    verification, that pass opened the store, printed the [FAILURE] line
    and closed the store; the loop then goes on with every later group
    from the state the failing group left; and everything the later
    groups do (the next opening of a store first) comes after that
    closing. *)
Theorem verification_failure_is_not_fatal (self : Overwrite.t) (sos_dir : string)
    (before later : list (string * Nc.Group)) (key : string) (g : Nc.Group)
    (w w1 w2 : Eff.World) :
  Overwrite.for_groups (Overwrite.overwrite_group self sos_dir) before w = Eff.Ok () w1 →
  Overwrite.overwrite_group self sos_dir key g w1 = Eff.Ok false w2 →
  (∃ sos_ds tail,
     Eff.trace w2
     = Eff.trace w1 ++ [Eff.EvOpen sos_ds Eff.ModeA;
                        Eff.EvPrint ("FAILURE: " +:+ tail);
                        Eff.EvClose sos_ds])
  ∧ Overwrite.for_groups (Overwrite.overwrite_group self sos_dir)
      (before ++ (key, g) :: later) w
    = Overwrite.for_groups (Overwrite.overwrite_group self sos_dir) later w2
  ∧ Eff.trace w2 `prefix_of`
      Eff.trace (world_of (Overwrite.for_groups
                             (Overwrite.overwrite_group self sos_dir) later w2)).
Proof.
  intros Hbefore Hfail. split; [|split].
  - apply overwrite_group_Ok in Hfail
      as (run_type & ? & ? & ? & ? & ? & w3 & _ & _ & _ & _ & _ & _ & _ & ->).
    eexists _, _. cbn [Eff.trace]. unfold status_line. reflexivity.
  - rewrite (for_groups_app _ _ _ _ _ Hbefore). simpl.
    unfold mbind, Eff.M_bind. by rewrite Hfail.
  - apply grows_for_groups. intros. apply grows_overwrite_group.
Qed.

Lemma verification_failure_is_not_fatal_witness :
  Eff.trace (world_of (Overwrite.for_groups
                         (Overwrite.overwrite_group Example.self "data")
                         [("wbm_flow", Example.flow_wrong);
                          ("gbnode_logn_hat", Example.node)]%string
                         Example.world))
  = [Eff.EvOpen Example.sos_ds Eff.ModeA;
     Eff.EvPrint "FAILURE: WBM: 'flow' has NOT been overwritten in the SoS (constrained).";
     Eff.EvClose Example.sos_ds;
     Eff.EvOpen Example.sos_ds Eff.ModeA;
     Eff.EvPrint "GBPRIORS: 'logn_hat' has been overwritten in the SoS (constrained).";
     Eff.EvClose Example.sos_ds].
Proof.
  destruct (verification_failure_is_not_fatal Example.self "data" []
              [("gbnode_logn_hat", Example.node)]%string
              "wbm_flow" Example.flow_wrong Example.world Example.world
              (Example.after "wbm_flow" Example.flow_wrong Example.world))
    as (_ & Hloop & _).
  - reflexivity.
  - vm_compute. reflexivity.
  - change ([] ++ ?l) with l in Hloop. rewrite Hloop. vm_compute. reflexivity.
Defined.

(** C7. Status-line format.  A pass over one group that completes prints
    exactly one line, between the opening and the closing of the store:
    [<SOURCE>: '<prior>' has been overwritten in the SoS (<run_type>).]
    on success and
    [FAILURE: <SOURCE>: '<prior>' has NOT been overwritten in the SoS (<run_type>).]
    on a verification failure, where [<SOURCE>] is the source tag in upper
    case, and [gbpriors] in upper case for both [gbreach] and [gbnode]. *)
Theorem status_line_format (self : Overwrite.t) (sos_dir key : string) (g : Nc.Group)
    (w w' : Eff.World) (success : bool) :
  Overwrite.overwrite_group self sos_dir key g w = Eff.Ok success w' →
  ∃ run_type sos_ds,
    let source := (Overwrite.parse_key key).1 in
    let prior := (Overwrite.parse_key key).2 in
    let label :=
      if decide (source = "gbreach" ∨ source = "gbnode") then "gbpriors" else source in
    let line :=
      if success
      then Py.upper label +:+ ": '" +:+ prior
           +:+ "' has been overwritten in the SoS (" +:+ run_type +:+ ")."
      else "FAILURE: " +:+ Py.upper label +:+ ": '" +:+ prior
           +:+ "' has NOT been overwritten in the SoS (" +:+ run_type +:+ ")." in
    Nc.gattrs g !! "run_type" = Some run_type
    ∧ Eff.trace w'
      = Eff.trace w ++ [Eff.EvOpen sos_ds Eff.ModeA; Eff.EvPrint line;
                        Eff.EvClose sos_ds].
Proof.
  intros H.
  apply overwrite_group_Ok in H
    as (run_type & ? & ? & ? & ? & ? & w2 & Hrt & _ & _ & _ & _ & _ & _ & ->).
  exists run_type, (Overwrite.sos_path sos_dir run_type (Overwrite.sos_file self)).
  split; [done|]. cbv zeta. cbn [Eff.trace]. do 4 f_equal.
  unfold status_line, status_label.
  destruct (String.eqb_spec (Overwrite.parse_key key).1 "gbreach") as [->|H1];
    [by destruct success|].
  destruct (String.eqb_spec (Overwrite.parse_key key).1 "gbnode") as [->|H2];
    [by destruct success|].
  rewrite decide_False by (intros [?|?]; done). by destruct success.
Qed.

Lemma status_line_format_witness :
  ∃ sos_ds,
    Eff.trace (Example.after "gbnode_logn_hat" Example.node Example.world)
    = [Eff.EvOpen sos_ds Eff.ModeA;
       Eff.EvPrint "GBPRIORS: 'logn_hat' has been overwritten in the SoS (constrained).";
       Eff.EvClose sos_ds].
Proof.
  destruct (status_line_format Example.self "data" "gbnode_logn_hat" Example.node
              Example.world
              (Example.after "gbnode_logn_hat" Example.node Example.world) true)
    as (run_type & sos_ds & Hrt & Htrace).
  - vm_compute. reflexivity.
  - exists sos_ds. vm_compute in Hrt. injection Hrt as <-. exact Htrace.
Defined.

(** C9. Group-name round trip.  For a source tag without underscore and
    any prior name, parsing the builder's group name [{source}_{prior}]
    (split on the underscore, first field as source, the rest joined
    again as prior) gives back the pair (source, prior); for a source tag
    that holds an underscore the parse does not give back the pair. *)
Theorem group_name_round_trip (source prior : string) :
  (Py.contains "_" source = false →
   Overwrite.parse_key (PriorStore.group_name source prior) = (source, prior))
  ∧ (Py.contains "_" source = true →
     Overwrite.parse_key (PriorStore.group_name source prior) ≠ (source, prior)).
Proof.
  unfold Overwrite.parse_key, PriorStore.group_name. split; intros H.
  - change (source +:+ "_" +:+ prior)%string
      with (source +:+ String "_" prior)%string.
    rewrite (split_app _ _ _ H). simpl. by rewrite (join_split "_" prior).
  - intros [= Hsrc _].
    pose proof (first_split_clean "_" (source +:+ "_" +:+ prior)) as Hclean.
    rewrite Hsrc in Hclean. congruence.
Qed.

Lemma group_name_round_trip_witness :
  Overwrite.parse_key (PriorStore.group_name "usgs" "usgs_q") = ("usgs", "usgs_q")%string
  ∧ Overwrite.parse_key (PriorStore.group_name "my_model" "flow")
    ≠ ("my_model", "flow")%string.
Proof.
  split.
  - apply (proj1 (group_name_round_trip "usgs" "usgs_q")). reflexivity.
  - apply (proj2 (group_name_round_trip "my_model" "flow")). reflexivity.
Defined.

(** C10. [create_netcdf] takes the author of the file name from the
    module-level name [author], not from the attribute of the instance.
    Where no such name is bound the call raises [NameError] and leaves the
    state as it was: no file is created and nothing is opened, whatever
    author the instance was built with.  Where the name is bound, the file
    that the call opens is named after the bound value. *)
Theorem create_netcdf_reads_global_author (globals : gmap string string)
    (now : string) (self : PriorStore.t) (w : Eff.World) :
  (globals !! "author"%string = None →
   PriorStore.create_netcdf globals now self w
   = Eff.Raise (Eff.NameError "author") w)
  ∧ (∀ a, globals !! "author"%string = Some a →
       (Eff.trace w
        ++ [Eff.EvOpen
              (PriorStore.output_dir self +:+ "/"
               +:+ Py.lower (Py.replace " " "_" a) +:+ "_"
               +:+ Py.first (Py.split "_" (PriorStore.sos_file self)) +:+ ".nc")
              Eff.ModeW])
       `prefix_of` Eff.trace (world_of (PriorStore.create_netcdf globals now self w))).
Proof.
  unfold PriorStore.create_netcdf. split.
  - intros ->. reflexivity.
  - intros a ->. cbn [Eff.lift]. unfold mbind at 1, Eff.M_bind at 1.
    cbn [mret Eff.M_ret]. cbv zeta.
    set (file_name := (PriorStore.output_dir self +:+ _)%string).
    unfold mbind at 1, Eff.M_bind at 1.
    change (Eff.Dataset_open file_name Eff.ModeW w)
      with (Eff.Ok ()
              {| Eff.files := <[file_name:=Nc.empty_dataset]> (Eff.files w);
                 Eff.trace := Eff.trace w ++ [Eff.EvOpen file_name Eff.ModeW] |}).
    apply (grows_create_netcdf_body file_name now self
             {| Eff.files := <[file_name:=Nc.empty_dataset]> (Eff.files w);
                Eff.trace := Eff.trace w ++ [Eff.EvOpen file_name Eff.ModeW] |}).
Qed.

Lemma create_netcdf_reads_global_author_witness :
  PriorStore.create_netcdf ∅ "03-Nov-2026 10:00:00"
    (PriorStore.init "Ann Lee" "ann@example.org" "na_sos.nc" "out") Example.world
  = Eff.Raise (Eff.NameError "author") Example.world
  ∧ [Eff.EvOpen "out/zoe_na.nc" Eff.ModeW]
    `prefix_of`
    Eff.trace (world_of (PriorStore.create_netcdf {[ "author"%string := "Zoe"%string ]}
                           "03-Nov-2026 10:00:00"
                           (PriorStore.init "Ann Lee" "ann@example.org" "na_sos.nc" "out")
                           Example.world)).
Proof.
  split.
  - apply (proj1 (create_netcdf_reads_global_author ∅ "03-Nov-2026 10:00:00"
                    (PriorStore.init "Ann Lee" "ann@example.org" "na_sos.nc" "out")
                    Example.world)).
    reflexivity.
  - apply (proj2 (create_netcdf_reads_global_author
                    {[ "author"%string := "Zoe"%string ]} "03-Nov-2026 10:00:00"
                    (PriorStore.init "Ann Lee" "ann@example.org" "na_sos.nc" "out")
                    Example.world) "Zoe"%string).
    reflexivity.
Defined.

(** * Further properties of the code *)

(** ** Offsets of identifiers that may be missing *)

Section OffsetsAnyKey.

Import Np.

(** The search for one key, whether or not it occurs: the position found
    is past the end exactly when the key exceeds every element; otherwise
    the sorter sends it to a least element that is not below the key. *)
Lemma searchsorted_lower_bound (a : list Z) (v : Z) :
  let r := bisect_left (sorted_key a (argsort a)) v (length a) 0 (length a) in
  match argsort a !! r with
  | None => ∀ x, x ∈ a → (x < v)%Z
  | Some o =>
      ∃ x, a !! o = Some x ∧ (v ≤ x)%Z ∧ ∀ y, y ∈ a → (v ≤ y)%Z → (x ≤ y)%Z
  end.
Proof.
  intros r.
  destruct (bisect_left_spec (sorted_key a (argsort a)) v (length a)
              (sorted_key_mono a) (length a) 0 (length a))
    as (Hrm & Hbelow & Habove); try lia.
  fold r in Hrm, Hbelow, Habove.
  assert (∀ y, y ∈ a → ∃ q, q < length a ∧ sorted_key a (argsort a) q = y) as Hpos.
  { intros y [j Hj]%list_elem_of_lookup_1.
    pose proof (lookup_lt_Some _ _ _ Hj) as Hjlt.
    destruct (argsort_surj a j Hjlt) as [q Hq].
    pose proof (lookup_lt_Some _ _ _ Hq) as Hqlt. rewrite argsort_length in Hqlt.
    exists q. split; [done|]. unfold sorted_key, key_at.
    by rewrite Hq; simpl; rewrite Hj. }
  destruct (argsort a !! r) as [o|] eqn:Ho.
  - pose proof (lookup_lt_Some _ _ _ Ho) as Hrlt. rewrite argsort_length in Hrlt.
    pose proof (argsort_lt _ _ _ Ho) as Holt.
    destruct (lookup_lt_is_Some_2 a o Holt) as [x Hx].
    assert (sorted_key a (argsort a) r = x) as Hkr.
    { unfold sorted_key, key_at. by rewrite Ho; simpl; rewrite Hx. }
    exists x. split; [done|]. split.
    + rewrite <- Hkr. by apply Habove.
    + intros y Hy Hvy. destruct (Hpos y Hy) as (q & Hq & <-).
      destruct (decide (r ≤ q)) as [Hrq|Hrq].
      * rewrite <- Hkr. by apply sorted_key_mono.
      * specialize (Hbelow q). lia.
  - apply lookup_ge_None in Ho. rewrite argsort_length in Ho.
    intros y Hy. destruct (Hpos y Hy) as (q & Hq & <-). apply Hbelow. lia.
Qed.

Lemma resolve_offsets_length ids keys offsets :
  resolve_offsets ids keys = Some offsets → length offsets = length keys.
Proof.
  unfold resolve_offsets, take, searchsorted. intros H%mapM_Some%Forall2_length.
  by rewrite length_map in H.
Qed.

End OffsetsAnyKey.

(** X1. The offsets of lines 109-110 for arbitrary identifiers.  The
    computation fails (an index past the end of [sorter]) exactly when
    some key is greater than every identifier of the store.  When it
    succeeds, there is one offset per key, and the offset of a key is the
    position of a least store identifier that is not below the key: the
    key itself when it occurs, the next greater identifier when it does
    not. *)
Theorem offsets_point_to_least_upper (ids keys : list Z) :
  (Np.resolve_offsets ids keys = None
   ↔ ∃ key, key ∈ keys ∧ ∀ id, id ∈ ids → (id < key)%Z)
  ∧ ∀ offsets,
      Np.resolve_offsets ids keys = Some offsets →
      length offsets = length keys
      ∧ ∀ i key o,
          keys !! i = Some key → offsets !! i = Some o →
          ∃ id, ids !! o = Some id ∧ (key ≤ id)%Z
                ∧ ∀ id', id' ∈ ids → (key ≤ id')%Z → (id ≤ id')%Z.
Proof.
  split.
  - unfold Np.resolve_offsets, Np.take, Np.searchsorted.
    rewrite mapM_None, Exists_exists. split.
    + intros (r & Hr & Hnone). apply list_elem_of_fmap in Hr as (key & -> & Hkey).
      exists key. split; [done|].
      pose proof (searchsorted_lower_bound ids key) as H. cbv zeta in H.
      by rewrite Hnone in H.
    + intros (key & Hkey & Hall).
      eexists. split; [apply list_elem_of_fmap; by eexists|].
      pose proof (searchsorted_lower_bound ids key) as H. cbv zeta in H. simpl.
      destruct (Np.argsort ids !! _) as [o|]; [|done].
      destruct H as (x & Hx & Hvx & _).
      specialize (Hall x (list_elem_of_lookup_2 _ _ _ Hx)). lia.
  - intros offsets H. split; [by eapply resolve_offsets_length|].
    intros i key o Hkey Ho.
    unfold Np.resolve_offsets, Np.take, Np.searchsorted in H.
    apply mapM_Some in H.
    destruct (Forall2_lookup_r _ _ _ _ _ H Ho) as (r & Hr & Hsort).
    rewrite list_lookup_fmap, Hkey in Hr. injection Hr as <-.
    pose proof (searchsorted_lower_bound ids key) as Hlb. cbv zeta in Hlb.
    by rewrite Hsort in Hlb.
Qed.

Lemma offsets_point_to_least_upper_witness :
  Np.resolve_offsets [30; 10; 20]%Z [15; 40]%Z = None
  ∧ ∃ id, [30; 10; 20]%Z !! 2 = Some id ∧ (15 ≤ id)%Z
          ∧ ∀ id', id' ∈ [30; 10; 20]%Z → (15 ≤ id')%Z → (id ≤ id')%Z.
Proof.
  split.
  - apply (proj1 (offsets_point_to_least_upper [30; 10; 20]%Z [15; 40]%Z)).
    exists 40%Z. split; [by right; left|].
    intros id Hid.
    repeat (apply elem_of_cons in Hid as [->|Hid]; [lia|]).
    by apply elem_of_nil in Hid.
  - apply (proj2 (proj2 (offsets_point_to_least_upper [30; 10; 20]%Z [15]%Z) [2]
                    ltac:(vm_compute; reflexivity)) 0 15%Z 2); reflexivity.
Defined.

(** ** Group names read back *)

Section KeyParsing.

Import Py.
Local Open Scope string_scope.

Lemma split_clean sep s : contains sep s = false → split sep s = [s].
Proof.
  induction s as [|c s IH]; simpl; [done|]. intros H.
  apply orb_false_iff in H as [Hc Hs]. by rewrite Hc, (IH Hs).
Qed.

Lemma split_two sep s :
  contains sep s = true → ∃ w w' ws, split sep s = w :: w' :: ws.
Proof.
  induction s as [|c s IH]; simpl; [done|]. intros H.
  destruct (Ascii.eqb c sep) eqn:Hc.
  - pose proof (split_nonempty sep s).
    destruct (split sep s) as [|w' ws]; [done|]. by eexists _, _, _.
  - simpl in H. destruct (IH H) as (w & w' & ws & ->). by eexists _, _, _.
Qed.

End KeyParsing.

(** X2. The parse of lines 92-93 on any group name.  A name with an
    underscore is the parsed source, an underscore and the parsed prior,
    so building the name again from the parse gives the name back.  A
    name without underscore is taken whole as the source, with the empty
    string as prior; nothing is raised. *)
Theorem parse_key_rebuilds (key : string) :
  (Py.contains "_" key = true →
   PriorStore.group_name (Overwrite.parse_key key).1 (Overwrite.parse_key key).2 = key)
  ∧ (Py.contains "_" key = false →
     Overwrite.parse_key key = (key, ""%string)).
Proof.
  unfold Overwrite.parse_key, PriorStore.group_name. split; intros H.
  - destruct (split_two _ _ H) as (w & w' & ws & Hsplit).
    pose proof (join_split "_" key) as Hjoin. rewrite Hsplit in Hjoin |- *.
    exact Hjoin.
  - by rewrite (split_clean _ _ H).
Qed.

Lemma parse_key_rebuilds_witness :
  PriorStore.group_name (Overwrite.parse_key "usgs_usgs_q").1
    (Overwrite.parse_key "usgs_usgs_q").2 = "usgs_usgs_q"%string
  ∧ Overwrite.parse_key "flow" = ("flow", "")%string.
Proof.
  split.
  - apply (proj1 (parse_key_rebuilds "usgs_usgs_q")). reflexivity.
  - apply (proj2 (parse_key_rebuilds "flow")). reflexivity.
Defined.

(** ** Whole runs of the merge *)

Section WholeRuns.

Import Eff Run Obs Overwrite.

Lemma bind_Raise {A B} (m : M A) (f : A → M B) w e w' :
  (m ≫= f) w = Raise e w'
  ↔ m w = Raise e w' ∨ ∃ a w1, m w = Ok a w1 ∧ f a w1 = Raise e w'.
Proof.
  unfold mbind, M_bind. destruct (m w) as [a w1|e1 w1]; split.
  - intros H. right. by exists a, w1.
  - intros [?|(a' & w2 & [= -> ->] & ?)]; done.
  - intros [= -> ->]. by left.
  - intros [H|(a' & w2 & H & _)]; [by injection H as -> ->|discriminate H].
Qed.

Lemma reads_Raise {A} (m : M A) w e w' : reads m → m w = Raise e w' → w' = w.
Proof. intros Hm H. specialize (Hm w). by rewrite H in Hm. Qed.

Lemma silent_Ok {A} (m : M A) w a w' : silent m → m w = Ok a w' → trace w' = trace w.
Proof. intros Hm H. specialize (Hm w). by rewrite H in Hm. Qed.

Lemma silent_Raise {A} (m : M A) w e w' :
  silent m → m w = Raise e w' → trace w' = trace w.
Proof. intros Hm H. specialize (Hm w). by rewrite H in Hm. Qed.

Lemma reads_group_var_ints g name : reads (group_var g name ≫= ints).
Proof. apply reads_bind; [apply reads_group_var|]. intros; apply reads_ints. Qed.

(** A pass that raises has printed nothing and closed nothing: it ends
    in the state it started from, or with the store opened and left
    open. *)
Lemma overwrite_group_Raise self sos_dir key g w e w' :
  overwrite_group self sos_dir key g w = Raise e w' →
  trace w' = trace w
  ∨ ∃ run_type,
      Nc.gattrs g !! "run_type"%string = Some run_type
      ∧ trace w'
        = trace w ++ [EvOpen (sos_path sos_dir run_type (sos_file self)) ModeA].
Proof.
  unfold overwrite_group. intros H.
  apply bind_Raise in H as [H|(run_type & w0 & Hrt & H)].
  { left. by rewrite (reads_Raise _ _ _ _ (reads_lift _ _) H). }
  apply lift_Ok in Hrt as [Hrt <-].
  apply bind_Raise in H as [H|(prior_indexes & w0 & Hpi & H)].
  { left. by rewrite (reads_Raise _ _ _ _ (reads_group_var_ints _ _) H). }
  pose proof (reads_Ok _ _ _ _ (reads_group_var_ints _ _) Hpi) as ->.
  apply bind_Raise in H as [H|(data & w0 & Hdata & H)].
  { left. by rewrite (reads_Raise _ _ _ _ (reads_group_var _ _) H). }
  pose proof (reads_Ok _ _ _ _ (reads_group_var _ _) Hdata) as ->.
  apply bind_Raise in H as [H|(u & w1 & Hopen & H)].
  { by rewrite Dataset_open_A_Ok in H. }
  rewrite Dataset_open_A_Ok in Hopen. injection Hopen as _ <-.
  right. exists run_type. split; [done|].
  set (w1 := {| files := _; trace := _ |}) in H.
  change (trace w ++ _) with (trace w1).
  apply bind_Raise in H as [H|([pa sa] & w0 & Hids & H)].
  { by rewrite (reads_Raise _ _ _ _ (reads_test_ids _ _ _) H). }
  pose proof (reads_Ok _ _ _ _ (reads_test_ids _ _ _) Hids) as ->.
  apply bind_Raise in H as [H|(sos_ids & w0 & Hs & H)].
  { by rewrite (reads_Raise _ _ _ _ (reads_ints _) H). }
  pose proof (reads_Ok _ _ _ _ (reads_ints _) Hs) as ->.
  apply bind_Raise in H as [H|(prior_ids & w0 & Hp & H)].
  { by rewrite (reads_Raise _ _ _ _ (reads_ints _) H). }
  pose proof (reads_Ok _ _ _ _ (reads_ints _) Hp) as ->.
  apply bind_Raise in H as [H|(test_indexes & w0 & Ho & H)].
  { by rewrite (reads_Raise _ _ _ _ (reads_offsets _ _) H). }
  pose proof (reads_Ok _ _ _ _ (reads_offsets _ _) Ho) as ->.
  apply bind_Raise in H as [H|(success & w2 & Hwc & H)].
  { by rewrite (silent_Raise _ _ _ _ (silent_write_and_check _ _ _ _ _ _ _) H). }
  rewrite report_status_line in H.
  apply bind_Raise in H as [H|(? & ? & _ & H)]; [done|].
  apply bind_Raise in H as [H|(? & ? & _ & H)]; done.
Qed.

(** A loop that raises did so in one group, after completing the groups
    before it. *)
Lemma for_groups_Raise body l w e w' :
  for_groups body l w = Raise e w' →
  ∃ before key g later w1,
    l = before ++ (key, g) :: later
    ∧ for_groups body before w = Ok () w1
    ∧ body key g w1 = Raise e w'.
Proof.
  revert w. induction l as [|[key g] l IH]; simpl; intros w H; [done|].
  apply bind_Raise in H as [H|(b & w0 & Hb & H)].
  - by exists [], key, g, l, w.
  - destruct (IH _ H) as (before & key' & g' & later & w1 & -> & Hbefore & Hraise).
    exists ((key, g) :: before), key', g', later, w1. split; [done|].
    split; [|done]. simpl. unfold mbind, M_bind. by rewrite Hb.
Qed.

(** The events of a completed loop: one pass per group, in order. *)
Lemma for_groups_Ok_trace self sos_dir l w w' :
  for_groups (overwrite_group self sos_dir) l w = Ok () w' →
  ∃ entries,
    Forall2 (reported sos_dir (sos_file self)) l entries
    ∧ trace w' = trace w ++ flat_map pass_events entries.
Proof.
  revert w. induction l as [|[key g] l IH]; simpl; intros w H.
  - apply mret_Ok in H as [_ <-]. exists []. split; [constructor|].
    simpl. by rewrite app_nil_r.
  - apply bind_Ok in H as (success & w1 & Hpass & H).
    apply overwrite_group_Ok in Hpass
      as (run_type & ? & ? & ? & ? & ? & w2 & Hrt & _ & _ & _ & _ & _ & _ & ->).
    destruct (IH _ H) as (entries & Hall & ->).
    eexists ((_, _) :: entries). split.
    + constructor; [|done]. by exists success, run_type.
    + cbn [trace flat_map pass_events fst snd]. by rewrite <- !app_assoc.
Qed.

End WholeRuns.

(** X3. The events of a completed run of [overwrite].  The exchange file
    is opened for reading first and closed last; in between there is one
    pass per group of the file, in the order of the groups, each opening
    the store of the group's run type in append mode, printing the
    success or the failure line of the group, and closing that store
    before the next one is opened.  A file without groups gives the
    opening and the closing of the exchange file alone. *)
Theorem overwrite_run_events (self : Overwrite.t) (sos_dir : string)
    (w w' : Eff.World) :
  Overwrite.overwrite self sos_dir w = Eff.Ok () w' →
  ∃ priors_ds entries,
    Eff.files w !! Overwrite.priors_file self = Some priors_ds
    ∧ Forall2 (Obs.reported sos_dir (Overwrite.sos_file self))
        (Nc.groups priors_ds) entries
    ∧ Eff.trace w'
      = Eff.trace w ++ [Eff.EvOpen (Overwrite.priors_file self) Eff.ModeR]
        ++ flat_map Obs.pass_events entries
        ++ [Eff.EvClose (Overwrite.priors_file self)].
Proof.
  unfold Overwrite.overwrite. intros H.
  apply bind_Ok in H as (u & w1 & Hopen & H).
  unfold Eff.Dataset_open in Hopen.
  apply bind_Ok in Hopen as (ds0 & w0 & Hds0 & Hopen).
  pose proof (reads_Ok _ _ _ _ (reads_read_file _) Hds0) as ->.
  unfold Eff.emit in Hopen. injection Hopen as _ <-.
  apply bind_Ok in H as (priors_ds & w0 & Hds & H).
  pose proof (reads_Ok _ _ _ _ (reads_read_file _) Hds) as ->.
  unfold Eff.read_file in Hds. cbn [Eff.files] in Hds.
  destruct (Eff.files w !! Overwrite.priors_file self) as [ds|] eqn:Hfile; [|done].
  injection Hds as ->.
  apply bind_Ok in H as (u2 & w2 & Hloop & H).
  destruct u2. apply for_groups_Ok_trace in Hloop as (entries & Hall & Htrace).
  unfold Eff.Dataset_close, Eff.emit in H. injection H as <-.
  exists priors_ds, entries. repeat split; [done|].
  cbn [Eff.trace] in *. rewrite Htrace. by rewrite <- !app_assoc.
Qed.

Lemma overwrite_run_events_witness :
  ∃ priors_ds entries,
    Eff.files Worked.world !! Overwrite.priors_file Example.self = Some priors_ds
    ∧ Forall2 (Obs.reported "data" (Overwrite.sos_file Example.self))
        (Nc.groups priors_ds) entries
    ∧ Eff.trace (Worked.final Worked.world)
      = Eff.trace Worked.world
        ++ [Eff.EvOpen (Overwrite.priors_file Example.self) Eff.ModeR]
        ++ flat_map Obs.pass_events entries
        ++ [Eff.EvClose (Overwrite.priors_file Example.self)].
Proof.
  apply (overwrite_run_events Example.self "data" Worked.world
           (Worked.final Worked.world)).
  vm_compute. reflexivity.
Defined.

(** X4. A run of [overwrite] that raises.  Either the exchange file could
    not be opened and nothing happened, or the exception came from the
    pass over one group: the groups before it completed, each with its
    line, the raising group printed no line, the groups after it were not
    touched, and the run ended with the exchange file still open and with
    the store of the raising group either not opened or opened and left
    open. *)
Theorem overwrite_run_raises (self : Overwrite.t) (sos_dir : string)
    (w w' : Eff.World) (e : Eff.Error) :
  Overwrite.overwrite self sos_dir w = Eff.Raise e w' →
  Eff.trace w' = Eff.trace w
  ∨ ∃ priors_ds before key g later entries rest,
      Eff.files w !! Overwrite.priors_file self = Some priors_ds
      ∧ Nc.groups priors_ds = before ++ (key, g) :: later
      ∧ Forall2 (Obs.reported sos_dir (Overwrite.sos_file self)) before entries
      ∧ (rest = []
         ∨ ∃ run_type,
             Nc.gattrs g !! "run_type"%string = Some run_type
             ∧ rest = [Eff.EvOpen (Overwrite.sos_path sos_dir run_type
                                     (Overwrite.sos_file self)) Eff.ModeA])
      ∧ Eff.trace w'
        = Eff.trace w ++ [Eff.EvOpen (Overwrite.priors_file self) Eff.ModeR]
          ++ flat_map Obs.pass_events entries ++ rest.
Proof.
  unfold Overwrite.overwrite. intros H.
  apply bind_Raise in H as [H|(u & w1 & Hopen & H)].
  { left. unfold Eff.Dataset_open in H.
    apply bind_Raise in H as [H|(? & ? & _ & H)]; [|done].
    by rewrite (reads_Raise _ _ _ _ (reads_read_file _) H). }
  right.
  unfold Eff.Dataset_open in Hopen.
  apply bind_Ok in Hopen as (ds0 & w0 & Hds0 & Hopen).
  pose proof (reads_Ok _ _ _ _ (reads_read_file _) Hds0) as ->.
  unfold Eff.emit in Hopen. injection Hopen as _ <-.
  unfold Eff.read_file in Hds0.
  destruct (Eff.files w !! Overwrite.priors_file self) as [ds|] eqn:Hfile; [|done].
  injection Hds0 as ->.
  apply bind_Raise in H as [H|(priors_ds & w0 & Hds & H)].
  { unfold Eff.read_file in H. cbn [Eff.files] in H. by rewrite Hfile in H. }
  pose proof (reads_Ok _ _ _ _ (reads_read_file _) Hds) as ->.
  unfold Eff.read_file in Hds. cbn [Eff.files] in Hds. rewrite Hfile in Hds.
  injection Hds as <-.
  apply bind_Raise in H as [H|(? & ? & _ & H)]; [|done].
  apply for_groups_Raise in H
    as (before & key & g & later & w1 & Hgroups & Hbefore & Hraise).
  apply for_groups_Ok_trace in Hbefore as (entries & Hall & Htrace).
  cbn [Eff.trace] in Htrace.
  apply overwrite_group_Raise in Hraise as [Hsame|(run_type & Hrt & Hopened)].
  - exists ds0, before, key, g, later, entries, []. repeat split; try done; [by left|].
    rewrite Hsame, Htrace. by rewrite <- !app_assoc, app_nil_r.
  - eexists ds0, before, key, g, later, entries, _. repeat split; try done.
    + right. by exists run_type.
    + rewrite Hopened, Htrace. by rewrite <- !app_assoc.
Qed.

Lemma overwrite_run_raises_witness :
  Overwrite.overwrite Example.self "data" Worked.world_lost
  = Eff.Raise (Eff.NotFound "model/grdc") (Worked.final Worked.world_lost)
  ∧ Eff.trace (Worked.final Worked.world_lost)
    = [Eff.EvOpen "priors.nc" Eff.ModeR;
       Eff.EvOpen "data/constrained/sos.nc" Eff.ModeA;
       Eff.EvPrint "WBM: 'flow' has been overwritten in the SoS (constrained).";
       Eff.EvClose "data/constrained/sos.nc";
       Eff.EvOpen "data/unconstrained/sos.nc" Eff.ModeA].
Proof.
  assert (Overwrite.overwrite Example.self "data" Worked.world_lost
          = Eff.Raise (Eff.NotFound "model/grdc") (Worked.final Worked.world_lost))
    as Hrun by (vm_compute; reflexivity).
  split; [exact Hrun|].
  destruct (overwrite_run_raises _ _ _ _ _ Hrun) as [Hsame|_];
    vm_compute; reflexivity.
Defined.

(** ** What the merge leaves as it was *)

Section Frame.

Import Eff Run Obs Overwrite.

Section Keeps.

Context (R : World → World → Prop) (P : string → Prop).
Hypothesis R_refl : ∀ w, R w w.
Hypothesis R_trans : ∀ w1 w2 w3, R w1 w2 → R w2 w3 → R w1 w3.
Hypothesis R_files : ∀ w w', files w' = files w → R w w'.
Hypothesis R_new : ∀ w w' path,
  P path → files w !! path = None →
  files w' = <[path:=Nc.empty_dataset]> (files w) → R w w'.

Lemma keeps_reads {A} (m : M A) : reads m → keeps R m.
Proof. intros Hm w. rewrite Hm. apply R_refl. Qed.

Lemma keeps_bind {A B} (m : M A) (f : A → M B) :
  keeps R m → (∀ a, keeps R (f a)) → keeps R (m ≫= f).
Proof.
  intros Hm Hf w. unfold mbind, M_bind. specialize (Hm w).
  destruct (m w) as [a w1|e w1]; simpl in *; [|done].
  eapply R_trans; [done|apply Hf].
Qed.

Lemma keeps_emit ev : keeps R (emit ev).
Proof. intros w. by apply R_files. Qed.

Lemma keeps_Dataset_open_A path : P path → keeps R (Dataset_open path ModeA).
Proof.
  intros HP w. rewrite Dataset_open_A_Ok. cbn [world_of].
  destruct (files w !! path) eqn:Hfile; [by apply R_files|].
  by eapply R_new.
Qed.

Lemma keeps_Dataset_open_R path : keeps R (Dataset_open path ModeR).
Proof.
  unfold Dataset_open. apply keeps_bind; [apply keeps_reads, reads_read_file|].
  intros _. apply keeps_emit.
Qed.

Lemma keeps_put path gname vname p :
  (∀ a, keeps R (file_var_store path gname vname a)) →
  keeps R (put path gname vname p).
Proof.
  intros Hstore. destruct p as [a|f a|f]; simpl.
  - apply Hstore.
  - apply keeps_bind; [apply Hstore|]. intros _. apply keeps_reads, reads_raise.
  - apply keeps_reads, reads_raise.
Qed.

(** The write and its check change the state by the one assignment of
    line 118 or 121 only. *)
Lemma keeps_write_and_check g sos_ds group prior prior_indexes data test_indexes :
  (∀ a, keeps R (file_var_store sos_ds group prior a)) →
  keeps R (write_and_check g sos_ds group prior prior_indexes data test_indexes).
Proof.
  intros Hstore. unfold write_and_check. destruct (has_var g "value_t").
  - apply keeps_bind; [apply keeps_reads, reads_group_var|]; intros value_t.
    apply keeps_bind; [apply keeps_reads, reads_lift|]; intros prior_t.
    apply keeps_bind; [apply keeps_reads, reads_file_var|]; intros sos_tv.
    apply keeps_bind; [apply keeps_reads, reads_lift|]; intros sos_t.
    apply keeps_bind; [apply keeps_reads, reads_offsets|]; intros index_t.
    apply keeps_bind; [apply keeps_reads, reads_lift|]; intros data0.
    apply keeps_bind; [apply keeps_reads, reads_file_variable|]; intros var.
    apply keeps_bind; [by apply keeps_put|]; intros _.
    apply keeps_bind; [apply keeps_reads, reads_file_var|]; intros stored.
    apply keeps_bind; [apply keeps_reads, reads_lift|]; intros back.
    apply keeps_reads, reads_lift.
  - apply keeps_bind; [apply keeps_reads, reads_file_variable|]; intros var.
    apply keeps_bind; [by apply keeps_put|]; intros _.
    apply keeps_bind; [apply keeps_reads, reads_file_var|]; intros stored.
    apply keeps_bind; [apply keeps_reads, reads_lift|]; intros back.
    apply keeps_reads, reads_lift.
Qed.

(** The rest of a pass once the run type is known. *)
Lemma keeps_overwrite_group self sos_dir key g :
  (∀ run_type,
     Nc.gattrs g !! "run_type"%string = Some run_type →
     P (sos_path sos_dir run_type (sos_file self))) →
  (∀ run_type a,
     Nc.gattrs g !! "run_type"%string = Some run_type →
     keeps R (file_var_store (sos_path sos_dir run_type (sos_file self))
                (determine_group (parse_key key).1) (parse_key key).2 a)) →
  keeps R (overwrite_group self sos_dir key g).
Proof.
  intros HP Hstore. unfold overwrite_group.
  destruct (Nc.gattrs g !! "run_type"%string) as [run_type|] eqn:Hrt;
    [|apply keeps_reads; by intros w].
  cbn [lift]. intros w. unfold mbind at 1, M_bind at 1. cbn [mret M_ret].
  revert w. change (keeps R ?m) with (keeps R m).
  apply keeps_bind; [apply keeps_reads, reads_group_var_ints|]; intros prior_indexes.
  apply keeps_bind; [apply keeps_reads, reads_group_var|]; intros data.
  apply keeps_bind; [by apply keeps_Dataset_open_A, HP|]; intros _.
  apply keeps_bind; [apply keeps_reads, reads_test_ids|]; intros [prior_ids sos_ids].
  apply keeps_bind; [apply keeps_reads, reads_ints|]; intros sos_ids'.
  apply keeps_bind; [apply keeps_reads, reads_ints|]; intros prior_ids'.
  apply keeps_bind; [apply keeps_reads, reads_offsets|]; intros test_indexes.
  apply keeps_bind; [apply keeps_write_and_check; intros; by apply Hstore|].
  intros success.
  apply keeps_bind; [rewrite report_status_line; apply keeps_emit|]; intros _.
  apply keeps_bind; [apply keeps_emit|]; intros _.
  apply keeps_reads, reads_mret.
Qed.

Lemma keeps_for_groups body l :
  (∀ key g, keeps R (body key g)) → keeps R (for_groups body l).
Proof.
  intros Hbody. induction l as [|[key g] l IH]; simpl.
  - apply keeps_reads, reads_mret.
  - apply keeps_bind; [apply Hbody|]. intros _. apply IH.
Qed.

End Keeps.

Lemma assoc_assoc_set_ne {A} k k' (v : A) l :
  k' ≠ k → Nc.assoc k' (Nc.assoc_set k v l) = Nc.assoc k' l.
Proof.
  intros Hne. induction l as [|[k0 v0] l IH]; simpl.
  - by destruct (String.eqb_spec k k').
  - destruct (String.eqb_spec k0 k) as [->|Hk0]; simpl.
    + destruct (String.eqb_spec k k'); [congruence|done].
    + by rewrite IH.
Qed.

(** A store that returns replaced the values of an existing variable; a
    store that raises changed nothing. *)
Lemma file_var_store_world path gname vname a w :
  match file_var_store path gname vname a w with
  | Ok _ w' =>
      ∃ ds g v,
        files w !! path = Some ds
        ∧ Nc.assoc gname (Nc.groups ds) = Some g
        ∧ Nc.variables g !! vname = Some v
        ∧ w' = {| files :=
                    <[path :=
                        {| Nc.attrs := Nc.attrs ds;
                           Nc.groups :=
                             Nc.assoc_set gname
                               {| Nc.gattrs := Nc.gattrs g; Nc.dims := Nc.dims g;
                                  Nc.variables :=
                                    <[vname := {| Nc.dtype := Nc.dtype v;
                                                  Nc.dimensions := Nc.dimensions v;
                                                  Nc.data := a |}]>
                                      (Nc.variables g) |}
                               (Nc.groups ds) |}]> (files w);
                  trace := trace w |}
  | Raise _ w' => w' = w
  end.
Proof.
  unfold file_var_store, read_file, lift, write_file, mbind, M_bind, mret, M_ret,
    raise.
  destruct (files w !! path) as [ds|] eqn:Hds; [|done].
  destruct (Nc.assoc gname (Nc.groups ds)) as [g|] eqn:Hg; [|done].
  destruct (Nc.variables g !! vname) as [v|] eqn:Hv; [|done].
  simpl. by exists ds, g, v.
Qed.

Lemma same_but_refl target w : same_but target w w.
Proof. by intros ???. Qed.

Lemma same_but_trans target w1 w2 w3 :
  same_but target w1 w2 → same_but target w2 w3 → same_but target w1 w3.
Proof. intros H12 H23 p g v Hne. by rewrite H23, H12. Qed.

Lemma same_but_files target w w' : files w' = files w → same_but target w w'.
Proof. intros H p g v _. unfold lookup_var. by rewrite H. Qed.

(** A file that is created holds no variable. *)
Lemma same_but_new target w w' path :
  files w !! path = None →
  files w' = <[path:=Nc.empty_dataset]> (files w) → same_but target w w'.
Proof.
  intros Hnone Hw' p g v _. unfold lookup_var. rewrite Hw'.
  destruct (decide (p = path)) as [->|Hne].
  - by rewrite lookup_insert_eq, Hnone.
  - by rewrite lookup_insert_ne.
Qed.

Lemma keeps_same_but_store path gname vname a :
  keeps (same_but (path, gname, vname)) (file_var_store path gname vname a).
Proof.
  intros w. pose proof (file_var_store_world path gname vname a w) as H.
  destruct (file_var_store path gname vname a w) as [u w'|e w']; simpl;
    [|subst; apply same_but_refl].
  destruct H as (ds & g & v & Hds & Hg & Hv & ->).
  intros p1 g1 v1 Hne. unfold lookup_var. cbn [files].
  destruct (decide (p1 = path)) as [->|Hp]; [|by rewrite lookup_insert_ne].
  rewrite lookup_insert_eq, Hds. simpl.
  destruct (decide (g1 = gname)) as [->|Hg1]; [|by rewrite assoc_assoc_set_ne].
  rewrite assoc_assoc_set, Hg. simpl.
  rewrite lookup_insert_ne; [done|]. congruence.
Qed.

Lemma same_group_refl kg : same_group kg kg.
Proof. done. Qed.

Lemma same_group_trans kg1 kg2 kg3 :
  same_group kg1 kg2 → same_group kg2 kg3 → same_group kg1 kg3.
Proof.
  intros (H1 & H2 & H3 & H4) (H1' & H2' & H3' & H4').
  repeat split; [congruence..|]. intros v. by rewrite H4', H4.
Qed.

Lemma same_groups_refl (l : list (string * Nc.Group)) : Forall2 same_group l l.
Proof. induction l; constructor; [apply same_group_refl|done]. Qed.

Lemma same_layout_refl w : same_layout w w.
Proof.
  intros path. destruct (files w !! path); [|done].
  split; [done|apply same_groups_refl].
Qed.

Lemma same_layout_trans w1 w2 w3 :
  same_layout w1 w2 → same_layout w2 w3 → same_layout w1 w3.
Proof.
  intros H12 H23 path. specialize (H12 path). specialize (H23 path).
  destruct (files w1 !! path), (files w2 !! path) as [ds2|],
    (files w3 !! path) as [ds3|]; try done.
  - destruct H12 as [Ha Hg], H23 as [Ha' Hg']. split; [congruence|].
    eapply Forall2_trans; [|done..]. intros ???. apply same_group_trans.
  - subst ds2. destruct H23 as [Ha Hg]. simpl in *.
    apply Forall2_nil_inv_l in Hg. destruct ds3. simpl in *. by subst.
Qed.

Lemma same_layout_files w w' : files w' = files w → same_layout w w'.
Proof.
  intros H path. rewrite H. destruct (files w !! path); [|done].
  split; [done|apply same_groups_refl].
Qed.

Lemma same_layout_new w w' path :
  files w !! path = None →
  files w' = <[path:=Nc.empty_dataset]> (files w) → same_layout w w'.
Proof.
  intros Hnone Hw' p. rewrite Hw'.
  destruct (decide (p = path)) as [->|Hne].
  - by rewrite lookup_insert_eq, Hnone.
  - rewrite lookup_insert_ne by done. apply same_layout_refl.
Qed.

Lemma new_files_refl P w : new_files P w w.
Proof. intros path Hnone [ds Hds]. congruence. Qed.

Lemma new_files_trans P w1 w2 w3 :
  new_files P w1 w2 → new_files P w2 w3 → new_files P w1 w3.
Proof.
  intros H12 H23 path Hnone Hsome.
  destruct (files w2 !! path) as [ds|] eqn:H2.
  - apply H12; [done|]. by rewrite H2.
  - by apply H23.
Qed.

Lemma new_files_files P w w' : files w' = files w → new_files P w w'.
Proof. intros H path Hnone [ds Hds]. congruence. Qed.

Lemma new_files_new (P : string → Prop) w w' path :
  P path → files w' = <[path:=Nc.empty_dataset]> (files w) → new_files P w w'.
Proof.
  intros HP Hw' p Hnone [ds Hds]. rewrite Hw' in Hds.
  destruct (decide (p = path)) as [->|Hne]; [done|].
  rewrite lookup_insert_ne in Hds by done. congruence.
Qed.

(** A store changes the files that are there only. *)
Lemma keeps_new_files_store P path gname vname a :
  keeps (new_files P) (file_var_store path gname vname a).
Proof.
  intros w. pose proof (file_var_store_world path gname vname a w) as H.
  destruct (file_var_store path gname vname a w) as [u w'|e w']; simpl;
    [|subst; apply new_files_refl].
  destruct H as (ds & g & v & Hds & Hg & Hv & ->).
  intros p Hnone [ds' Hds']. cbn [files] in Hds'.
  destruct (decide (p = path)) as [->|Hne]; [congruence|].
  rewrite lookup_insert_ne in Hds' by done. congruence.
Qed.

(** Replacing the first group found under a name by a group of the same
    layout keeps the layout of the list. *)
Lemma same_group_assoc_set k g g' l :
  Nc.assoc k l = Some g → same_group (k, g) (k, g') →
  Forall2 same_group l (Nc.assoc_set k g' l).
Proof.
  intros Hg Hsame. induction l as [|[k0 g0] l IH]; simpl in *; [done|].
  destruct (String.eqb_spec k0 k) as [->|Hne].
  - injection Hg as ->. constructor; [done|apply same_groups_refl].
  - constructor; [apply same_group_refl|by apply IH].
Qed.

Lemma keeps_same_layout_store path gname vname a :
  keeps same_layout (file_var_store path gname vname a).
Proof.
  intros w. pose proof (file_var_store_world path gname vname a w) as H.
  destruct (file_var_store path gname vname a w) as [u w'|e w']; simpl;
    [|subst; apply same_layout_refl].
  destruct H as (ds & g & v & Hds & Hg & Hv & ->).
  intros p1. cbn [files].
  destruct (decide (p1 = path)) as [->|Hp].
  - rewrite lookup_insert_eq, Hds. split; [done|]. cbn [Nc.groups].
    apply (same_group_assoc_set _ g); [done|].
    repeat split; try done. intros v1. cbn [snd Nc.variables].
    destruct (decide (v1 = vname)) as [->|Hv1].
    + by rewrite lookup_insert_eq, Hv.
    + by rewrite lookup_insert_ne.
  - rewrite lookup_insert_ne by done.
    pose proof (same_layout_refl w p1) as Hrefl. exact Hrefl.
Qed.

End Frame.

(** X5. What one pass changes.  Whether the pass over a group returns
    or raises, every variable of every file holds afterwards what it held
    before, except the one variable the pass writes: the variable named
    by the parsed prior, in the group that [determine_group] gives for
    the parsed source, in the store of the group's run type.  A group
    without run type changes nothing at all. *)
Theorem pass_changes_one_variable (self : Overwrite.t) (sos_dir key : string)
    (g : Nc.Group) (w : Eff.World) (path gname vname : string) :
  Obs.lookup_var (world_of (Overwrite.overwrite_group self sos_dir key g w))
    path gname vname
  ≠ Obs.lookup_var w path gname vname →
  ∃ run_type,
    Nc.gattrs g !! "run_type"%string = Some run_type
    ∧ path = Overwrite.sos_path sos_dir run_type (Overwrite.sos_file self)
    ∧ gname = Overwrite.determine_group (Overwrite.parse_key key).1
    ∧ vname = (Overwrite.parse_key key).2.
Proof.
  intros Hchanged.
  destruct (Nc.gattrs g !! "run_type"%string) as [run_type|] eqn:Hrt.
  - exists run_type. split; [done|].
    destruct (decide ((path, gname, vname)
                      = (Overwrite.sos_path sos_dir run_type (Overwrite.sos_file self),
                         Overwrite.determine_group (Overwrite.parse_key key).1,
                         (Overwrite.parse_key key).2))) as [[= -> -> ->]|Hne]; [done|].
    exfalso. apply Hchanged.
    refine (keeps_overwrite_group (Obs.same_but _) (λ _, True) (same_but_refl _)
              (same_but_trans _) (same_but_files _) _ self sos_dir key g _ _ w
              path gname vname Hne).
    + intros w0 w0' p _. apply same_but_new.
    + done.
    + intros rt a Hrt'. rewrite Hrt in Hrt'. injection Hrt' as <-.
      apply keeps_same_but_store.
  - exfalso. apply Hchanged. unfold Overwrite.overwrite_group. by rewrite Hrt.
Qed.

Lemma pass_changes_one_variable_witness :
  ∃ run_type,
    Nc.gattrs Example.flow !! "run_type"%string = Some run_type
    ∧ Example.sos_ds
      = Overwrite.sos_path "data" run_type (Overwrite.sos_file Example.self)
    ∧ "model"%string = Overwrite.determine_group (Overwrite.parse_key "wbm_flow").1
    ∧ "flow"%string = (Overwrite.parse_key "wbm_flow").2.
Proof.
  apply (pass_changes_one_variable Example.self "data" "wbm_flow" Example.flow
           Example.world Example.sos_ds "model" "flow").
  intros H. vm_compute in H. discriminate H.
Defined.

(** X6. What a run never changes.  Whether [overwrite] returns or
    raises, every file of the state it started from is a file of the
    state it ends in, with the same global attributes and the same groups
    in the same order, each group with the same attributes, the same
    dimensions and the same variables of the same declared type and
    dimensions: nothing is removed, renamed or retyped, only the values
    held by variables can differ.  The one thing a run can add is a file
    without attributes and groups, which opening a store to append
    (line 101) leaves where no store was; such a file is at the path of a
    store of [sos_dir], a run type directory followed by the name of the
    store. *)
Theorem overwrite_keeps_layout (self : Overwrite.t) (sos_dir : string)
    (w : Eff.World) :
  Obs.same_layout w (world_of (Overwrite.overwrite self sos_dir w))
  ∧ Obs.new_files (Obs.store_path sos_dir (Overwrite.sos_file self)) w
      (world_of (Overwrite.overwrite self sos_dir w)).
Proof.
  set (P := Obs.store_path sos_dir (Overwrite.sos_file self)).
  set (R := λ w w', Obs.same_layout w w' ∧ Obs.new_files P w w').
  revert w. change (Obs.keeps R (Overwrite.overwrite self sos_dir)).
  assert (∀ w, R w w) as Hr.
  { intros w. split; [apply same_layout_refl|apply new_files_refl]. }
  assert (∀ w1 w2 w3, R w1 w2 → R w2 w3 → R w1 w3) as Ht.
  { intros w1 w2 w3 [H12 N12] [H23 N23].
    split; [by eapply same_layout_trans|by eapply new_files_trans]. }
  assert (∀ w w', Eff.files w' = Eff.files w → R w w') as Hf.
  { intros w w' H. split; [by apply same_layout_files|by apply new_files_files]. }
  assert (∀ w w' path, P path → Eff.files w !! path = None →
            Eff.files w' = <[path:=Nc.empty_dataset]> (Eff.files w) → R w w') as Hn.
  { intros w w' path HP Hnone Hw'.
    split; [by eapply same_layout_new|by eapply new_files_new]. }
  unfold Overwrite.overwrite.
  apply keeps_bind; [done| |]; [by apply keeps_Dataset_open_R|]. intros _.
  apply keeps_bind; [done| |]; [apply keeps_reads, reads_read_file; done|].
  intros priors_ds.
  apply keeps_bind; [done| |]; [|intros _; by apply keeps_emit].
  apply keeps_for_groups; [done..|]. intros key g.
  apply (keeps_overwrite_group R P); [done..| |].
  - intros run_type _. by exists run_type.
  - intros run_type a _ w. split.
    + apply keeps_same_layout_store.
    + apply keeps_new_files_store.
Qed.

(** ** The check of a two-axis record *)

Section TimeCheck.

Import Eff Run Obs Overwrite.

Lemma group_var_Ok g name a w w' :
  group_var g name w = Ok a w' ↔
  (∃ v, Nc.variables g !! name = Some v ∧ a = Nc.data v) ∧ w = w'.
Proof.
  unfold group_var, lift, mbind, M_bind, mret, M_ret, raise.
  destruct (Nc.variables g !! name) as [v|]; split.
  - intros [= <- <-]. eauto.
  - intros [(v' & [= <-] & ->) ->]. done.
  - done.
  - by intros [(v' & ? & _) _].
Qed.

Lemma test_ids_record_ids source g sos_ds w a b w' :
  test_ids source g sos_ds w = Ok (a, b) w' → record_ids g = Some a.
Proof.
  unfold test_ids, has_var, record_ids. case_bool_decide as Hreach.
  - intros H. unfold retrieve_ids in H.
    assert (∃ sos_ids w1, group_var g "reach_id" w = Ok a w1
                          ∧ mret (M := M) (a, sos_ids) w' = Ok (a, b) w') as Hget.
    { repeat case_match;
        apply bind_Ok in H as (pa & w1 & Hpa & H);
        apply bind_Ok in H as (sa & w2 & Hsa & H);
        apply mret_Ok in H as [[= -> ->] ->]; eauto. }
    destruct Hget as (_ & w1 & Hpa & _).
    apply group_var_Ok in Hpa as [(v & Hv & ->) _]. by rewrite Hv.
  - intros H.
    apply bind_Ok in H as (pa & w1 & Hpa & H).
    apply bind_Ok in H as (sa & w2 & Hsa & H).
    apply mret_Ok in H as [[= -> ->] ->].
    apply group_var_Ok in Hpa as [(v & Hv & ->) _].
    destruct (Nc.variables g !! "reach_id"%string) as [vr|] eqn:Hvr.
    + exfalso. apply Hreach. by eexists.
    + by rewrite Hv.
Qed.

Lemma broadcast2_lengths {A B} (a : list A) (b : list B) ps :
  NpArr.broadcast2 a b = Some ps →
  length a = length b ∨ length a = 1 ∨ length b = 1.
Proof.
  unfold NpArr.broadcast2. case_decide; [by left|].
  destruct a as [|x [|x' a]], b as [|y [|y' b]]; simpl; intros; try done; auto.
Qed.

Lemma first_row_int_length a labels :
  NpArr.first_row_int a = Some labels →
  ∃ row, NpArr.first_row a = Some row ∧ length labels = length row.
Proof.
  unfold NpArr.first_row_int. destruct (NpArr.first_row a) as [row|]; [|done].
  intros [= <-]. exists row. by rewrite length_map.
Qed.

End TimeCheck.

(** X7. A pass over a record with a time vector completes only for
    matching counts.  The read-back of line 119 pairs the offsets of the
    records with the offsets of the time labels, so when the pass
    returns, the number of identifiers of the record and the number of
    time labels in the first row of [value_t] are equal, or one of the
    two is 1. *)
Theorem time_check_pairs_offsets (self : Overwrite.t) (sos_dir key : string)
    (g : Nc.Group) (w w' : Eff.World) (success : bool) (vt : Nc.NcVariable) :
  Overwrite.overwrite_group self sos_dir key g w = Eff.Ok success w' →
  Nc.variables g !! "value_t"%string = Some vt →
  ∃ ids labels,
    Obs.record_ids g = Some (IntVec ids)
    ∧ NpArr.first_row (Nc.data vt) = Some labels
    ∧ (length ids = length labels ∨ length ids = 1 ∨ length labels = 1).
Proof.
  intros H Hvt.
  apply overwrite_group_Ok in H
    as (run_type & prior_indexes & data & prior_ids & sos_ids & test_indexes & w2
        & _ & _ & _ & _ & Hids & Hoff & Hwc & _).
  apply test_ids_record_ids in Hids.
  apply resolve_offsets_length in Hoff.
  apply write_and_check_Ok in Hwc as (var & stored & _ & _ & Hcheck).
  assert (Overwrite.has_var g "value_t" = true) as Hhas.
  { unfold Overwrite.has_var. apply bool_decide_eq_true_2. by eexists. }
  rewrite Hhas in Hcheck.
  destruct Hcheck as (value_t & sos_tv & prior_t & sos_t & index_t & data0 & back
                      & Hvalue_t & Hprior_t & _ & _ & Hit & _ & _ & Hback & _).
  apply group_var_Ok in Hvalue_t as [(v & Hv & ->) _].
  rewrite Hvt in Hv. injection Hv as <-.
  apply first_row_int_length in Hprior_t as (labels & Hrow & Hlen).
  apply resolve_offsets_length in Hit.
  exists prior_ids, labels. split; [done|]. split; [done|].
  unfold NpArr.getitem_pairs in Hback. destruct stored as [| |m]; try done.
  destruct (NpArr.broadcast2 test_indexes index_t) as [ps|] eqn:Hps; [|done].
  apply broadcast2_lengths in Hps. lia.
Qed.

Lemma time_check_pairs_offsets_witness :
  ∃ ids labels,
    Obs.record_ids Example.daily = Some (IntVec ids)
    ∧ NpArr.first_row (Mat [[2002; 2001]; [2002; 2001]]%Q) = Some labels
    ∧ (length ids = length labels ∨ length ids = 1 ∨ length labels = 1).
Proof.
  apply (time_check_pairs_offsets Example.self "data" "grdc_grdc_q" Example.daily
           Example.world
           (Example.after "grdc_grdc_q" Example.daily Example.world) true
           (Example.var (Mat [[2002; 2001]; [2002; 2001]]%Q))).
  - vm_compute. reflexivity.
  - vm_compute. reflexivity.
Defined.

(** ** The check of a scalar prior written at the recomputed offsets *)





(** ** The writer, step by step *)

Section WriterSteps.

Import Eff Run Obs PriorStore.
Local Open Scope string_scope.

Lemma group_at_insert w path a gs name g tr :
  group_at {| files := <[path := {| Nc.attrs := a;
                                    Nc.groups := Nc.assoc_set name g gs |}]> (files w);
              trace := tr |} (path, name) = Some g.
Proof.
  unfold group_at. cbn [files fst snd]. rewrite lookup_insert_eq. simpl.
  apply assoc_assoc_set.
Qed.

Lemma result_Ok {A} (r : Nc.Res A) w a w' :
  result r w = Ok a w' ↔ r = Nc.Got a ∧ w = w'.
Proof.
  destruct r as [a0|f]; simpl.
  - rewrite mret_Ok. split; [by intros [-> ->]|by intros [[= ->] ->]].
  - unfold raise. split; [done|by intros [? _]].
Qed.

(** A group operation that returns has read the group behind the
    handle, computed a new group from it without touching the state, and
    put it back. *)
Lemma with_group_Ok h f w u w' :
  (∀ g, reads (f g)) →
  with_group h f w = Ok u w' →
  ∃ g g', group_at w h = Some g ∧ f g w = Ok g' w
          ∧ group_at w' h = Some g' ∧ trace w' = trace w.
Proof.
  intros Hf H. unfold with_group in H.
  apply bind_Ok in H as (ds & w0 & Hds & H).
  pose proof (reads_Ok _ _ _ _ (reads_read_file _) Hds) as ->.
  apply bind_Ok in H as (g & w0 & Hg & H). apply lift_Ok in Hg as [Hg <-].
  apply bind_Ok in H as (g' & w0 & Hg' & H).
  pose proof (reads_Ok _ _ _ _ (Hf g) Hg') as ->.
  unfold write_file in H. injection H as _ <-.
  unfold read_file in Hds. destruct (files w !! h.1) as [ds0|] eqn:Hfile; [|done].
  injection Hds as ->.
  exists g, g'. repeat split; try done.
  - unfold group_at. by rewrite Hfile.
  - destruct h as [path name]. apply group_at_insert.
Qed.

Lemma set_gattr_Ok h name value w u w' :
  set_gattr h name value w = Ok u w' →
  ∃ g, group_at w h = Some g ∧ group_at w' h = Some (with_gattr g name value).
Proof.
  intros H. apply with_group_Ok in H as (g & g' & Hg & Hf & Hg' & _);
    [|intros; apply reads_mret].
  apply mret_Ok in Hf as [<- _]. by exists g.
Qed.

Lemma createDimension_Ok h name size w u w' :
  createDimension h name size w = Ok u w' →
  ∃ g, group_at w h = Some g ∧ Nc.assoc name (Nc.dims g) = None
       ∧ group_at w' h = Some (with_dims g [(name, size)]).
Proof.
  intros H. apply with_group_Ok in H as (g & g' & Hg & Hf & Hg' & _).
  - destruct (Nc.assoc name (Nc.dims g)) as [s|] eqn:Hdim; [done|].
    apply mret_Ok in Hf as [<- _]. by exists g.
  - intros g. case_match; [apply reads_raise|apply reads_mret].
Qed.

Lemma createVariable_Ok h name ty dimensions w u w' :
  createVariable h name ty dimensions w = Ok u w' →
  ∃ g, group_at w h = Some g ∧ Nc.variables g !! name = None
       ∧ Forall (λ d, is_Some (Nc.assoc d (Nc.dims g))) dimensions
       ∧ is_Some (Nc.kind_of ty)
       ∧ group_at w' h
         = Some (with_variable g name
                   {| Nc.dtype := ty; Nc.dimensions := dimensions;
                      Nc.data := Vec [] |}).
Proof.
  intros H. apply with_group_Ok in H as (g & g' & Hg & Hf & Hg' & _).
  - destruct (Nc.variables g !! name) as [v|] eqn:Hv; [done|].
    destruct (list_find _ dimensions) as [[i d]|] eqn:Hfind; [done|].
    apply bind_Ok in Hf as (k & w0 & Hk & Hf). apply lift_Ok in Hk as [Hk <-].
    apply mret_Ok in Hf as [<- _]. exists g. repeat split; try done.
    apply list_find_None in Hfind. eapply Forall_impl; [done|].
    intros d Hd. simpl in Hd. destruct (Nc.assoc d (Nc.dims g)); [by eexists|done].
  - intros g. repeat case_match; try apply reads_raise.
    apply reads_bind; [apply reads_lift|]. intros; apply reads_mret.
Qed.

Lemma assign_Ok h name a w u w' :
  assign h name a w = Ok u w' →
  ∃ g v shape a',
    group_at w h = Some g ∧ Nc.variables g !! name = Some v
    ∧ shape_in g (Nc.dimensions v) = Some shape
    ∧ Nc.fill (Nc.dtype v) shape a = Nc.Got a'
    ∧ group_at w' h
      = Some (with_variable g name
                {| Nc.dtype := Nc.dtype v; Nc.dimensions := Nc.dimensions v;
                   Nc.data := a' |}).
Proof.
  intros H. apply with_group_Ok in H as (g & g' & Hg & Hf & Hg' & _).
  - apply bind_Ok in Hf as (v & w0 & Hv & Hf). apply lift_Ok in Hv as [Hv <-].
    apply bind_Ok in Hf as (shape & w0 & Hs & Hf). apply lift_Ok in Hs as [Hs <-].
    apply bind_Ok in Hf as (a' & w0 & Ha & Hf). apply result_Ok in Ha as [Ha <-].
    apply mret_Ok in Hf as [<- _]. by exists g, v, shape, a'.
  - intros g. apply reads_bind; [apply reads_lift|]. intros v.
    apply reads_bind; [apply reads_lift|]. intros shape.
    apply reads_bind; [apply reads_result|]. intros; apply reads_mret.
Qed.

(** The group that [createGroup] returns a handle to is the group that
    was there, or a new empty one at the end of the file. *)
Lemma createGroup_Ok path name w h w' :
  createGroup path name w = Ok h w' →
  h = (path, name)
  ∧ ∃ g0, group_at w' h = Some g0
          ∧ (group_at w h = Some g0 ∨ group_at w h = None ∧ g0 = Nc.empty_group)
          ∧ attrs_at w' path = attrs_at w path.
Proof.
  unfold createGroup. intros H.
  apply bind_Ok in H as (ds & w0 & Hds & H).
  pose proof (reads_Ok _ _ _ _ (reads_read_file _) Hds) as ->.
  unfold read_file in Hds. destruct (files w !! path) as [ds0|] eqn:Hfile; [|done].
  injection Hds as ->.
  destruct (Nc.assoc name (Nc.groups ds)) as [g|] eqn:Hg.
  - apply mret_Ok in H as [<- <-]. split; [done|]. exists g.
    unfold group_at. cbn [fst snd]. rewrite Hfile. simpl. auto.
  - apply bind_Ok in H as (u & w1 & Hw & H). apply mret_Ok in H as [<- <-].
    unfold write_file in Hw. injection Hw as _ <-. split; [done|].
    exists Nc.empty_group. unfold group_at, attrs_at. cbn [fst snd files].
    rewrite lookup_insert_eq, Hfile. simpl. split; [|split; [by right|done]].
    clear Hfile. induction (Nc.groups ds) as [|[k v] l IH]; simpl in *.
    + by rewrite String.eqb_refl.
    + destruct (String.eqb_spec k name); [done|]. by apply IH.
Qed.

Lemma assoc_app {A} k (l1 l2 : list (string * A)) :
  Nc.assoc k (l1 ++ l2)
  = match Nc.assoc k l1 with Some v => Some v | None => Nc.assoc k l2 end.
Proof.
  induction l1 as [|[k' v] l1 IH]; simpl; [done|].
  by destruct (String.eqb_spec k' k).
Qed.

Lemma with_dims_nil g : with_dims g [] = g.
Proof. destruct g. unfold with_dims. simpl. by rewrite app_nil_r. Qed.

Lemma with_dims_cons g c cs : with_dims (with_dims g [c]) cs = with_dims g (c :: cs).
Proof. unfold with_dims. simpl. by rewrite <- app_assoc. Qed.

(** A sequence of [createDimension] calls that returns met no name twice
    and added the dimensions in order. *)
Lemma create_dimension_calls_Ok h calls w u w' g :
  group_at w h = Some g →
  for_each calls (λ d, createDimension h d.1 d.2) w = Ok u w' →
  group_at w' h = Some (with_dims g calls)
  ∧ NoDup calls.*1
  ∧ ∀ c, c ∈ calls → Nc.assoc c.1 (Nc.dims g) = None.
Proof.
  revert w g. induction calls as [|[k s] calls IH]; simpl; intros w g Hg H.
  - apply mret_Ok in H as [_ <-]. rewrite with_dims_nil.
    repeat split; [done|constructor|]. by intros c ?%elem_of_nil.
  - apply bind_Ok in H as (u1 & w1 & Hc & H).
    apply createDimension_Ok in Hc as (g1 & Hg1 & Hfree & Hw1).
    rewrite Hg in Hg1. injection Hg1 as <-.
    destruct (IH _ _ Hw1 H) as (Hw' & Hnd & Hall).
    rewrite with_dims_cons in Hw'. split; [done|].
    assert (∀ c', c' ∈ calls →
                  Nc.assoc c'.1 (Nc.dims g) = None ∧ c'.1 ≠ k) as Hrest.
    { intros c' Hc'. specialize (Hall c' Hc'). cbn [with_dims Nc.dims] in Hall.
      rewrite assoc_app in Hall.
      destruct (Nc.assoc c'.1 (Nc.dims g)); [done|]. split; [done|].
      simpl in Hall.
      destruct (String.eqb_spec k c'.1); [done|]. congruence. }
    split.
    + apply NoDup_cons. split; [|done].
      intros Hin. apply list_elem_of_fmap in Hin as (c' & Heq & Hc').
      by destruct (Hrest c' Hc').
    + intros c' [->|Hc']%elem_of_cons; [done|]. by destruct (Hrest c' Hc').
Qed.

Lemma with_variable_twice g name v1 v2 :
  with_variable (with_variable g name v1) name v2 = with_variable g name v2.
Proof. unfold with_variable. simpl. by rewrite insert_insert_eq. Qed.

Lemma shape_in_cons g d ds shape :
  shape_in g (d :: ds) = Some shape ↔
  ∃ n rest, Nc.assoc d (Nc.dims g) = Some n ∧ shape_in g ds = Some rest
            ∧ shape = n :: rest.
Proof.
  unfold shape_in. cbn [mapM]. destruct (Nc.assoc d (Nc.dims g)) as [n|]; simpl.
  - destruct (mapM _ ds) as [rest|]; simpl.
    + split; [intros [= <-]; by eexists _, _|by intros (? & ? & [= <-] & [= <-] & ->)].
    + split; [done|by intros (? & ? & _ & ? & _)].
  - split; [done|by intros (? & ? & ? & _)].
Qed.

(** A variable declared over [dimensions] and then given its values: it
    holds the values converted to its type and made to its shape. *)
Lemma declare_assign_Ok h name ty dimensions a w w1 w' u1 u g :
  group_at w h = Some g →
  createVariable h name ty dimensions w = Ok u1 w1 →
  assign h name a w1 = Ok u w' →
  Nc.variables g !! name = None
  ∧ Forall (λ d, is_Some (Nc.assoc d (Nc.dims g))) dimensions
  ∧ ∃ shape a',
      shape_in g dimensions = Some shape
      ∧ Nc.fill ty shape a = Nc.Got a'
      ∧ group_at w' h
        = Some (with_variable g name
                  {| Nc.dtype := ty; Nc.dimensions := dimensions; Nc.data := a' |}).
Proof.
  intros Hg Hc Hassign.
  apply createVariable_Ok in Hc as (g0 & Hg0 & Hfree & Hdims & _ & Hw1).
  rewrite Hg in Hg0. injection Hg0 as <-.
  apply assign_Ok in Hassign as (g2 & v & shape & a' & Hg2 & Hv & Hs & Hfill & Hw').
  rewrite Hw1 in Hg2. injection Hg2 as <-.
  cbn [with_variable Nc.variables] in Hv. rewrite lookup_insert_eq in Hv.
  injection Hv as <-. rewrite with_variable_twice in Hw'. simpl in *.
  split; [done|]. split; [done|]. by exists shape, a'.
Qed.

(** A list of integers written whole to a variable of an integer type
    is stored as it is, over a dimension of its length. *)
Lemma fill_ints ty lo hi n l s :
  Nc.kind_of ty = Some (Nc.KInt lo hi) →
  Nc.fill ty [n] (IntVec l) = Nc.Got s →
  s = IntVec l ∧ n = Some (length l).
Proof.
  unfold Nc.fill. intros -> H. cbn [Nc.need mbind Nc.Res_bind Nc.from_list] in H.
  destruct (mapM (Nc.convert (Nc.KInt lo hi) false) (inject_Z <$> l))
    as [l'|] eqn:Hl'; [|done].
  cbn [Nc.need fmap Nc.Res_fmap mbind Nc.Res_bind] in H.
  pose proof (length_mapM _ _ _ Hl') as Hlen. rewrite length_fmap in Hlen.
  apply convert_int in Hl'.
  assert (NpArr.Qtrunc <$> l' = l) as Htr.
  { subst l'. rewrite <- !list_fmap_compose. apply list_eq. intros i.
    rewrite list_lookup_fmap. destruct (l !! i) as [z|]; [|done]. simpl.
    by rewrite !Qtrunc_inject_Z. }
  destruct n as [n|]; cbn [Nc.fit] in H; [|done].
  case_decide as Hn; [|done].
  cbn [mbind Nc.Res_bind mret Nc.Res_ret Nc.typed Nc.pack] in H.
  injection H as <-. rewrite Htr. split; [done|]. f_equal. lia.
Qed.

(** Data of the declared shape written whole to a variable of double
    precision are stored as they are. *)
Lemma fill_exact ty shape a :
  Nc.kind_of ty = Some Nc.KFloat → has_shape shape a → Nc.fill ty shape a = Nc.Got a.
Proof.
  unfold Nc.fill, has_shape. intros -> H. cbn [Nc.need mbind Nc.Res_bind].
  assert (∀ m : list (list Q),
            mapM (mapM (Nc.convert Nc.KFloat false)) m = Some m) as Hrows.
  { intros m. apply mapM_Some. induction m; constructor; [apply convert_float|done]. }
  destruct shape as [|[n|] [|[k|] [|? ?]]], a as [l1|l2|m]; try done.
  - cbn [Nc.from_list]. rewrite convert_float.
    cbn [Nc.need fmap Nc.Res_fmap mbind Nc.Res_bind Nc.fit].
    by rewrite decide_True.
  - cbn [Nc.from_list]. rewrite H, Hrows.
    cbn [Nc.need fmap Nc.Res_fmap mbind Nc.Res_bind Nc.fit]. rewrite H.
    cbn [Nc.need mbind Nc.Res_bind]. rewrite decide_True by auto.
    unfold Nc.conform2. by rewrite decide_True.
  - destruct H as [c H]. cbn [Nc.from_list]. rewrite H, Hrows.
    cbn [Nc.need fmap Nc.Res_fmap mbind Nc.Res_bind Nc.fit]. rewrite H.
    cbn [Nc.need mbind Nc.Res_bind].
    unfold Nc.conform2. by rewrite decide_True.
Qed.

(** An identifier or index variable, declared and written. *)
Lemma declare_assign_ints h name ty lo hi dim l w w1 w' u1 u g :
  group_at w h = Some g →
  createVariable h name ty [dim] w = Ok u1 w1 →
  assign h name (IntVec l) w1 = Ok u w' →
  Nc.kind_of ty = Some (Nc.KInt lo hi) →
  Nc.variables g !! name = None
  ∧ Nc.assoc dim (Nc.dims g) = Some (Some (length l))
  ∧ group_at w' h
    = Some (with_variable g name
              {| Nc.dtype := ty; Nc.dimensions := [dim]; Nc.data := IntVec l |}).
Proof.
  intros Hg Hc Ha Hk.
  destruct (declare_assign_Ok _ _ _ _ _ _ _ _ _ _ _ Hg Hc Ha)
    as (Hfree & _ & shape & a' & Hs & Hfill & Hw').
  apply shape_in_cons in Hs as (n & rest & Hn & Hrest & ->).
  injection Hrest as <-.
  destruct (fill_ints _ _ _ _ _ _ Hk Hfill) as [-> ->]. done.
Qed.

(** The identifier and index variables of a reach branch. *)
Lemma reach_variables_Ok data h w u w' g :
  group_at w h = Some g →
  reach_variables data h w = Ok u w' →
  ∃ ids idx,
    reach_ids data = Some ids ∧ indexes data = Some idx
    ∧ Nc.variables g !! "reach_id" = None
    ∧ Nc.variables g !! "indexes" = None
    ∧ Nc.assoc "num_reaches" (Nc.dims g) = Some (Some (length ids))
    ∧ length idx = length ids
    ∧ group_at w' h
      = Some (with_variable
                (with_variable g "reach_id"
                   {| Nc.dtype := "i8"; Nc.dimensions := ["num_reaches"];
                      Nc.data := IntVec ids |})
                "indexes"
                {| Nc.dtype := "i4"; Nc.dimensions := ["num_reaches"];
                   Nc.data := IntVec idx |}).
Proof.
  unfold reach_variables. intros Hg H.
  apply bind_Ok in H as (u1 & w1 & Hc1 & H).
  apply bind_Ok in H as (ids & w0 & Hids & H). apply lift_Ok in Hids as [Hids <-].
  apply bind_Ok in H as (u2 & w2 & Ha1 & H).
  destruct (declare_assign_ints _ _ _ _ _ _ _ _ _ _ _ _ _ Hg Hc1 Ha1 eq_refl)
    as (Hfree1 & Hdim1 & Hw2).
  apply bind_Ok in H as (u3 & w3 & Hc2 & H).
  apply bind_Ok in H as (idx & w0 & Hidx & H). apply lift_Ok in Hidx as [Hidx <-].
  destruct (declare_assign_ints _ _ _ _ _ _ _ _ _ _ _ _ _ Hw2 Hc2 H eq_refl)
    as (Hfree2 & Hdim2 & Hw').
  cbn [with_variable Nc.variables Nc.dims] in Hfree2, Hdim2.
  rewrite lookup_insert_ne in Hfree2 by done.
  exists ids, idx. repeat split; try done. congruence.
Qed.

(** The variable [prior_values]. *)
Lemma prior_values_Ok data h dimensions w u w' g :
  group_at w h = Some g →
  PriorStore.prior_values data h dimensions w = Ok u w' →
  ∃ ty vals shape stored,
    data_type data = Some ty ∧ values data = Some vals
    ∧ Nc.variables g !! "prior_values" = None
    ∧ Forall (λ d, is_Some (Nc.assoc d (Nc.dims g))) dimensions
    ∧ shape_in g dimensions = Some shape
    ∧ Nc.fill ty shape vals = Nc.Got stored
    ∧ group_at w' h
      = Some (with_variable g "prior_values"
                {| Nc.dtype := ty; Nc.dimensions := dimensions; Nc.data := stored |}).
Proof.
  unfold PriorStore.prior_values. intros Hg H.
  apply bind_Ok in H as (ty & w0 & Hty & H). apply lift_Ok in Hty as [Hty <-].
  apply bind_Ok in H as (u1 & w1 & Hc & H).
  apply bind_Ok in H as (vals & w0 & Hvals & H). apply lift_Ok in Hvals as [Hvals <-].
  destruct (declare_assign_Ok _ _ _ _ _ _ _ _ _ _ _ Hg Hc H)
    as (Hfree & Hdims & shape & stored & Hs & Hfill & Hw').
  by exists ty, vals, shape, stored.
Qed.

(** The variables of a reach branch: identifiers, indexes and values
    over [num_reaches] and the further dimensions [second]. *)
Lemma reach_branch_Ok data h second w u w' g :
  group_at w h = Some g →
  (reach_variables data h ;; PriorStore.prior_values data h ("num_reaches" :: second))
    w = Ok u w' →
  ∃ ids idx ty vals sizes stored,
    reach_ids data = Some ids ∧ indexes data = Some idx
    ∧ data_type data = Some ty ∧ values data = Some vals
    ∧ Nc.variables g !! "reach_id" = None
    ∧ Nc.variables g !! "indexes" = None
    ∧ Nc.variables g !! "prior_values" = None
    ∧ Forall (λ d, is_Some (Nc.assoc d (Nc.dims g))) ("num_reaches" :: second)
    ∧ Nc.assoc "num_reaches" (Nc.dims g) = Some (Some (length ids))
    ∧ length idx = length ids
    ∧ shape_in g second = Some sizes
    ∧ Nc.fill ty (Some (length ids) :: sizes) vals = Nc.Got stored
    ∧ group_at w' h
      = Some (with_variable
                (with_variable
                   (with_variable g "reach_id"
                      {| Nc.dtype := "i8"; Nc.dimensions := ["num_reaches"];
                         Nc.data := IntVec ids |})
                   "indexes"
                   {| Nc.dtype := "i4"; Nc.dimensions := ["num_reaches"];
                      Nc.data := IntVec idx |})
                "prior_values"
                {| Nc.dtype := ty; Nc.dimensions := "num_reaches" :: second;
                   Nc.data := stored |}).
Proof.
  intros Hg H.
  apply bind_Ok in H as (u1 & w1 & Hr & H).
  apply (reach_variables_Ok _ _ _ _ _ _ Hg) in Hr
    as (ids & idx & Hids & Hidx & Hfree1 & Hfree2 & Hlead & Hlen & Hw1).
  apply (prior_values_Ok _ _ _ _ _ _ _ Hw1) in H
    as (ty & vals & shape & stored & Hty & Hvals & Hfree3 & Hdims3 & Hs & Hfill & Hw').
  apply shape_in_cons in Hs as (n & sizes & Hn & Hsizes & ->).
  cbn [with_variable Nc.variables Nc.dims] in *.
  rewrite !lookup_insert_ne in Hfree3 by done.
  rewrite Hlead in Hn. injection Hn as <-.
  exists ids, idx, ty, vals, sizes, stored. by repeat split.
Qed.

(** What a call of [create_variables] that returns found and left:
    [stored] is what [prior_values] holds, and [svt] what [value_t] holds
    in the daily branch. *)
Lemma create_variables_Ok source prior data h w u w' g :
  group_at w h = Some g →
  create_variables source prior data h w = Ok u w' →
  let c := category source prior in
  ∃ ids idx ty vals stored svt sizes,
    id_values c data = Some ids ∧ indexes data = Some idx
    ∧ data_type data = Some ty ∧ values data = Some vals
    ∧ (c = ReachDaily → is_Some svt)
    ∧ Nc.variables g !! id_variable c = None
    ∧ Nc.variables g !! "indexes" = None
    ∧ Nc.variables g !! "prior_values" = None
    ∧ Forall (λ d, is_Some (Nc.assoc d (Nc.dims g)))
        (lead_dimension c :: second_dimensions c)
    ∧ group_at w' h = Some (written_group c ids idx ty stored svt g)
    ∧ Nc.assoc (lead_dimension c) (Nc.dims g) = Some (Some (length ids))
    ∧ length idx = length ids
    ∧ shape_in g (second_dimensions c) = Some sizes
    ∧ Nc.fill ty (Some (length ids) :: sizes) vals = Nc.Got stored
    ∧ (c = ReachDaily →
       ∃ t st, value_t data = Some t ∧ svt = Some st
               ∧ Nc.fill "f8" (Some (length ids) :: sizes) t = Nc.Got st).
Proof.
  unfold create_variables. intros Hg H. cbv zeta.
  destruct (category source prior) eqn:Hcat.
  - apply bind_Ok in H as (u1 & w1 & Hc1 & H).
    apply bind_Ok in H as (ids & w0 & Hids & H). apply lift_Ok in Hids as [Hids <-].
    apply bind_Ok in H as (u2 & w2 & Ha1 & H).
    destruct (declare_assign_ints _ _ _ _ _ _ _ _ _ _ _ _ _ Hg Hc1 Ha1 eq_refl)
      as (Hfree1 & Hdim1 & Hw2).
    apply bind_Ok in H as (u3 & w3 & Hc2 & H).
    apply bind_Ok in H as (idx & w0 & Hidx & H). apply lift_Ok in Hidx as [Hidx <-].
    apply bind_Ok in H as (u4 & w4 & Ha2 & H).
    destruct (declare_assign_ints _ _ _ _ _ _ _ _ _ _ _ _ _ Hw2 Hc2 Ha2 eq_refl)
      as (Hfree2 & Hdim2 & Hw4).
    apply (prior_values_Ok _ _ _ _ _ _ _ Hw4) in H
      as (ty & vals & shape & stored & Hty & Hvals & Hfree3 & Hdims3 & Hs & Hfill
          & Hw').
    apply shape_in_cons in Hs as (n & sizes & Hn & Hsizes & ->).
    cbn [with_variable Nc.variables Nc.dims] in *.
    rewrite lookup_insert_ne in Hfree2 by done.
    rewrite !lookup_insert_ne in Hfree3 by done.
    rewrite Hdim1 in Hn. injection Hn as <-.
    exists ids, idx, ty, vals, stored, None, sizes.
    repeat split; try done. congruence.
  - apply (reach_branch_Ok _ _ _ _ _ _ _ Hg) in H
      as (ids & idx & ty & vals & sizes & stored & Hids & Hidx & Hty & Hvals & Hf1
          & Hf2 & Hf3 & Hdims & Hlead & Hlen & Hsizes & Hfill & Hw').
    exists ids, idx, ty, vals, stored, None, sizes. by repeat split.
  - apply (reach_branch_Ok _ _ _ _ _ _ _ Hg) in H
      as (ids & idx & ty & vals & sizes & stored & Hids & Hidx & Hty & Hvals & Hf1
          & Hf2 & Hf3 & Hdims & Hlead & Hlen & Hsizes & Hfill & Hw').
    exists ids, idx, ty, vals, stored, None, sizes. by repeat split.
  - apply bind_Ok in H as (u1 & w1 & Hr & H).
    apply bind_Ok in H as (u2 & w2 & Hp & H).
    assert ((reach_variables data h ;;
             PriorStore.prior_values data h ["num_reaches"; "num_days"]) w
            = Ok u2 w2) as Hbranch.
    { apply bind_Ok. by exists u1, w1. }
    apply (reach_branch_Ok _ _ _ _ _ _ _ Hg) in Hbranch
      as (ids & idx & ty & vals & sizes & stored & Hids & Hidx & Hty & Hvals & Hf1
          & Hf2 & Hf3 & Hdims & Hlead & Hlen & Hsizes & Hfill & Hw2).
    apply bind_Ok in H as (u3 & w3 & Hc & H).
    apply bind_Ok in H as (vt & w0 & Hvt & H). apply lift_Ok in Hvt as [Hvt <-].
    destruct (declare_assign_Ok _ _ _ _ _ _ _ _ _ _ _ Hw2 Hc H)
      as (Hfree4 & Hdims4 & shape & st & Hs & Hfillt & Hw').
    apply shape_in_cons in Hs as (n & sizes' & Hn & Hsizes' & ->).
    cbn [with_variable Nc.variables Nc.dims] in Hn.
    rewrite Hlead in Hn. injection Hn as <-.
    change (shape_in g ["num_days"] = Some sizes') in Hsizes'.
    rewrite Hsizes in Hsizes'. injection Hsizes' as <-.
    exists ids, idx, ty, vals, stored, (Some st), sizes.
    repeat split; try done. intros _. by exists vt, st.
  - apply (reach_branch_Ok _ _ _ _ _ _ _ Hg) in H
      as (ids & idx & ty & vals & sizes & stored & Hids & Hidx & Hty & Hvals & Hf1
          & Hf2 & Hf3 & Hdims & Hlead & Hlen & Hsizes & Hfill & Hw').
    exists ids, idx, ty, vals, stored, None, sizes. by repeat split.
Qed.

(** What a call of [create_prior] that returns found and left: [g0] is
    the group that was under the name, or an empty group when there was
    none, and [g1] that group with the run type and the dimensions. *)
Lemma create_prior_Ok path source prior data w u w' :
  create_prior path source prior data w = Ok u w' →
  let h := (path, group_name source prior) in
  let c := category source prior in
  ∃ g0 rt nr nn ids idx ty vals stored svt sizes,
    let calls := dimension_calls source nr nn in
    let g1 := with_dims (with_gattr g0 "run_type" rt) calls in
    (group_at w h = Some g0 ∨ group_at w h = None ∧ g0 = Nc.empty_group)
    ∧ run_type data = Some rt
    ∧ leading_counts data = Some (nr, nn)
    ∧ NoDup calls.*1
    ∧ (∀ d, d ∈ calls → Nc.assoc d.1 (Nc.dims g0) = None)
    ∧ id_values c data = Some ids ∧ indexes data = Some idx
    ∧ data_type data = Some ty ∧ values data = Some vals
    ∧ (c = ReachDaily → is_Some svt)
    ∧ Nc.variables g0 !! id_variable c = None
    ∧ Nc.variables g0 !! "indexes" = None
    ∧ Nc.variables g0 !! "prior_values" = None
    ∧ Forall (λ d, is_Some (Nc.assoc d (Nc.dims g0 ++ calls)))
        (lead_dimension c :: second_dimensions c)
    ∧ group_at w' h = Some (written_group c ids idx ty stored svt g1)
    ∧ Nc.assoc (lead_dimension c) (Nc.dims g0 ++ calls) = Some (Some (length ids))
    ∧ length idx = length ids
    ∧ shape_in g1 (second_dimensions c) = Some sizes
    ∧ Nc.fill ty (Some (length ids) :: sizes) vals = Nc.Got stored
    ∧ (c = ReachDaily →
       ∃ t st, value_t data = Some t ∧ svt = Some st
               ∧ Nc.fill "f8" (Some (length ids) :: sizes) t = Nc.Got st).
Proof.
  unfold create_prior. intros H. cbv zeta.
  apply bind_Ok in H as (h & w1 & Hgroup & H).
  apply createGroup_Ok in Hgroup as (-> & g0 & Hw1 & Hg0 & _).
  apply bind_Ok in H as (rt & w0 & Hrt & H). apply lift_Ok in Hrt as [Hrt <-].
  apply bind_Ok in H as (u1 & w2 & Hset & H).
  apply set_gattr_Ok in Hset as (g1 & Hg1 & Hw2).
  rewrite Hw1 in Hg1. injection Hg1 as <-.
  apply bind_Ok in H as (u2 & w3 & Hdims & H).
  assert (∃ nr nn, leading_counts data = Some (nr, nn)
                   ∧ create_dimensions source (path, group_name source prior)
                       nr nn w2 = Ok u2 w3) as (nr & nn & Hcounts & Hcalls).
  { unfold leading_counts. destruct (reach_ids data) as [ids|]; [by eexists _, _|].
    apply bind_Ok in Hdims as (ids & w0 & Hids & Hdims).
    apply lift_Ok in Hids as [-> <-]. by eexists _, _. }
  apply (create_dimension_calls_Ok _ _ _ _ _ _ Hw2) in Hcalls
    as (Hw3 & Hnd & Hfresh).
  pose proof (create_variables_Ok _ _ _ _ _ _ _ _ Hw3 H) as Hvars. cbv zeta in Hvars.
  destruct Hvars
    as (ids & idx & ty & vals & stored & svt & sizes & Hids & Hidx & Hty & Hvals
        & Hvt & Hf1 & Hf2 & Hf3 & Hneed & Hw' & Hlead & Hlen & Hsizes & Hfill & Ht).
  exists g0, rt, nr, nn, ids, idx, ty, vals, stored, svt, sizes. by repeat split.
Qed.

Ltac elem_absurd H :=
  repeat (let Heq := fresh "Heq" in
          apply elem_of_cons in H as [Heq|H];
          [first [discriminate Heq | congruence]|]);
  by apply elem_of_nil in H.

Ltac source_cases source :=
  destruct (String.eqb_spec source "wbm") as [->|?];
  [|destruct (String.eqb_spec source "grades") as [->|?];
    [|destruct (String.eqb_spec source "grdc") as [->|?];
      [|destruct (String.eqb_spec source "usgs") as [->|?]]]].

(** The dimensions that [create_dimensions] asks for. *)
Lemma dimension_calls_lookup source nr nn :
  let calls := dimension_calls source nr nn in
  (is_Some (Nc.assoc "num_reaches" calls) ↔ truthy nr = true)
  ∧ (is_Some (Nc.assoc "num_nodes" calls) ↔ truthy nn = true)
  ∧ (is_Some (Nc.assoc "num_months" calls)
     ↔ source ∈ ["wbm"; "grades"; "grdc"; "usgs"])
  ∧ (is_Some (Nc.assoc "probability" calls)
     ↔ source ∈ ["wbm"; "grades"; "grdc"; "usgs"])
  ∧ (is_Some (Nc.assoc "num_days" calls) ↔ source ∈ ["grdc"; "usgs"]).
Proof.
  unfold dimension_calls.
  destruct (truthy nr), (truthy nn); source_cases source; simpl;
    (repeat split;
     try (intros _; first [by eexists | done | by repeat constructor]);
     try (by intros [? ?]);
     try done;
     try (intros Hin; elem_absurd Hin)).
Qed.

(** The sizes of the second dimensions that [create_dimensions] makes. *)
Lemma dimension_calls_sizes source nr nn c sizes :
  mapM (λ d, Nc.assoc d (dimension_calls source nr nn)) (second_dimensions c)
  = Some sizes →
  sizes = second_sizes c.
Proof.
  unfold dimension_calls.
  destruct c; cbn [second_dimensions second_sizes mapM];
    try (by intros [= <-]);
    destruct (truthy nr), (truthy nn); source_cases source; simpl;
    intros H; cbv in H; by simplify_eq.
Qed.

Lemma truthy_length {A} (l : list A) : truthy (Some (length l)) = true ↔ l ≠ [].
Proof. by destruct l. Qed.

End WriterSteps.

Section WrittenGroup.

Import Eff Run Obs PriorStore.
Local Open Scope string_scope.

Lemma id_variable_cases c : id_variable c = "node_id" ∨ id_variable c = "reach_id".
Proof. destruct c; auto. Qed.

(** The variables of a written group, one by one. *)
Lemma written_group_lookup c ids idx ty vals vt g :
  let g' := written_group c ids idx ty vals vt g in
  (c = ReachDaily → is_Some vt) →
  Nc.gattrs g' = Nc.gattrs g ∧ Nc.dims g' = Nc.dims g
  ∧ Nc.variables g' !! id_variable c
    = Some {| Nc.dtype := "i8"; Nc.dimensions := [lead_dimension c];
              Nc.data := IntVec ids |}
  ∧ Nc.variables g' !! "indexes"
    = Some {| Nc.dtype := "i4"; Nc.dimensions := [lead_dimension c];
              Nc.data := IntVec idx |}
  ∧ Nc.variables g' !! "prior_values"
    = Some {| Nc.dtype := ty;
              Nc.dimensions := lead_dimension c :: second_dimensions c;
              Nc.data := vals |}
  ∧ Nc.variables g' !! "value_t"
    = match c, vt with
      | ReachDaily, Some t =>
          Some {| Nc.dtype := "f8"; Nc.dimensions := ["num_reaches"; "num_days"];
                  Nc.data := t |}
      | _, _ => Nc.variables g !! "value_t"
      end
  ∧ ∀ name, name ∉ [id_variable c; "indexes"; "prior_values"; "value_t"] →
            Nc.variables g' !! name = Nc.variables g !! name.
Proof.
  intros g' Hvt. subst g'. unfold written_group.
  assert (∀ name, name ∉ [id_variable c; "indexes"; "prior_values"; "value_t"] →
                  name ≠ id_variable c ∧ name ≠ "indexes" ∧ name ≠ "prior_values"
                  ∧ name ≠ "value_t") as Hout.
  { intros name Hname. rewrite !not_elem_of_cons in Hname. tauto. }
  destruct c, vt as [t|]; cbn [with_variable Nc.variables Nc.gattrs Nc.dims
                                 id_variable lead_dimension second_dimensions];
    try (by destruct Hvt as [? ?]);
    (repeat split; try done;
     try (intros name Hname; destruct (Hout _ Hname) as (? & ? & ? & ?));
     repeat first [rewrite lookup_insert_eq | rewrite lookup_insert_ne by done];
     done).
Qed.

End WrittenGroup.

(** C8 as stated fails on the code: the shape category of a listed prior
    name is not keyed by the name alone.  [river_type] is in the node
    list; the writer gives it the node-scalar shape for the source
    [gbnode] and the reach-scalar shape for the source [gbreach]. *)
Lemma shape_not_keyed_by_prior_name :
  "river_type"%string ∈ PriorStore.NODE_LIST
  ∧ PriorStore.category "gbnode" "river_type" = PriorStore.NodeScalar
  ∧ PriorStore.category "gbreach" "river_type" = PriorStore.ReachScalar.
Proof. split; [|split]; [constructor|reflexivity|reflexivity]. Qed.

(** C8, amended.  The four static lists have no name in common (their
    concatenation has no duplicate), so a listed name is in exactly one
    list.  The branch of [create_variables] is keyed by source and prior
    name together: a name of the probability, monthly or daily list
    takes the branch of its list whatever the source; a name of the node
    list takes the node-scalar branch for the source [gbnode] and the
    reach-scalar branch for every other source; a name in none of the
    lists takes the reach-scalar branch, with [prior_values] over
    [num_reaches] alone.  The dimensions [num_months] and [probability],
    when [create_dimensions] creates them (for the sources wbm, grades,
    grdc and usgs), have the sizes 12 and 20.  When [create_prior]
    returns, the group holds the identifier variable of the branch over
    its leading dimension and [prior_values] over the dimensions of the
    branch.  It does not return for every source: into a group that was
    not there, a probability or monthly name of a source other than wbm,
    grades, grdc and usgs, and a daily name of a source other than grdc
    and usgs, is not written, the call raises, since the group has no
    such second dimension. *)
Theorem category_table (source prior : string) :
  NoDup (PriorStore.NODE_LIST ++ PriorStore.PROB_LIST ++ PriorStore.MONTHS_LIST
         ++ PriorStore.DAYS_LIST)
  ∧ (prior ∈ PriorStore.PROB_LIST →
     PriorStore.category source prior = PriorStore.ReachProbability)
  ∧ (prior ∈ PriorStore.MONTHS_LIST →
     PriorStore.category source prior = PriorStore.ReachMonthly)
  ∧ (prior ∈ PriorStore.DAYS_LIST →
     PriorStore.category source prior = PriorStore.ReachDaily)
  ∧ (prior ∈ PriorStore.NODE_LIST →
     PriorStore.category source prior
     = if decide (source = "gbnode"%string) then PriorStore.NodeScalar
       else PriorStore.ReachScalar)
  ∧ (prior ∉ PriorStore.NODE_LIST ++ PriorStore.PROB_LIST ++ PriorStore.MONTHS_LIST
             ++ PriorStore.DAYS_LIST →
     PriorStore.category source prior = PriorStore.ReachScalar
     ∧ ∀ data ds,
         PriorStore.create_variables source prior data ds
         = (PriorStore.reach_variables data ds ;;
            PriorStore.prior_values data ds ["num_reaches"%string]))
  ∧ (∀ num_reaches num_nodes,
       let calls := PriorStore.dimension_calls source num_reaches num_nodes in
       (if decide (source ∈ ["wbm"; "grades"; "grdc"; "usgs"]%string)
        then Nc.assoc "num_months" calls = Some (Some 12)
             ∧ Nc.assoc "probability" calls = Some (Some 20)
        else Nc.assoc "num_months" calls = None
             ∧ Nc.assoc "probability" calls = None))
  ∧ (∀ path data w u w',
       PriorStore.create_prior path source prior data w = Eff.Ok u w' →
       let c := PriorStore.category source prior in
       ∃ g ids v,
         Obs.group_at w' (path, PriorStore.group_name source prior) = Some g
         ∧ Nc.variables g !! Obs.id_variable c = Some ids
         ∧ Nc.dimensions ids = [Obs.lead_dimension c]
         ∧ Nc.variables g !! "prior_values"%string = Some v
         ∧ Nc.dimensions v = Obs.lead_dimension c :: Obs.second_dimensions c)
  ∧ (∀ path data w,
       Obs.group_at w (path, PriorStore.group_name source prior) = None →
       (prior ∈ PriorStore.PROB_LIST ++ PriorStore.MONTHS_LIST
        ∧ source ∉ ["wbm"; "grades"; "grdc"; "usgs"]%string)
       ∨ (prior ∈ PriorStore.DAYS_LIST ∧ source ∉ ["grdc"; "usgs"]%string) →
       ∃ e w', PriorStore.create_prior path source prior data w = Eff.Raise e w').
Proof.
  assert (∀ l, prior ∈ l → PriorStore.elem prior l = true) as Hin
    by (intros l; apply elem_spec).
  assert (prior ∈ PriorStore.PROB_LIST →
          PriorStore.category source prior = PriorStore.ReachProbability) as Hprob.
  { intros H. unfold PriorStore.category. rewrite (Hin _ H).
    apply list_elem_of_singleton in H as ->. by rewrite andb_false_r. }
  assert (prior ∈ PriorStore.MONTHS_LIST →
          PriorStore.category source prior = PriorStore.ReachMonthly) as Hmonth.
  { intros H. unfold PriorStore.category. rewrite (Hin _ H).
    apply list_elem_of_singleton in H as ->. by rewrite andb_false_r. }
  assert (prior ∈ PriorStore.DAYS_LIST →
          PriorStore.category source prior = PriorStore.ReachDaily) as Hdays.
  { intros H. unfold PriorStore.category. rewrite (Hin _ H).
    repeat (apply elem_of_cons in H as [->|H]; [by rewrite andb_false_r|]).
    by apply elem_of_nil in H. }
  split; [apply (bool_decide_unpack _); vm_compute; exact I|].
  split; [exact Hprob|]. split; [exact Hmonth|]. split; [exact Hdays|].
  split; [|split; [|split; [|split]]].
  - intros H. unfold PriorStore.category. rewrite (Hin _ H), andb_true_r.
    destruct (String.eqb_spec source "gbnode") as [->|Hne].
    + by rewrite decide_True.
    + rewrite decide_False by done.
      repeat (apply elem_of_cons in H as [->|H]; [reflexivity|]).
      by apply elem_of_nil in H.
  - intros H. rewrite !elem_of_app in H.
    assert (PriorStore.elem prior PriorStore.NODE_LIST = false) as H0
      by (apply elem_false; tauto).
    assert (PriorStore.elem prior PriorStore.PROB_LIST = false) as H1
      by (apply elem_false; tauto).
    assert (PriorStore.elem prior PriorStore.MONTHS_LIST = false) as H2
      by (apply elem_false; tauto).
    assert (PriorStore.elem prior PriorStore.DAYS_LIST = false) as H3
      by (apply elem_false; tauto).
    assert (PriorStore.category source prior = PriorStore.ReachScalar) as Hcat
      by (unfold PriorStore.category; by rewrite H0, andb_false_r, H1, H2, H3).
    split; [exact Hcat|].
    intros data ds. unfold PriorStore.create_variables. by rewrite Hcat.
  - intros num_reaches num_nodes. unfold PriorStore.dimension_calls.
    destruct (PriorStore.truthy num_reaches), (PriorStore.truthy num_nodes);
      destruct (String.eqb_spec source "wbm") as [->|H1]; try (by vm_compute);
      destruct (String.eqb_spec source "grades") as [->|H2]; try (by vm_compute);
      destruct (String.eqb_spec source "grdc") as [->|H3]; try (by vm_compute);
      destruct (String.eqb_spec source "usgs") as [->|H4]; try (by vm_compute);
      (rewrite decide_False; [done|]);
      intros Hsrc;
      repeat (apply elem_of_cons in Hsrc as [->|Hsrc]; [congruence|]);
      by apply elem_of_nil in Hsrc.
  - intros path data w u w' H.
    pose proof (create_prior_Ok _ _ _ _ _ _ _ H) as Hinv. cbv zeta in Hinv |- *.
    destruct Hinv as (g0 & rt & nr & nn & ids & idx & ty & vals & stored & svt & sizes
                      & _ & _ & _ & _ & _ & _ & _ & _ & _ & Hvt & _ & _ & _ & _ & Hw'
                      & _).
    pose proof (written_group_lookup (PriorStore.category source prior) ids idx ty
                  stored svt
                  (Obs.with_dims (Obs.with_gattr g0 "run_type" rt)
                     (PriorStore.dimension_calls source nr nn)) Hvt)
      as (_ & _ & Hid & _ & Hvalues & _).
    eexists _, _, _. split; [exact Hw'|]. split; [exact Hid|]. split; [done|].
    split; [exact Hvalues|done].
  - intros path data w Hnone Hcase.
    destruct (PriorStore.create_prior path source prior data w) as [u w'|e w'] eqn:H;
      [|by eexists _, _].
    exfalso.
    pose proof (create_prior_Ok _ _ _ _ _ _ _ H) as Hinv. cbv zeta in Hinv.
    destruct Hinv as (g0 & rt & nr & nn & ids & idx & ty & vals & stored & svt & sizes
                      & Hg0 & _ & _ & _ & _ & _ & _ & _ & _ & _ & _ & _ & _ & Hdims
                      & _).
    destruct Hg0 as [Hsome|[_ ->]]; [congruence|].
    cbn [Nc.dims Nc.empty_group app] in Hdims.
    apply Forall_cons in Hdims as [_ Hsecond].
    pose proof (dimension_calls_lookup source nr nn) as (_ & _ & Hm & Hp & Hd).
    cbv zeta in Hm, Hp, Hd.
    destruct Hcase as [[Hl Hs]|[Hl Hs]].
    + apply elem_of_app in Hl as [Hl|Hl].
      * rewrite (Hprob Hl) in Hsecond. apply Forall_cons in Hsecond as [Hsec _].
        by apply Hs, Hp.
      * rewrite (Hmonth Hl) in Hsecond. apply Forall_cons in Hsecond as [Hsec _].
        by apply Hs, Hm.
    + rewrite (Hdays Hl) in Hsecond. apply Forall_cons in Hsecond as [Hsec _].
      by apply Hs, Hd.
Qed.

Lemma category_table_witness :
  PriorStore.category "usgs" "usgs_q" = PriorStore.ReachDaily
  ∧ PriorStore.category "gbreach" "logn_hat" = PriorStore.ReachScalar
  ∧ PriorStore.category "wbm" "mean_q" = PriorStore.ReachScalar
  ∧ ∃ e w',
      PriorStore.create_prior "out/ann_na.nc" "gbreach" "flow_duration_q"
        Worked.scalar_data Worked.blank
      = Eff.Raise e w'.
Proof.
  destruct (category_table "usgs" "usgs_q") as (_ & _ & _ & Hdays & _).
  destruct (category_table "gbreach" "logn_hat") as (_ & _ & _ & _ & Hnode & _).
  destruct (category_table "wbm" "mean_q") as (_ & _ & _ & _ & _ & Hnone & _).
  destruct (category_table "gbreach" "flow_duration_q")
    as (_ & _ & _ & _ & _ & _ & _ & _ & Hraise).
  split; [|split; [|split]].
  - apply Hdays. apply (bool_decide_unpack _). vm_compute. exact I.
  - apply Hnode. apply (bool_decide_unpack _). vm_compute. exact I.
  - apply Hnone. apply (bool_decide_unpack _). vm_compute. exact I.
  - apply Hraise; [reflexivity|]. left. split.
    + apply (bool_decide_unpack _). vm_compute. exact I.
    + apply (bool_decide_unpack _). vm_compute. exact I.
Defined.

(** X9. What a written group holds.  When [create_prior] returns from
    writing into a group that was not there, the group under the name
    [{source}_{prior}] carries the run type of the dictionary as
    attribute and the variables that the merge reads: the identifiers as
    given under [node_id] in the node branch and under [reach_id] in
    every other branch, the precomputed offsets as given, as many as the
    identifiers, under [indexes], and under [prior_values], over the
    leading dimension followed by the branch's second dimension, the
    values converted to the declared type and made to the shape of the
    variable; they are the values as given when the type is [f8] and
    they have that shape.  In the daily branch the time labels are stored
    under [value_t] in the same way.  The values and the time labels of a
    daily entry are taken to have the same number of columns, so that
    both variables are written over the whole of the unlimited
    dimension. *)
Theorem written_group_holds_the_prior (path source prior : string)
    (data : PriorStore.PriorData) (w w' : Eff.World) :
  Obs.group_at w (path, PriorStore.group_name source prior) = None →
  (∀ vals t,
     PriorStore.category source prior = PriorStore.ReachDaily →
     PriorStore.values data = Some vals → PriorStore.value_t data = Some t →
     Obs.columns vals = Obs.columns t) →
  PriorStore.create_prior path source prior data w = Eff.Ok () w' →
  let c := PriorStore.category source prior in
  ∃ g rt ids idx ty vals stored,
    let shape := Some (length ids) :: Obs.second_sizes c in
    Obs.group_at w' (path, PriorStore.group_name source prior) = Some g
    ∧ PriorStore.run_type data = Some rt
    ∧ Nc.gattrs g !! "run_type"%string = Some rt
    ∧ Obs.id_values c data = Some ids
    ∧ Nc.variables g !! Obs.id_variable c
      = Some {| Nc.dtype := "i8"; Nc.dimensions := [Obs.lead_dimension c];
                Nc.data := IntVec ids |}
    ∧ PriorStore.indexes data = Some idx
    ∧ length idx = length ids
    ∧ Nc.variables g !! "indexes"%string
      = Some {| Nc.dtype := "i4"; Nc.dimensions := [Obs.lead_dimension c];
                Nc.data := IntVec idx |}
    ∧ PriorStore.data_type data = Some ty
    ∧ PriorStore.values data = Some vals
    ∧ Nc.fill ty shape vals = Nc.Got stored
    ∧ Nc.variables g !! "prior_values"%string
      = Some {| Nc.dtype := ty;
                Nc.dimensions := Obs.lead_dimension c :: Obs.second_dimensions c;
                Nc.data := stored |}
    ∧ (ty = "f8"%string → Obs.has_shape shape vals → stored = vals)
    ∧ (c = PriorStore.ReachDaily →
       ∃ t stored_t,
         PriorStore.value_t data = Some t
         ∧ Nc.fill "f8" shape t = Nc.Got stored_t
         ∧ Nc.variables g !! "value_t"%string
           = Some {| Nc.dtype := "f8";
                     Nc.dimensions := ["num_reaches"; "num_days"]%string;
                     Nc.data := stored_t |}
         ∧ (Obs.has_shape shape t → stored_t = t)).
Proof.
  intros Hnone _ H. pose proof (create_prior_Ok _ _ _ _ _ _ _ H) as Hinv.
  cbv zeta in Hinv |- *.
  destruct Hinv as (g0 & rt & nr & nn & ids & idx & ty & vals & stored & svt & sizes
                    & Hg0 & Hrt & _ & _ & _ & Hids & Hidx & Hty & Hvals & Hvt & _ & _
                    & _ & _ & Hw' & _ & Hlen & Hsizes & Hfill & Htime).
  destruct Hg0 as [Hsome|[_ ->]]; [congruence|].
  apply dimension_calls_sizes in Hsizes as ->.
  pose proof (written_group_lookup (PriorStore.category source prior) ids idx ty
                stored svt
                (Obs.with_dims (Obs.with_gattr Nc.empty_group "run_type" rt)
                   (PriorStore.dimension_calls source nr nn)) Hvt)
    as (Hattrs & _ & Hid & Hindexes & Hvalues & Hlabels & _).
  eexists _, rt, ids, idx, ty, vals, stored. split; [exact Hw'|].
  repeat split; try done.
  - rewrite Hattrs. cbn [Obs.with_dims Obs.with_gattr Nc.gattrs].
    apply lookup_insert_eq.
  - intros -> Hshape. rewrite fill_exact in Hfill by done. by injection Hfill.
  - intros Hc. destruct (Htime Hc) as (t & st & Ht & -> & Hfillt).
    exists t, st. split; [done|]. split; [done|]. split.
    + rewrite Hlabels, Hc. done.
    + intros Hshape. rewrite fill_exact in Hfillt by done. by injection Hfillt.
Qed.

(** X10. Two priors with one group name.  After a [create_prior] that
    returned, a [create_prior] for the same file and a source and prior
    that give the same group name raises, whatever the data: the group
    cannot be written twice. *)
Theorem group_is_written_once (path s1 p1 s2 p2 : string)
    (d1 d2 : PriorStore.PriorData) (w w1 : Eff.World) :
  PriorStore.create_prior path s1 p1 d1 w = Eff.Ok () w1 →
  PriorStore.group_name s2 p2 = PriorStore.group_name s1 p1 →
  ∃ e w2, PriorStore.create_prior path s2 p2 d2 w1 = Eff.Raise e w2.
Proof.
  intros H1 Hname.
  destruct (PriorStore.create_prior path s2 p2 d2 w1) as [[] w2|e w2] eqn:H2;
    [|by eexists _, _].
  exfalso.
  pose proof (create_prior_Ok _ _ _ _ _ _ _ H1) as Hinv1. cbv zeta in Hinv1.
  destruct Hinv1 as (g0 & rt & nr & nn & ids & idx & ty & vals & stored & svt & sizes
                     & _ & _ & _ & _ & _ & _ & _ & _ & _ & Hvt & _ & _ & _ & _ & Hw1
                     & _).
  pose proof (create_prior_Ok _ _ _ _ _ _ _ H2) as Hinv2. cbv zeta in Hinv2.
  destruct Hinv2 as (g0' & rt' & nr' & nn' & ids' & idx' & ty' & vals' & stored'
                     & svt' & sizes' & Hg0' & _ & _ & _ & _ & _ & _ & _ & _ & _ & _
                     & Hfree & _).
  rewrite Hname, Hw1 in Hg0'. destruct Hg0' as [[= <-]|[? _]]; [|done].
  pose proof (written_group_lookup (PriorStore.category s1 p1) ids idx ty stored svt
                (Obs.with_dims (Obs.with_gattr g0 "run_type" rt)
                   (PriorStore.dimension_calls s1 nr nn)) Hvt)
    as (_ & _ & _ & Hindexes & _).
  by rewrite Hindexes in Hfree.
Qed.

Lemma written_group_holds_the_prior_witness :
  ∃ g,
    Obs.group_at (Worked.wrote "grdc" "grdc_q" Worked.daily_data Worked.blank)
      ("out/ann_na.nc", "grdc_grdc_q")%string = Some g
    ∧ Nc.gattrs g !! "run_type"%string = Some "constrained"%string
    ∧ Nc.variables g !! "prior_values"%string
      = Some {| Nc.dtype := "f8";
                Nc.dimensions := ["num_reaches"; "num_days"]%string;
                Nc.data := Mat [[1; 2]; [3; 4]]%Q |}.
Proof.
  destruct (written_group_holds_the_prior "out/ann_na.nc" "grdc" "grdc_q"
              Worked.daily_data Worked.blank
              (Worked.wrote "grdc" "grdc_q" Worked.daily_data Worked.blank))
    as (g & rt & ids & idx & ty & vals & stored & Hg & Hrt & Hattr & Hids & _ & _ & _
        & _ & Hty & Hvals & _ & Hvar & Hexact & _).
  - reflexivity.
  - intros vals t _ Hvals Ht. injection Hvals as <-. injection Ht as <-. reflexivity.
  - vm_compute. reflexivity.
  - exists g. split; [exact Hg|].
    injection Hrt as <-. injection Hty as <-. injection Hvals as <-.
    injection Hids as <-.
    rewrite (Hexact eq_refl (ex_intro _ 2 eq_refl)) in Hvar.
    split; [exact Hattr|exact Hvar].
Defined.

Lemma group_is_written_once_witness :
  ∃ e w2,
    PriorStore.create_prior "out/ann_na.nc" "a" "b_c" Worked.scalar_data
      (Worked.wrote "a_b" "c" Worked.scalar_data Worked.blank)
    = Eff.Raise e w2.
Proof.
  apply (group_is_written_once "out/ann_na.nc" "a_b" "c" "a" "b_c"
           Worked.scalar_data Worked.scalar_data Worked.blank).
  - vm_compute. reflexivity.
  - reflexivity.
Defined.


(** ** What the writer asks of a dictionary entry *)

Section WriterRejects.

Import Eff Run PriorStore Obs.
Local Open Scope string_scope.

(** X11. [create_netcdf], lines 99-112, returns from writing a dictionary
    entry into a group of its own only when the entry has the keys
    run_type, indexes, data_type and values and a list of identifiers
    that is not empty (for a length of 0, [create_dimensions] makes no
    leading dimension, line 130, and [createVariable] finds none); a
    node prior must come without reach_ids, since line 106 would count
    those; a probability or monthly prior must be of wbm, grades, grdc
    or usgs, and a daily prior of grdc or usgs and with value_t, the
    only sources whose groups get these dimensions (lines 133-148). *)
Theorem written_entry_is_accepted path source prior data w u w' :
  group_at w (path, group_name source prior) = None →
  create_prior path source prior data w = Ok u w' →
  accepted source prior data.
Proof.
  intros Hnone H.
  pose proof (create_prior_Ok _ _ _ _ _ _ _ H) as Hinv. cbv zeta in Hinv.
  destruct Hinv as (g0 & rt & nr & nn & ids & idx & ty & vals & stored & svt & sizes
                    & Hg0 & Hrt & Hcounts & _ & _ & Hids & Hidx & Hty & Hvals & _ & _
                    & _ & _ & Hdims & _ & _ & _ & _ & _ & Hdaily).
  destruct Hg0 as [Hsome|[_ ->]]; [congruence|].
  cbn [Nc.dims Nc.empty_group app] in Hdims.
  apply Forall_cons in Hdims as [Hlead Hsecond].
  pose proof (dimension_calls_lookup source nr nn) as (Hr & Hn & Hm & Hp & Hd).
  cbv zeta in Hr, Hn, Hm, Hp, Hd.
  unfold leading_counts in Hcounts.
  unfold accepted. cbv zeta.
  split; [by eexists|]. split; [by eexists|]. split; [by eexists|].
  split; [by eexists|].
  destruct (category source prior) eqn:Hcat;
    cbn [id_values lead_dimension second_dimensions] in *.
  - apply Hn in Hlead.
    destruct (reach_ids data) as [rids|]; [by injection Hcounts as <- <-|].
    rewrite Hids in Hcounts. injection Hcounts as <- <-.
    apply truthy_length in Hlead.
    split; [by exists ids|]. split; [done|]. split; [by intros [?|?]|done].
  - apply Hr in Hlead. rewrite Hids in Hcounts. injection Hcounts as <- <-.
    apply truthy_length in Hlead.
    split; [by exists ids|]. split; [done|].
    split; [|done]. intros _. apply Hp. by apply Forall_cons in Hsecond as [? _].
  - apply Hr in Hlead. rewrite Hids in Hcounts. injection Hcounts as <- <-.
    apply truthy_length in Hlead.
    split; [by exists ids|]. split; [done|].
    split; [|done]. intros _. apply Hm. by apply Forall_cons in Hsecond as [? _].
  - apply Hr in Hlead. rewrite Hids in Hcounts. injection Hcounts as <- <-.
    apply truthy_length in Hlead.
    split; [by exists ids|]. split; [done|].
    split; [by intros [?|?]|]. intros _. split.
    + apply Hd. by apply Forall_cons in Hsecond as [? _].
    + destruct (Hdaily eq_refl) as (t & st & Ht & _). by eexists.
  - apply Hr in Hlead. rewrite Hids in Hcounts. injection Hcounts as <- <-.
    apply truthy_length in Hlead.
    split; [by exists ids|]. split; [done|]. split; [by intros [?|?]|done].
Qed.

Lemma written_entry_is_accepted_witness :
  accepted "grdc" "grdc_q" Worked.daily_data
  ∧ ¬ accepted "wbm" "flow" Worked.empty_data.
Proof.
  split.
  - refine (written_entry_is_accepted "out/ann_na.nc" "grdc" "grdc_q"
              Worked.daily_data Worked.blank ()
              (Worked.wrote "grdc" "grdc_q" Worked.daily_data Worked.blank) _ _).
    + reflexivity.
    + vm_compute. reflexivity.
  - intros (_ & _ & _ & _ & (ids & Hids & Hne) & _).
    vm_compute in Hids. by injection Hids as <-.
Defined.

End WriterRejects.

(** ** From the writer to the overwrite *)

Section ExchangeFile.

Import Eff Run PriorStore Obs.
Local Open Scope string_scope.

#[local] Hint Resolve reads_result : runs.

Lemma same_attrs_refl path w : same_attrs path w w.
Proof. done. Qed.

Lemma same_attrs_trans path w1 w2 w3 :
  same_attrs path w1 w2 → same_attrs path w2 w3 → same_attrs path w1 w3.
Proof. unfold same_attrs. congruence. Qed.

Lemma same_attrs_files path w w' : files w' = files w → same_attrs path w w'.
Proof. unfold same_attrs, attrs_at. by intros ->. Qed.

Lemma keeps_attrs_bind path {A B} (m : M A) (f : A → M B) :
  keeps (same_attrs path) m → (∀ a, keeps (same_attrs path) (f a)) →
  keeps (same_attrs path) (m ≫= f).
Proof. apply keeps_bind, same_attrs_trans. Qed.

Lemma keeps_attrs_reads path {A} (m : M A) : reads m → keeps (same_attrs path) m.
Proof. apply keeps_reads, same_attrs_refl. Qed.

(** A write to a file that carries its global attributes over. *)
Lemma keeps_attrs_write path p ds ds' w :
  files w !! p = Some ds → Nc.attrs ds' = Nc.attrs ds →
  same_attrs path w (world_of (write_file p ds' w)).
Proof.
  intros Hds Hattrs. unfold same_attrs, attrs_at, write_file. cbn [world_of files].
  destruct (decide (path = p)) as [->|Hne].
  - by rewrite lookup_insert_eq, Hds; simpl; rewrite Hattrs.
  - by rewrite lookup_insert_ne.
Qed.

Lemma keeps_attrs_with_group path h f :
  (∀ g, reads (f g)) → keeps (same_attrs path) (with_group h f).
Proof.
  intros Hf w. unfold with_group, mbind, M_bind, read_file.
  destruct (files w !! h.1) as [ds|] eqn:Hds; [|done].
  destruct (Nc.assoc h.2 (Nc.groups ds)) as [g|]; cbn [lift mret M_ret raise]; [|done].
  specialize (Hf g w). destruct (f g w) as [g' w1|e w1]; cbn [world_of] in Hf; subst w1;
    [|done].
  by apply (keeps_attrs_write path h.1 ds).
Qed.

Lemma keeps_attrs_createGroup path p name :
  keeps (same_attrs path) (createGroup p name).
Proof.
  intros w. unfold createGroup, mbind, M_bind, read_file.
  destruct (files w !! p) as [ds|] eqn:Hds; [|done].
  destruct (Nc.assoc name (Nc.groups ds)); [done|].
  pose proof (keeps_attrs_write path p ds
                {| Nc.attrs := Nc.attrs ds;
                   Nc.groups := Nc.groups ds ++ [(name, Nc.empty_group)] |} w Hds
                eq_refl) as Hw.
  by destruct (write_file _ _ w).
Qed.

Lemma keeps_attrs_for_each path {A} (l : list A) body :
  (∀ x, keeps (same_attrs path) (body x)) → keeps (same_attrs path) (for_each l body).
Proof.
  intros Hbody. induction l as [|x l IH]; simpl.
  - apply keeps_attrs_reads, reads_mret.
  - by apply keeps_attrs_bind.
Qed.

Ltac attrs_solver :=
  repeat first
    [ progress intros
    | apply keeps_attrs_with_group
    | apply keeps_attrs_createGroup
    | apply keeps_attrs_for_each
    | solve [apply keeps_attrs_reads; run_solver]
    | solve [run_solver]
    | apply keeps_attrs_bind
    | match goal with
      | |- keeps _ (match ?x with _ => _ end) => destruct x
      end ].

(** Writing a prior changes groups only. *)
Lemma keeps_attrs_create_prior path p source prior data :
  keeps (same_attrs path) (create_prior p source prior data).
Proof.
  unfold create_prior, create_variables, create_dimensions, reach_variables,
    prior_values, set_gattr, createDimension, createVariable, assign.
  attrs_solver.
Qed.

Lemma set_attr_Ok path name value w u w' :
  set_attr path name value w = Ok u w' →
  ∃ a, attrs_at w path = Some a ∧ attrs_at w' path = Some (<[name:=value]> a).
Proof.
  unfold set_attr, mbind, M_bind, read_file, write_file, attrs_at.
  destruct (files w !! path) as [ds|]; [|done]. intros H. injection H as _ <-.
  exists (Nc.attrs ds). split; [done|]. cbn [files]. by rewrite lookup_insert_eq.
Qed.

(** X12. The file that [create_netcdf] leaves when it returns carries
    the four global attributes of lines 88-91 and no other, whatever
    priors were written after them; and an [Overwrite] built on that
    file (overwrite.py, lines 39-40 and 73-76) has for [sos_file] the
    name the [PriorStore] was given, and changes no file on the way. *)
Theorem written_file_names_its_store globals now self w u w' :
  create_netcdf globals now self w = Ok u w' →
  ∃ a, globals !! "author" = Some a
       ∧ attrs_at w' (exchange_path a self)
         = Some (<["production_date":=now]>
                   (<["sos_file":=PriorStore.sos_file self]>
                      (<["contact":=email self]> {[ "author" := author self ]})))
       ∧ ∃ w2, Overwrite.init (exchange_path a self) w'
               = Ok {| Overwrite.priors_file := exchange_path a self;
                       Overwrite.sos_file := PriorStore.sos_file self |} w2
               ∧ files w2 = files w'.
Proof.
  unfold create_netcdf. intros H.
  apply bind_Ok in H as (a & w0 & Ha & H). apply lift_Ok in Ha as [Ha <-].
  exists a. split; [done|]. cbv zeta in H. fold (exchange_path a self) in H.
  set (file_name := exchange_path a self) in *.
  apply bind_Ok in H as (u1 & w1 & Hopen & H).
  assert (attrs_at w1 file_name = Some ∅) as Hw1.
  { unfold Dataset_open, write_file, emit, mbind, M_bind in Hopen.
    injection Hopen as _ <-. unfold attrs_at. cbn [files].
    by rewrite lookup_insert_eq. }
  apply bind_Ok in H as (u2 & w2 & Hs1 & H).
  apply set_attr_Ok in Hs1 as (a1 & Ha1 & Hw2).
  rewrite Hw1 in Ha1. injection Ha1 as <-.
  apply bind_Ok in H as (u3 & w3 & Hs2 & H).
  apply set_attr_Ok in Hs2 as (a2 & Ha2 & Hw3).
  rewrite Hw2 in Ha2. injection Ha2 as <-.
  apply bind_Ok in H as (u4 & w4 & Hs3 & H).
  apply set_attr_Ok in Hs3 as (a3 & Ha3 & Hw4).
  rewrite Hw3 in Ha3. injection Ha3 as <-.
  apply bind_Ok in H as (u5 & w5 & Hs4 & H).
  apply set_attr_Ok in Hs4 as (a4 & Ha4 & Hw5).
  rewrite Hw4 in Ha4. injection Ha4 as <-.
  apply bind_Ok in H as (dict & w0 & Hdict & H). apply lift_Ok in Hdict as [Hdict <-].
  apply bind_Ok in H as (u6 & w6 & Hloop & H).
  assert (same_attrs file_name w5 w6) as Hkept.
  { pose proof (keeps_attrs_for_each file_name dict
                  (λ entry, for_each entry.2
                              (λ p, create_prior file_name entry.1 p.1 p.2))) as Hk.
    specialize (Hk (λ entry, keeps_attrs_for_each file_name entry.2 _
                               (λ p, keeps_attrs_create_prior file_name file_name
                                       entry.1 p.1 p.2)) w5).
    by rewrite Hloop in Hk. }
  unfold Dataset_close, emit in H. injection H as _ <-.
  assert (attrs_at w6 file_name
          = Some (<["production_date":=now]>
                    (<["sos_file":=PriorStore.sos_file self]>
                       (<["contact":=email self]> (<["author":=author self]> ∅)))))
    as Hattrs by (by rewrite Hkept).
  split; [done|].
  unfold attrs_at in Hattrs.
  destruct (files w6 !! file_name) as [ds|] eqn:Hds; [|done].
  injection Hattrs as Hattrs.
  eexists. unfold Overwrite.init, Overwrite.locate_sos_file, Dataset_open,
    Dataset_close, emit, read_file, mbind, M_bind. cbn [files].
  rewrite Hds. cbn [files]. rewrite Hds, Hattrs.
  rewrite lookup_insert_ne by done. rewrite lookup_insert_eq. cbn [lift mret M_ret].
  split; reflexivity.
Qed.

Lemma written_file_names_its_store_witness :
  ∃ w2, Overwrite.init "out/zoe_na.nc"
          (world_of (create_netcdf {[ "author" := "Zoe" ]} "03-Nov-2026 10:00:00"
                       Worked.ann Worked.blank))
        = Ok {| Overwrite.priors_file := "out/zoe_na.nc";
                Overwrite.sos_file := "na_sos.nc" |} w2.
Proof.
  destruct (written_file_names_its_store {[ "author" := "Zoe" ]}
              "03-Nov-2026 10:00:00" Worked.ann Worked.blank ()
              (world_of (create_netcdf {[ "author" := "Zoe" ]} "03-Nov-2026 10:00:00"
                           Worked.ann Worked.blank)))
    as (a & Ha & _ & w2 & Hinit & _).
  - vm_compute. reflexivity.
  - rewrite lookup_singleton_eq in Ha. injection Ha as <-. by exists w2.
Defined.

End ExchangeFile.
